(** * EvoSim: a shallow embedding of the simulation engine

    The development follows the Python sources module by module:
    [config.py], [genome.py], [neural_network.py], [world.py],
    [creature.py] and [simulation.py].

    Conventions.
    - Python [int] is [Z]; [>>], [<<], [&], [|], [^] are [Z.shiftr],
      [Z.shiftl], [Z.land], [Z.lor], [Z.lxor]; [%] and [//] are
      [Z.modulo] and [Z.div] (both floor, sign of the divisor).
    - Python and NumPy floating-point values are kept abstract behind the
      class [FloatOps]; structural results are proved for every instance,
      numeric results for the instance over the real numbers, where the
      rounding of each operation is idealised away.
    - Objects with identity (creatures) live in a heap indexed by [nat];
      the grid stores references (heap indices), as the Python grid stores
      object references.
    - Exceptions are values of [exn]; a raising operation leaves the
      state as it was when the exception left the function. *)

From Stdlib Require Import ZArith Reals Lra Lia List Bool.
From stdpp Require Import base option list strings gmap.

Local Open Scope Z_scope.
#[local] Set Warnings "-clear-no-such-hyp".

(** ** Floating-point interface *)

Class FloatOps (F : Type) := {
  of_int : Z -> F;            (* an [int] used where a float is expected *)
  fadd   : F -> F -> F;
  fsub   : F -> F -> F;
  fmul   : F -> F -> F;
  fdiv   : F -> F -> F;       (* [/] with a non-zero divisor *)
  fneg   : F -> F;            (* unary minus *)
  fabs   : F -> F;            (* [abs] *)
  fltb   : F -> F -> bool;    (* [<] *)
  fzerob : F -> bool;         (* [== 0], the test behind ZeroDivisionError *)
  to_int : F -> Z;            (* [int(.)]: truncation toward zero *)
  ftanh  : F -> F;            (* [np.tanh] *)
  fsin   : F -> F;            (* [np.sin] *)
  fexp   : F -> F;            (* [np.exp] *)
  fpi    : F;                 (* [np.pi] *)
  fround : Z -> F -> F;       (* [round(., ndigits)] *)
}.

(** A decimal literal [n/d] with [n] and [d] exactly representable: IEEE
    division is correctly rounded, so the quotient is the literal. *)
Definition flit {F} `{FloatOps F} (n d : Z) : F := fdiv (of_int n) (of_int d).

(** [a > b] and [min] on floats, as Python evaluates them. *)
Definition fgtb {F} `{FloatOps F} (a b : F) : bool := fltb b a.
Definition fmin {F} `{FloatOps F} (a b : F) : F := if fltb b a then b else a.

(** ** config.py *)

Module Config.
Definition WORLD_WIDTH : Z := 128.
Definition WORLD_HEIGHT : Z := 128.
Definition POPULATION : Z := 1000.
Definition MAX_GENERATIONS : Z := 1200.
Definition STEPS_PER_GEN : Z := 300.
Definition GENOME_SIZE : Z := 16.
Definition MAX_INTERNAL_NEURONS : Z := 4.
Definition WEIGHT_DIVISOR : Z := 8000.
Definition NUM_SENSORS : Z := 14.
Definition NUM_ACTIONS : Z := 8.
Definition CENTER_RADIUS : Z := 20.
Definition STRIP_WIDTH : Z := 32.
Definition CORNER_SIZE : Z := 32.
End Config.
Import Config.

(** ** genome.py *)

Record Connection (F : Type) := mkConnection {
  source_type : Z;   (* 0 = sensor, 1 = internal *)
  source_id   : Z;
  sink_type   : Z;   (* 0 = internal, 1 = action *)
  sink_id     : Z;
  weight      : F;
}.
Arguments mkConnection {F}.
Arguments source_type {F}.
Arguments source_id {F}.
Arguments sink_type {F}.
Arguments sink_id {F}.
Arguments weight {F}.

Section Genome.
Context {F : Type} `{FloatOps F}.

Definition decode_gene (gene : Z) : Connection F :=
  let source_type := Z.land (Z.shiftr gene 31) 0x1 in
  let source_id   := Z.land (Z.shiftr gene 24) 0x7F in
  let sink_type   := Z.land (Z.shiftr gene 23) 0x1 in
  let sink_id     := Z.land (Z.shiftr gene 16) 0x7F in
  let raw_weight  := Z.land gene 0xFFFF in
  let raw_weight  := if 0x8000 <=? raw_weight then raw_weight - 0x10000
                     else raw_weight in
  let weight      := fdiv (of_int raw_weight) (of_int WEIGHT_DIVISOR) in
  let source_id   := if source_type =? 0
                     then source_id mod NUM_SENSORS
                     else source_id mod (Z.max 1 MAX_INTERNAL_NEURONS) in
  let sink_id     := if sink_type =? 1
                     then sink_id mod NUM_ACTIONS
                     else sink_id mod (Z.max 1 MAX_INTERNAL_NEURONS) in
  mkConnection source_type source_id sink_type sink_id weight.

Definition encode_gene (source_type source_id sink_type sink_id : Z)
    (weight_float : F) : Z :=
  let raw_weight := to_int (fmul weight_float (of_int WEIGHT_DIVISOR)) in
  let raw_weight := Z.max (-32768) (Z.min 32767 raw_weight) in
  let raw_weight := if raw_weight <? 0 then raw_weight + 0x10000
                    else raw_weight in
  let gene := Z.shiftl (Z.land source_type 0x1) 31 in
  let gene := Z.lor gene (Z.shiftl (Z.land source_id 0x7F) 24) in
  let gene := Z.lor gene (Z.shiftl (Z.land sink_type 0x1) 23) in
  let gene := Z.lor gene (Z.shiftl (Z.land sink_id 0x7F) 16) in
  let gene := Z.lor gene (Z.land raw_weight 0xFFFF) in
  gene.

(** [bin(n).count('1')]: [bin] prints a sign and the binary digits of
    the magnitude, so the ones counted are those of [|n|]. *)
Fixpoint pos_count_ones (p : positive) : Z :=
  match p with
  | xH => 1
  | xO q => pos_count_ones q
  | xI q => 1 + pos_count_ones q
  end.

Definition bin_count_ones (n : Z) : Z :=
  match n with
  | Z0 => 0
  | Zpos p => pos_count_ones p
  | Zneg p => pos_count_ones p
  end.

(** The body of the [for a, b in zip(...)] loop of [genome_similarity],
    threading the two counters. *)
Fixpoint similarity_loop (ab : list (Z * Z)) (total_bits matching : Z)
    : Z * Z :=
  match ab with
  | [] => (total_bits, matching)
  | (a, b) :: rest =>
      let xor := Z.lxor a b in
      similarity_loop rest (total_bits + 32)
                      (matching + (32 - bin_count_ones xor))
  end.

Definition genome_similarity (genome_a genome_b : list Z) : F :=
  match genome_a, genome_b with
  | [], _ | _, [] => of_int 0
  | _, _ =>
      let '(total_bits, matching) :=
        similarity_loop (zip genome_a genome_b) 0 0 in
      if total_bits =? 0 then of_int 1
      else fdiv (of_int matching) (of_int total_bits)
  end.

Fixpoint fold_xor24 (genome : list Z) (h : Z) : Z :=
  match genome with
  | [] => h
  | g :: rest => fold_xor24 rest (Z.lxor h (Z.land g 0xFFFFFF))
  end.

Definition genome_to_color (genome : list Z) : Z * Z * Z :=
  match genome with
  | [] => (128, 128, 128)
  | _ =>
      let h := fold_xor24 genome 0 in
      let r := Z.land (Z.shiftr h 16) 0xFF in
      let g := Z.land (Z.shiftr h 8) 0xFF in
      let b := Z.land h 0xFF in
      (Z.max 50 r, Z.max 50 g, Z.max 50 b)
  end.

End Genome.

(** ** The real-number instance *)

Definition Rtrunc (r : R) : Z :=
  if Rle_dec 0 r then Zfloor r else Zceil r.

(** Rounding to [n] decimal places, ties to the even neighbour. *)
Definition Rround (n : Z) (r : R) : R :=
  let t := (r * IZR (10 ^ n))%R in
  let lo := Zfloor t in
  let nearest :=
    if Rlt_dec (t - IZR lo) (1 / 2) then lo
    else if Rlt_dec (1 / 2) (t - IZR lo) then lo + 1
    else if Z.even lo then lo else lo + 1 in
  (IZR nearest / IZR (10 ^ n))%R.

#[global] Instance RealFloat : FloatOps R := {
  of_int := IZR;
  fadd := Rplus;
  fsub := Rminus;
  fmul := Rmult;
  fdiv := Rdiv;
  fneg := Ropp;
  fabs := Rabs;
  fltb := fun a b => if Rlt_dec a b then true else false;
  fzerob := fun a => if Req_dec_T a 0%R then true else false;
  to_int := Rtrunc;
  ftanh := tanh;
  fsin := sin;
  fexp := exp;
  fpi := PI;
  fround := Rround;
}.

(** ** Exceptions and Python indexing *)

(** [NoSuchObject] is not a Python exception: it is the outcome of
    following a reference that names no object, which Python code cannot
    do; it only makes heap lookups total. *)
Inductive exn := IndexError | ZeroDivisionError | ValueError | NoSuchObject.

(** Outcome of code that keeps no state of its own. *)
Inductive result (A : Type) :=
| Ok (a : A)
| Raise (e : exn).
Arguments Ok {A}.
Arguments Raise {A}.

#[global] Instance result_ret : MRet result := fun _ a => Ok a.
#[global] Instance result_bind : MBind result := fun _ _ f m =>
  match m with
  | Ok a => f a
  | Raise e => Raise e
  end.

(** [l[i]] on a Python list or a one-dimensional NumPy array: an index in
    [[-len, 0)] counts from the end, anything outside [[-len, len)]
    raises IndexError. *)
Definition py_index (len : nat) (i : Z) : option nat :=
  if (0 <=? i) && (i <? Z.of_nat len) then Some (Z.to_nat i)
  else if (- Z.of_nat len <=? i) && (i <? 0)
       then Some (Z.to_nat (Z.of_nat len + i))
       else None.

Definition getitem {A} (l : list A) (i : Z) : result A :=
  match py_index (length l) i with
  | Some n => match l !! n with
              | Some a => Ok a
              | None => Raise IndexError
              end
  | None => Raise IndexError
  end.

Definition setitem {A} (l : list A) (i : Z) (a : A) : result (list A) :=
  match py_index (length l) i with
  | Some n => Ok (<[n := a]> l)
  | None => Raise IndexError
  end.

(** ** neural_network.py *)

Record NeuralNetwork (F : Type) := mkNeuralNetwork {
  nn_genome    : list Z;
  n_sensors    : Z;
  n_actions    : Z;
  n_internal   : Z;
  _connections : list (Connection F);
}.
Arguments mkNeuralNetwork {F}.
Arguments nn_genome {F}.
Arguments n_sensors {F}.
Arguments n_actions {F}.
Arguments n_internal {F}.
Arguments _connections {F}.

Section NeuralNetworkDefs.
Context {F : Type} `{FloatOps F}.

Definition _parse_genome (genome : list Z) : list (Connection F) :=
  map decode_gene genome.

(** One iteration of the [for c in connections] loop that grows
    [useful]; the pair threads the set and the [changed] flag, so a
    connection later in the list already sees the ids added before it. *)
Definition useful_visit (st : gset Z * bool) (c : Connection F)
    : gset Z * bool :=
  let '(useful, changed) := st in
  if sink_type c =? 1 then
    if (source_type c =? 1) && negb (bool_decide (source_id c ∈ useful))
    then ({[source_id c]} ∪ useful, true)
    else (useful, changed)
  else if (sink_type c =? 0) && bool_decide (sink_id c ∈ useful) then
    if (source_type c =? 1) && negb (bool_decide (source_id c ∈ useful))
    then ({[source_id c]} ∪ useful, true)
    else (useful, changed)
  else (useful, changed).

Definition useful_pass (connections : list (Connection F))
    (useful : gset Z) : gset Z * bool :=
  fold_left useful_visit connections (useful, false).

(** The [while changed] loop; [None] when the fuel runs out before a
    pass leaves [changed] false. *)
Fixpoint useful_loop (fuel : nat) (connections : list (Connection F))
    (useful : gset Z) : option (gset Z) :=
  match fuel with
  | O => None
  | S fuel' =>
      let '(useful', changed) := useful_pass connections useful in
      if changed then useful_loop fuel' connections useful'
      else Some useful'
  end.

(** Every pass that sets [changed] adds a source id of some connection,
    so one pass per connection and a last quiet one are enough
    ([useful_loop_terminates] below). *)
Definition useful_set (connections : list (Connection F)) : gset Z :=
  default ∅ (useful_loop (S (length connections)) connections ∅).

Definition keep_connection (useful : gset Z) (c : Connection F) : bool :=
  if sink_type c =? 1 then true
  else bool_decide (sink_id c ∈ useful).

Definition _prune_dead_ends (connections : list (Connection F))
    : list (Connection F) :=
  let useful := useful_set connections in
  filter (fun c => keep_connection useful c = true) connections.

Definition NeuralNetwork_init (genome : list Z) : NeuralNetwork F :=
  let connections := _parse_genome genome in
  let connections := _prune_dead_ends connections in
  mkNeuralNetwork genome NUM_SENSORS NUM_ACTIONS MAX_INTERNAL_NEURONS
                  connections.

Definition np_zeros (n : Z) : list F := replicate (Z.to_nat n) (of_int 0).

(** [src = sensor_inputs[id] if source_type == 0 else internal_vals[id]] *)
Definition source_value (sensor_inputs internal_vals : list F)
    (c : Connection F) : result F :=
  if source_type c =? 0 then getitem sensor_inputs (source_id c)
  else getitem internal_vals (source_id c).

(** [acc[c.sink_id] += src * c.weight] for a connection whose sink type
    is [kind]; other connections are skipped. *)
Definition accumulate (kind : Z) (sensor_inputs internal_vals : list F)
    (acc : list F) (c : Connection F) : result (list F) :=
  if sink_type c =? kind then
    src ← source_value sensor_inputs internal_vals c;
    old ← getitem acc (sink_id c);
    setitem acc (sink_id c) (fadd old (fmul src (weight c)))
  else Ok acc.

Fixpoint accumulate_all (kind : Z) (sensor_inputs internal_vals : list F)
    (connections : list (Connection F)) (acc : list F)
    : result (list F) :=
  match connections with
  | [] => Ok acc
  | c :: rest =>
      acc' ← accumulate kind sensor_inputs internal_vals acc c;
      accumulate_all kind sensor_inputs internal_vals rest acc'
  end.

(** One iteration of [for _ in range(2)]. *)
Definition internal_pass (n_internal : Z)
    (connections : list (Connection F))
    (sensor_inputs internal_vals : list F) : result (list F) :=
  new_internal ← accumulate_all 0 sensor_inputs internal_vals connections
                                (np_zeros n_internal);
  Ok (map ftanh new_internal).

(** [forward] over an explicit connection list.  The two state vectors
    of the object are overwritten at the start of every call and carry
    nothing from one call to the next, so they are local here. *)
Definition forward_connections (n_internal n_actions : Z)
    (connections : list (Connection F)) (sensor_inputs : list F)
    : result (list F) :=
  let internal_vals := np_zeros n_internal in
  internal_vals ← internal_pass n_internal connections sensor_inputs
                                internal_vals;
  internal_vals ← internal_pass n_internal connections sensor_inputs
                                internal_vals;
  action_sums ← accumulate_all 1 sensor_inputs internal_vals connections
                               (np_zeros n_actions);
  Ok (map ftanh action_sums).

Definition forward (self : NeuralNetwork F) (sensor_inputs : list F)
    : result (list F) :=
  forward_connections (n_internal self) (n_actions self)
                      (_connections self) sensor_inputs.

Definition get_active_connections (self : NeuralNetwork F)
    : list (Connection F) := _connections self.

End NeuralNetworkDefs.

(** ** State with exceptions

    [M S A] is code that reads and writes a state [S] and either returns
    an [A] or raises; the state reached is kept in both cases. *)

Inductive outcome (S A : Type) :=
| Done (a : A) (s : S)
| Raised (e : exn) (s : S).
Arguments Done {S A}.
Arguments Raised {S A}.

Definition M (S A : Type) : Type := S -> outcome S A.

#[global] Instance M_ret {S} : MRet (M S) := fun _ a s => Done a s.
#[global] Instance M_bind {S} : MBind (M S) := fun _ _ f m s =>
  match m s with
  | Done a s' => f a s'
  | Raised e s' => Raised e s'
  end.

Definition raise {S A} (e : exn) : M S A := fun s => Raised e s.
Definition get_state {S} : M S S := fun s => Done s s.
Definition put_state {S} (s : S) : M S unit := fun _ => Done tt s.
Definition lift_result {S A} (r : result A) : M S A :=
  match r with
  | Ok a => mret a
  | Raise e => raise e
  end.

(** [for a in l: body a] *)
Fixpoint for_each {S A} (l : list A) (body : A -> M S unit) : M S unit :=
  match l with
  | [] => mret tt
  | a :: rest => body a ;; for_each rest body
  end.

(** [range(lo, hi)] *)
Definition py_range (lo hi : Z) : list Z :=
  map (fun k => lo + Z.of_nat k) (seq 0 (Z.to_nat (hi - lo))).

(** ** Random source (the NumPy [Generator] behind [rng]) *)

Class RngOps (G F : Type) := {
  seed_rng            : Z -> G;               (* [default_rng(seed)] *)
  rng_random          : G -> F * G;           (* [rng.random()] *)
  rng_integers        : Z -> Z -> G -> Z * G; (* [rng.integers(lo, hi)] *)
  rng_integers_uint32 : Z -> G -> list Z * G; (* [rng.integers(0, 2**32,
                                                 size=n, dtype=uint32)] *)
  rng_permutation     : Z -> G -> list Z * G; (* [rng.permutation(n)] *)
  rng_choice          : Z -> Z -> G -> list Z * G;
                                   (* [rng.choice(n, k, replace=False)] *)
}.

(** [np.random.default_rng(seed)]: with [seed=None] the generator is
    seeded from the operating system, here the value [os_entropy]. *)
Definition default_rng {G F} `{RngOps G F} (seed : option Z)
    (os_entropy : Z) : G :=
  match seed with
  | Some s => seed_rng s
  | None => seed_rng os_entropy
  end.

(** A small linear congruential generator, for running the engine on
    concrete inputs; it stands for no particular NumPy bit generator.
    The engine never relies on more than the interface above. *)
Definition lcg_next (g : Z) : Z := (g * 1103515245 + 12345) mod 2 ^ 31.

(** [n] successive outputs reduced by [f]. *)
Fixpoint lcg_take (n : nat) (f : Z -> Z) (g : Z) : list Z * Z :=
  match n with
  | O => ([], g)
  | S k => let '(l, g') := lcg_take k f (lcg_next g) in (f g :: l, g')
  end.

(** Insert [v] at position [k mod (length l + 1)]: repeated insertion
    builds a permutation. *)
Definition insert_at (k : Z) (v : Z) (l : list Z) : list Z :=
  let i := Z.to_nat (k mod (Z.of_nat (length l) + 1)) in
  take i l ++ v :: drop i l.

Fixpoint lcg_permutation (n : nat) (g : Z) : list Z * Z :=
  match n with
  | O => ([], g)
  | S k =>
      let '(l, g') := lcg_permutation k (lcg_next g) in
      (insert_at g (Z.of_nat k) l, g')
  end.

#[global] Instance LcgRng {F} `{FloatOps F} : RngOps Z F := {
  seed_rng := fun s => s mod 2 ^ 31;
  rng_random := fun g => (fdiv (of_int (g mod 1000)) (of_int 1000), lcg_next g);
  rng_integers := fun lo hi g => (lo + g mod (hi - lo), lcg_next g);
  rng_integers_uint32 := fun n g =>
    lcg_take (Z.to_nat n) (fun v => (v * 3) mod 2 ^ 32) g;
  rng_permutation := fun n g => lcg_permutation (Z.to_nat n) g;
  rng_choice := fun n k g =>
    let '(l, g') := lcg_permutation (Z.to_nat n) g in (take (Z.to_nat k) l, g');
}.

(** ** creature.py: the object, and world.py *)

Definition DIRS : list (Z * Z) :=
  [(1,0); (1,1); (0,1); (-1,1); (-1,0); (-1,-1); (0,-1); (1,-1)].

Record Creature (F : Type) := mkCreature {
  x : Z;
  y : Z;
  genome : list Z;
  brain : NeuralNetwork F;
  alive : bool;
  age : Z;
  last_dir : Z;
  color : Z * Z * Z;
  radiation_dose : F;
  _osc_phase : F;
}.
Arguments mkCreature {F}.
Arguments x {F}.
Arguments y {F}.
Arguments genome {F}.
Arguments brain {F}.
Arguments alive {F}.
Arguments age {F}.
Arguments last_dir {F}.
Arguments color {F}.
Arguments radiation_dose {F}.
Arguments _osc_phase {F}.

(** Attribute assignments [c.x, c.y = ...], [c.alive = ...], ... *)
Definition set_pos {F} (nx ny : Z) (c : Creature F) : Creature F :=
  mkCreature nx ny (genome c) (brain c) (alive c) (age c) (last_dir c)
             (color c) (radiation_dose c) (_osc_phase c).
Definition set_alive {F} (b : bool) (c : Creature F) : Creature F :=
  mkCreature (x c) (y c) (genome c) (brain c) b (age c) (last_dir c)
             (color c) (radiation_dose c) (_osc_phase c).
Definition set_age {F} (a : Z) (c : Creature F) : Creature F :=
  mkCreature (x c) (y c) (genome c) (brain c) (alive c) a (last_dir c)
             (color c) (radiation_dose c) (_osc_phase c).
Definition set_last_dir {F} (d : Z) (c : Creature F) : Creature F :=
  mkCreature (x c) (y c) (genome c) (brain c) (alive c) (age c) d
             (color c) (radiation_dose c) (_osc_phase c).
Definition set_radiation_dose {F} (r : F) (c : Creature F) : Creature F :=
  mkCreature (x c) (y c) (genome c) (brain c) (alive c) (age c) (last_dir c)
             (color c) r (_osc_phase c).
Definition set_osc_phase {F} (p : F) (c : Creature F) : Creature F :=
  mkCreature (x c) (y c) (genome c) (brain c) (alive c) (age c) (last_dir c)
             (color c) (radiation_dose c) p.

(** A grid cell holds a reference to a creature, or [None]. *)
Record World (G : Type) := mkWorld {
  width : Z;
  height : Z;
  rng : G;
  _grid : list (list (option nat));
  creatures : list nat;
  murder_count : Z;
}.
Arguments mkWorld {G}.
Arguments width {G}.
Arguments height {G}.
Arguments rng {G}.
Arguments _grid {G}.
Arguments creatures {G}.
Arguments murder_count {G}.

Definition set_rng {G} (g : G) (w : World G) : World G :=
  mkWorld (width w) (height w) g (_grid w) (creatures w) (murder_count w).
Definition set_grid {G} (g : list (list (option nat))) (w : World G)
    : World G :=
  mkWorld (width w) (height w) (rng w) g (creatures w) (murder_count w).
Definition set_creatures {G} (l : list nat) (w : World G) : World G :=
  mkWorld (width w) (height w) (rng w) (_grid w) l (murder_count w).
Definition set_murder_count {G} (n : Z) (w : World G) : World G :=
  mkWorld (width w) (height w) (rng w) (_grid w) (creatures w) n.

(** The creature objects and the world object of one simulation. *)
Record Mem (F G : Type) := mkMem {
  heap : gmap nat (Creature F);
  world : World G;
}.
Arguments mkMem {F G}.
Arguments heap {F G}.
Arguments world {F G}.

(** [for a in l: acc = body acc a], the accumulator being whatever local
    variables the loop updates. *)
Fixpoint for_fold {S A B} (l : list A) (acc : B) (body : B -> A -> M S B)
    : M S B :=
  match l with
  | [] => mret acc
  | a :: rest => acc' ← body acc a; for_fold rest acc' body
  end.

Section WorldDefs.
Context {F G : Type} `{FloatOps F} `{RngOps G F}.

(** Following a reference, and assigning to attributes of the object
    it names. *)
Definition deref (id : nat) : M (Mem F G) (Creature F) := fun m =>
  match heap m !! id with
  | Some c => Done c m
  | None => Raised NoSuchObject m
  end.

Definition assign (id : nat) (f : Creature F -> Creature F)
    : M (Mem F G) unit := fun m =>
  match heap m !! id with
  | Some c => Done tt (mkMem (<[id := f c]> (heap m)) (world m))
  | None => Raised NoSuchObject m
  end.

Definition get_world : M (Mem F G) (World G) := fun m => Done (world m) m.

Definition modify_world (f : World G -> World G) : M (Mem F G) unit :=
  fun m => Done tt (mkMem (heap m) (f (world m))).

(** A call on the shared generator [world.rng]. *)
Definition draw {A} (f : G -> A * G) : M (Mem F G) A := fun m =>
  let '(a, g) := f (rng (world m)) in
  Done a (mkMem (heap m) (set_rng g (world m))).

Definition empty_grid (width height : Z) : list (list (option nat)) :=
  replicate (Z.to_nat height) (replicate (Z.to_nat width) None).

Definition World_init (width height : Z) (seed : option Z)
    (os_entropy : Z) : World G :=
  mkWorld width height (default_rng seed os_entropy)
          (empty_grid width height) [] 0.

Definition _in_bounds (w : World G) (px py : Z) : bool :=
  (0 <=? px) && (px <? width w) && (0 <=? py) && (py <? height w).

(** [grid[py][px]] and [grid[py][px] = v] on the list of rows.  The rows
    are separate list objects (each built by its own [[None] * width]),
    so an update touches one row only. *)
Definition grid_read (grid : list (list (option nat))) (py px : Z)
    : result (option nat) :=
  row ← getitem grid py; getitem row px.

Definition grid_write (grid : list (list (option nat))) (py px : Z)
    (v : option nat) : result (list (list (option nat))) :=
  row ← getitem grid py;
  row' ← setitem row px v;
  setitem grid py row'.

(** [self._grid[py][px]] *)
Definition grid_get (py px : Z) : M (Mem F G) (option nat) :=
  w ← get_world;
  lift_result (grid_read (_grid w) py px).

(** [self._grid[py][px] = v] *)
Definition grid_set (py px : Z) (v : option nat) : M (Mem F G) unit :=
  w ← get_world;
  grid' ← lift_result (grid_write (_grid w) py px v);
  modify_world (set_grid grid').

Definition place_creature (creature : nat) : M (Mem F G) bool :=
  c ← deref creature;
  w ← get_world;
  if _in_bounds w (x c) (y c) then
    cell ← grid_get (y c) (x c);
    match cell with
    | None => grid_set (y c) (x c) (Some creature) ;; mret true
    | Some _ => mret false
    end
  else mret false.

Definition remove_creature (creature : nat) : M (Mem F G) unit :=
  c ← deref creature;
  w ← get_world;
  if _in_bounds w (x c) (y c) then
    cell ← grid_get (y c) (x c);
    if bool_decide (cell = Some creature)
    then grid_set (y c) (x c) None
    else mret tt
  else mret tt.

Definition clear : M (Mem F G) unit :=
  modify_world (fun w =>
    mkWorld (width w) (height w) (rng w)
            (empty_grid (width w) (height w)) [] 0).

(** The placement loop of [populate], with its [break]; returns
    [placed]. *)
Fixpoint populate_loop (creatures : list nat) (positions : list (Z * Z))
    (placed : Z) : M (Mem F G) Z :=
  match creatures with
  | [] => mret placed
  | creature :: rest =>
      if Z.of_nat (length positions) <=? placed then mret placed
      else
        pos ← lift_result (getitem positions placed);
        assign creature (set_pos (fst pos) (snd pos)) ;;
        c ← deref creature;
        grid_set (y c) (x c) (Some creature) ;;
        populate_loop rest positions (placed + 1)
  end.

Definition populate (creatures : list nat) : M (Mem F G) unit :=
  clear ;;
  w ← get_world;
  let positions :=
    flat_map (fun py => map (fun px => (px, py)) (py_range 0 (width w)))
             (py_range 0 (height w)) in
  perm ← draw (rng_permutation (Z.of_nat (length positions)));
  positions ← lift_result (mapM (getitem positions) perm);
  placed ← populate_loop creatures positions 0;
  modify_world (set_creatures (take (Z.to_nat placed) creatures)).

(** The sign of a displacement: [1 if d > 0 else (-1 if d < 0 else 0)]. *)
Definition sign (d : Z) : Z := if 0 <? d then 1 else if d <? 0 then -1 else 0.

(** [for i, (ddx, ddy) in enumerate(DIRS): if ...: last_dir = i; break] *)
Fixpoint find_dir (dirs : list (Z * Z)) (i : Z) (sx sy : Z) : option Z :=
  match dirs with
  | [] => None
  | (ddx, ddy) :: rest =>
      if (ddx =? sx) && (ddy =? sy) then Some i
      else find_dir rest (i + 1) sx sy
  end.

Definition move_creature (creature : nat) (dx dy : Z) : M (Mem F G) bool :=
  c ← deref creature;
  w ← get_world;
  let nx := Z.max 0 (Z.min (width w - 1) (x c + dx)) in
  let ny := Z.max 0 (Z.min (height w - 1) (y c + dy)) in
  if (nx =? x c) && (ny =? y c) then mret false
  else
    target ← grid_get ny nx;
    match target with
    | Some _ => mret false
    | None =>
        grid_set (y c) (x c) None ;;
        assign creature (set_pos nx ny) ;;
        grid_set ny nx (Some creature) ;;
        (if negb (dx =? 0) || negb (dy =? 0) then
           match find_dir DIRS 0 (sign dx) (sign dy) with
           | Some i => assign creature (set_last_dir i)
           | None => mret tt
           end
         else mret tt) ;;
        mret true
    end.

Definition kill_creature_at (px py : Z) : M (Mem F G) unit :=
  w ← get_world;
  if negb (_in_bounds w px py) then mret tt
  else
    victim ← grid_get py px;
    match victim with
    | Some v =>
        c ← deref v;
        if alive c then
          assign v (set_alive false) ;;
          grid_set py px None ;;
          modify_world (fun w => set_murder_count (murder_count w + 1) w)
        else mret tt
    | None => mret tt
    end.

Definition get_creature (px py : Z) : M (Mem F G) (option nat) :=
  w ← get_world;
  if _in_bounds w px py then grid_get py px else mret None.

(** [self._in_bounds(px, py) and self._grid[py][px] is not None] *)
Definition occupied (px py : Z) : M (Mem F G) bool :=
  w ← get_world;
  if _in_bounds w px py then
    cell ← grid_get py px;
    mret (bool_decide (cell ≠ None))
  else mret false.

Definition local_density (cx cy radius : Z) : M (Mem F G) Z :=
  for_fold (py_range (- radius) (radius + 1)) 0 (fun (count : Z) dy =>
    for_fold (py_range (- radius) (radius + 1)) count (fun (count : Z) dx =>
      if (dx =? 0) && (dy =? 0) then mret count
      else
        b ← occupied (cx + dx) (cy + dy);
        mret (if (b : bool) then count + 1 else count))).

Definition forward_density_gradient (cx cy dir_idx : Z) : M (Mem F G) F :=
  d ← lift_result (getitem DIRS dir_idx);
  let '(dx, dy) := d in
  fwd ← for_fold (py_range 1 6) 0 (fun (n : Z) step =>
           b ← occupied (cx + dx * step) (cy + dy * step);
           mret (if (b : bool) then n + 1 else n));
  bwd ← for_fold (py_range 1 6) 0 (fun (n : Z) step =>
           b ← occupied (cx - dx * step) (cy - dy * step);
           mret (if (b : bool) then n + 1 else n));
  mret (fdiv (of_int (fwd - bwd)) (of_int 5)).

Definition genetic_sim_to (creature : nat) (other : option nat)
    : M (Mem F G) F :=
  match other with
  | None => mret (of_int 0)
  | Some o =>
      c ← deref creature;
      oc ← deref o;
      mret (genome_similarity (genome c) (genome oc))
  end.

End WorldDefs.

(** ** creature.py *)

Section CreatureDefs.
Context {F G : Type} `{FloatOps F} `{RngOps G F}.

(** The name [KILL_ENABLED] of the creature module: bound to the
    configuration value when the module is imported. *)
Variable KILL_ENABLED : bool.

(** [Creature(x, y, genome, rng)] with a genome given. *)
Definition Creature_init (px py : Z) (genome : list Z) : Creature F :=
  mkCreature px py genome (NeuralNetwork_init genome) true 0 0
             (genome_to_color genome) (of_int 0) (of_int 0).

(** [a / b] on two ints. *)
Definition int_truediv (a b : Z) : result F :=
  if b =? 0 then Raise ZeroDivisionError
  else Ok (fdiv (of_int a) (of_int b)).

(** [a / b] with a float divisor. *)
Definition float_truediv (a b : F) : result F :=
  if fzerob b then Raise ZeroDivisionError else Ok (fdiv a b).

Definition _sense (self : nat) (sim_step : Z) : M (Mem F G) (list F) :=
  w ← get_world;
  let W := width w in
  let H := height w in
  c ← deref self;
  in0 ← lift_result (int_truediv (x c) (W - 1));
  in1 ← lift_result (int_truediv (y c) (H - 1));
  in2 ← lift_result (int_truediv (age c) (Z.max 1 (STEPS_PER_GEN - 1)));
  in3 ← draw rng_random;
  assign self (fun c =>
    set_osc_phase (fadd (_osc_phase c)
                        (fdiv (fmul (of_int 2) fpi) (of_int 30))) c) ;;
  c ← deref self;
  let in4 := fmul (fadd (fsin (_osc_phase c)) (of_int 1)) (flit 1 2) in
  half_w ← lift_result (int_truediv W 2);
  q5 ← lift_result (float_truediv (of_int (Z.min (x c) (W - 1 - x c)))
                                  half_w);
  let in5 := fsub (of_int 1) q5 in
  half_h ← lift_result (int_truediv H 2);
  q6 ← lift_result (float_truediv (of_int (Z.min (y c) (H - 1 - y c)))
                                  half_h);
  let in6 := fsub (of_int 1) q6 in
  neighbours ← local_density (x c) (y c) 2;
  let in7 := fmin (of_int 1) (fdiv (of_int neighbours) (of_int 8)) in
  in8 ← forward_density_gradient (x c) (y c) (last_dir c);
  d ← lift_result (getitem DIRS (last_dir c));
  let '(dx, dy) := d in
  let nx := x c + dx in
  let ny := y c + dy in
  ahead ← get_creature nx ny;
  in9 ← genetic_sim_to self ahead;
  let in10 := fdiv (of_int (dx + 1)) (of_int 2) in
  let in11 := fdiv (of_int (dy + 1)) (of_int 2) in
  let in12 := if bool_decide (ahead ≠ None) then of_int 1 else of_int 0 in
  let in13 := of_int 1 in
  mret [in0; in1; in2; in3; in4; in5; in6; in7; in8; in9;
        in10; in11; in12; in13].

(** The selection loop of [step]:
    [for i, v in enumerate(actions): if abs(v) > best_val: ...]. *)
Fixpoint choose_action_loop (actions : list F) (i : Z)
    (best_act : option Z) (best_val : F) : option Z * F :=
  match actions with
  | [] => (best_act, best_val)
  | v :: rest =>
      if fgtb (fabs v) best_val
      then choose_action_loop rest (i + 1) (Some i) (fabs v)
      else choose_action_loop rest (i + 1) best_act best_val
  end.

(** [THRESHOLD = 0.1].  The activations are float32 ([forward] returns a
    float32 array), and NumPy 2 compares a float32 with a Python float
    in float32: the threshold the loop compares with is the float32
    nearest to 0.1, and [best_val] is a float32 from the first update
    on. *)
Definition THRESHOLD : F := flit 1 10.

Definition choose_action (actions : list F) : option Z :=
  fst (choose_action_loop actions 0 None THRESHOLD).

(** [dx, dy = DIRS[self.last_dir]; world.move_creature(self, dx, dy)] *)
Definition move_along_heading (self : nat) : M (Mem F G) bool :=
  c ← deref self;
  d ← lift_result (getitem DIRS (last_dir c));
  move_creature self (fst d) (snd d).

Definition _execute_action (self : nat) (action_id : Z) (strength : F)
    : M (Mem F G) unit :=
  if action_id =? 0 then
    let dx := if fgtb strength (of_int 0) then 1 else -1 in
    move_creature self dx 0 ;; mret tt
  else if action_id =? 1 then
    let dy := if fgtb strength (of_int 0) then 1 else -1 in
    move_creature self 0 dy ;; mret tt
  else if action_id =? 2 then
    d ← draw (rng_integers 0 8);
    dir ← lift_result (getitem DIRS d);
    moved ← move_creature self (fst dir) (snd dir);
    if (moved : bool) then assign self (set_last_dir d) else mret tt
  else if action_id =? 3 then
    move_along_heading self ;; mret tt
  else if action_id =? 4 then
    assign self (fun c => set_last_dir ((last_dir c - 1) mod 8) c) ;;
    move_along_heading self ;; mret tt
  else if action_id =? 5 then
    assign self (fun c => set_last_dir ((last_dir c + 1) mod 8) c) ;;
    move_along_heading self ;; mret tt
  else if action_id =? 6 then
    assign self (fun c => set_last_dir ((last_dir c + 4) mod 8) c) ;;
    move_along_heading self ;; mret tt
  else if action_id =? 7 then
    if KILL_ENABLED then
      c ← deref self;
      d ← lift_result (getitem DIRS (last_dir c));
      kill_creature_at (x c + fst d) (y c + snd d)
    else mret tt
  else mret tt.

(** The decision part of [step]: the action to execute and its
    strength, or [None] when nothing is executed. *)
Definition decide_action (actions : list F) : result (option (Z * F)) :=
  match choose_action actions with
  | Some best_act =>
      strength ← getitem actions best_act;
      Ok (Some (best_act, strength))
  | None => Ok None
  end.

Definition step (self : nat) (sim_step : Z) : M (Mem F G) unit :=
  c ← deref self;
  if negb (alive c) then mret tt
  else
    assign self (fun c => set_age (age c + 1) c) ;;
    inputs ← _sense self sim_step;
    c ← deref self;
    actions ← lift_result (forward (brain c) inputs);
    chosen ← lift_result (decide_action actions);
    match chosen with
    | Some (best_act, strength) => _execute_action self best_act strength
    | None => mret tt
    end.

End CreatureDefs.

(** ** genome.py: operations that draw from the generator *)

Section GenomeRandomDefs.
Context {F G : Type} `{FloatOps F} `{RngOps G F}.

(** [.astype(np.int32)] on a uint32 value. *)
Definition astype_int32 (v : Z) : Z := (v + 2 ^ 31) mod 2 ^ 32 - 2 ^ 31.

Definition random_genome (size : Z) : M (Mem F G) (list Z) :=
  if size <? 0 then raise ValueError
  else
    raw ← draw (rng_integers_uint32 size);
    mret (map astype_int32 raw).

(** [for bit in range(32): if rng.random() < rate: gene ^= (1 << bit)] *)
Definition mutate_gene (rate : F) (gene : Z) : M (Mem F G) Z :=
  let gene := Z.land gene 0xFFFFFFFF in
  gene ← for_fold (py_range 0 32) gene (fun (gene : Z) bit =>
            r ← draw rng_random;
            mret (if fltb r rate then Z.lxor gene (Z.shiftl 1 bit)
                  else gene));
  let gene := Z.land gene 0xFFFFFFFF in
  mret (if 0x80000000 <=? gene then gene - 0x100000000 else gene).

Definition mutate_genome (genome : list Z) (rate : F)
    : M (Mem F G) (list Z) :=
  for_fold genome [] (fun mutated gene =>
    gene' ← mutate_gene rate gene;
    mret (mutated ++ [gene'])).

(** Slices [l[:k]] and [l[k:]]; a negative bound counts from the end. *)
Definition slice_bound {A} (l : list A) (k : Z) : nat :=
  if k <? 0 then Z.to_nat (Z.max 0 (Z.of_nat (length l) + k))
  else Z.to_nat k.
Definition slice_to {A} (l : list A) (k : Z) : list A :=
  take (slice_bound l k) l.
Definition slice_from {A} (l : list A) (k : Z) : list A :=
  drop (slice_bound l k) l.

Definition crossover (genome_a genome_b : list Z) : M (Mem F G) (list Z) :=
  let size := Z.of_nat (length genome_a) in
  split ← draw (rng_integers 0 (size + 1));
  mret (slice_to genome_a split ++ slice_from genome_b split).

End GenomeRandomDefs.

(** ** simulation.py *)

(** The constructor arguments kept by the [Simulation] object; the
    callbacks are external observers and are not part of the engine. *)
Record Simulation (F : Type) := mkSimulation {
  population      : Z;
  max_generations : Z;
  steps_per_gen   : Z;
  genome_size     : Z;
  mutation_rate   : F;
  selection_mode  : string;
  world_width     : Z;
  world_height    : Z;
  seed            : option Z;
}.
Arguments mkSimulation {F}.
Arguments population {F}.
Arguments max_generations {F}.
Arguments steps_per_gen {F}.
Arguments genome_size {F}.
Arguments mutation_rate {F}.
Arguments selection_mode {F}.
Arguments world_width {F}.
Arguments world_height {F}.
Arguments seed {F}.

(** The per-generation dictionary; ["elapsed_s"] is added by the caller of
    [_run_one_generation]. *)
Record GenerationStats (F : Type) := mkStats {
  stat_generation   : Z;
  stat_population   : Z;
  stat_survivors    : Z;
  stat_alive        : Z;
  stat_survival_pct : F;
  stat_murdered     : Z;
  stat_diversity    : F;
  stat_elapsed_s    : option F;
}.
Arguments mkStats {F}.
Arguments stat_generation {F}.
Arguments stat_population {F}.
Arguments stat_survivors {F}.
Arguments stat_alive {F}.
Arguments stat_survival_pct {F}.
Arguments stat_murdered {F}.
Arguments stat_diversity {F}.
Arguments stat_elapsed_s {F}.

Definition set_elapsed_s {F} (e : F) (st : GenerationStats F)
    : GenerationStats F :=
  mkStats (stat_generation st) (stat_population st) (stat_survivors st)
          (stat_alive st) (stat_survival_pct st) (stat_murdered st)
          (stat_diversity st) (Some e).

(** The mutable part of a running simulation: the objects it owns, its
    own mutable attributes, and how many times the wall clock was read. *)
Record SimState (F G : Type) := mkSimState {
  mem : Mem F G;
  generation : Z;
  stats : list (GenerationStats F);
  current_gen_creatures : list nat;
  ticks : nat;
}.
Arguments mkSimState {F G}.
Arguments mem {F G}.
Arguments generation {F G}.
Arguments stats {F G}.
Arguments current_gen_creatures {F G}.
Arguments ticks {F G}.

Section SimulationDefs.
Context {F G : Type} `{FloatOps F} `{RngOps G F}.
Variable KILL_ENABLED : bool.

(** [time.time()]: the [k]-th reading of the wall clock. *)
Variable clock : nat -> F.

Definition RADIO_MAX_DOSE : F := of_int 1.
Definition RADIO_FALLOFF : F := flit 4 100.

(** A [Mem] computation run on the objects of the simulation. *)
Definition on_mem {A} (m : M (Mem F G) A) : M (SimState F G) A := fun s =>
  match m (mem s) with
  | Done a m' =>
      Done a (mkSimState m' (generation s) (stats s)
                         (current_gen_creatures s) (ticks s))
  | Raised e m' =>
      Raised e (mkSimState m' (generation s) (stats s)
                           (current_gen_creatures s) (ticks s))
  end.

Definition time_time : M (SimState F G) F := fun s =>
  Done (clock (ticks s))
       (mkSimState (mem s) (generation s) (stats s)
                   (current_gen_creatures s) (S (ticks s))).

(** Reading and assigning [self.generation]. *)
Definition get_generation : M (SimState F G) Z := fun s =>
  Done (generation s) s.

Definition set_generation (g : Z) : M (SimState F G) unit := fun s =>
  Done tt (mkSimState (mem s) g (stats s) (current_gen_creatures s)
                      (ticks s)).

Definition set_current_gen_creatures (l : list nat)
    : M (SimState F G) unit := fun s =>
  Done tt (mkSimState (mem s) (generation s) (stats s) l (ticks s)).

Definition append_stats (st : GenerationStats F) : M (SimState F G) unit :=
  fun s =>
  Done tt (mkSimState (mem s) (generation s) (stats s ++ [st])
                      (current_gen_creatures s) (ticks s)).

(** [Simulation(...)]: the world is built from the constructor
    arguments, and [self.rng] is the world's generator. *)
Definition Simulation_init (self : Simulation F) (os_entropy : Z)
    : SimState F G :=
  mkSimState
    (mkMem ∅ (World_init (world_width self) (world_height self)
                         (seed self) os_entropy))
    0 [] [] 0.

(** A new object on the heap. *)
Definition alloc (c : Creature F) : M (Mem F G) nat := fun m =>
  let id := fresh (dom (heap m)) in
  Done id (mkMem (<[id := c]> (heap m)) (world m)).

Definition _apply_radiation (self : Simulation F) (creatures : list nat)
    (step : Z) : M (Mem F G) unit :=
  w ← get_world;
  let W := width w in
  let west_active := step <? steps_per_gen self / 2 in
  for_each creatures (fun id =>
    c ← deref id;
    if negb (alive c) then mret tt
    else
      let dist := if west_active then x c else W - 1 - x c in
      let dose_per_step :=
        fmul (fexp (fmul (fneg RADIO_FALLOFF) (of_int dist)))
             (flit 1 100) in
      assign id (fun c =>
        set_radiation_dose (fadd (radiation_dose c) dose_per_step) c) ;;
      c ← deref id;
      if fgtb (radiation_dose c) RADIO_MAX_DOSE then
        assign id (set_alive false) ;;
        remove_creature id
      else mret tt).

(** The position test of [_select] for a live creature. *)
Definition selected (self : Simulation F) (W H : Z) (c : Creature F)
    : bool :=
  let mode := selection_mode self in
  if String.eqb mode "east" then W / 2 <=? x c
  else if String.eqb mode "west" then x c <? W / 2
  else if String.eqb mode "west_east" then
    (x c <? STRIP_WIDTH) || (W - STRIP_WIDTH <=? x c)
  else if String.eqb mode "corners" then
    ((x c <? CORNER_SIZE) || (W - CORNER_SIZE <=? x c))
    && ((y c <? CORNER_SIZE) || (H - CORNER_SIZE <=? y c))
  else if String.eqb mode "center" then
    let cx := W / 2 in
    let cy := H / 2 in
    (x c - cx) ^ 2 + (y c - cy) ^ 2 <=? CENTER_RADIUS ^ 2
  else if String.eqb mode "radioactive" then true
  else true.

Definition _select (self : Simulation F) (creatures : list nat)
    : M (Mem F G) (list nat) :=
  w ← get_world;
  for_fold creatures [] (fun survivors id =>
    c ← deref id;
    if negb (alive c) then mret survivors
    else if selected self (width w) (height w) c
         then mret (survivors ++ [id])
         else mret survivors).

(** The pair loops of [_genetic_diversity] over the sampled genomes;
    returns [(total, count)]. *)
Fixpoint diversity_pairs (sampled : list (list Z)) (total : F) (count : Z)
    : F * Z :=
  match sampled with
  | [] => (total, count)
  | gi :: rest =>
      let '(total, count) :=
        fold_left (fun (tc : F * Z) gj =>
                     let sim := genome_similarity gi gj in
                     (fadd (fst tc) (fsub (of_int 1) sim), snd tc + 1))
                  rest (total, count) in
      diversity_pairs rest total count
  end.

Definition _genetic_diversity (creatures : list nat) (sample : Z)
    : M (Mem F G) F :=
  let n := Z.of_nat (length creatures) in
  if n <? 2 then mret (of_int 0)
  else
    let sample_size := Z.min sample n in
    idx ← draw (rng_choice n sample_size);
    sampled ← lift_result (mapM (getitem creatures) idx);
    genomes ← mapM (fun id => c ← deref id; mret (genome c)) sampled;
    let '(total, count) := diversity_pairs genomes (of_int 0) 0 in
    mret (if count =? 0 then of_int 0 else fdiv total (of_int count)).

Definition count_alive (creatures : list nat) : M (Mem F G) Z :=
  for_fold creatures 0 (fun (n : Z) id =>
    c ← deref id;
    mret (if alive c then n + 1 else n)).

Definition _compute_stats (creatures survivors : list nat)
    : M (SimState F G) (GenerationStats F) :=
  let n_pop := Z.of_nat (length creatures) in
  let n_survivors := Z.of_nat (length survivors) in
  n_alive ← on_mem (count_alive creatures);
  w ← on_mem get_world;
  let n_murdered := murder_count w in
  diversity ← on_mem (_genetic_diversity survivors 50);
  generation ← get_generation;
  mret (mkStats generation n_pop n_survivors n_alive
                (fdiv (fmul (of_int 100) (of_int n_survivors))
                      (of_int (Z.max 1 n_pop)))
                n_murdered diversity None).

(** One iteration of the step loop of [_run_one_generation]. *)
Definition run_step (self : Simulation F) (creatures : list nat)
    (step_idx : Z) : M (Mem F G) unit :=
  (if String.eqb (selection_mode self) "radioactive"
   then _apply_radiation self creatures step_idx
   else mret tt) ;;
  order ← draw (rng_permutation (Z.of_nat (length creatures)));
  for_each order (fun idx =>
    id ← lift_result (getitem creatures idx);
    c ← deref id;
    if alive c then step KILL_ENABLED id step_idx else mret tt).

Definition _run_one_generation (self : Simulation F)
    (genomes : list (list Z))
    : M (SimState F G) (list nat * GenerationStats F) :=
  creatures ← on_mem (mapM (fun genome => alloc (Creature_init 0 0 genome))
                           genomes);
  set_current_gen_creatures creatures ;;
  on_mem (populate creatures) ;;
  on_mem (modify_world (set_murder_count 0)) ;;
  on_mem (for_each (py_range 0 (steps_per_gen self))
                   (run_step self creatures)) ;;
  survivors ← on_mem (_select self creatures);
  stats ← _compute_stats creatures survivors;
  mret (survivors, stats).

(** [[random_genome(self.genome_size, self.rng)
      for _ in range(self.population)]] *)
Definition random_genomes (self : Simulation F)
    : M (Mem F G) (list (list Z)) :=
  mapM (fun _ => random_genome (genome_size self))
       (py_range 0 (population self)).

(** The [while len(new_genomes) < self.population] loop.  Every
    iteration appends one genome, so [population] iterations are the
    most it can make; [fuel] counts them down. *)
Fixpoint reproduce_loop (fuel : nat) (self : Simulation F)
    (survivors : list nat) (new_genomes : list (list Z))
    : M (Mem F G) (list (list Z)) :=
  match fuel with
  | O => mret new_genomes
  | S fuel' =>
      if Z.of_nat (length new_genomes) <? population self then
        let n := Z.of_nat (length survivors) in
        ia ← draw (rng_integers 0 n);
        pa ← lift_result (getitem survivors ia);
        ib ← draw (rng_integers 0 n);
        pb ← lift_result (getitem survivors ib);
        ca ← deref pa;
        cb ← deref pb;
        child_genome ← crossover (genome ca) (genome cb);
        child_genome ← mutate_genome child_genome (mutation_rate self);
        reproduce_loop fuel' self survivors (new_genomes ++ [child_genome])
      else mret new_genomes
  end.

Definition _reproduce (self : Simulation F) (survivors : list nat)
    : M (Mem F G) (list (list Z)) :=
  match survivors with
  | [] => random_genomes self
  | _ =>
      new_genomes ← reproduce_loop (Z.to_nat (population self)) self
                                   survivors [];
      mret (slice_to new_genomes (population self))
  end.

(** The generation loop of [_run_all_generations] over the remaining
    generation indices; leaving the recursion is the [break]. *)
Fixpoint generations_loop (self : Simulation F) (gen_idxs : list Z)
    (genomes : list (list Z)) : M (SimState F G) unit :=
  match gen_idxs with
  | [] => mret tt
  | gen_idx :: rest =>
      set_generation gen_idx ;;
      t0 ← time_time;
      r ← _run_one_generation self genomes;
      let '(survivors, stats) := r in
      t1 ← time_time;
      let elapsed := fsub t1 t0 in
      let stats := set_elapsed_s (fround 3 elapsed) stats in
      append_stats stats ;;
      match survivors with
      | [] => mret tt
      | _ =>
          genomes ← on_mem (_reproduce self survivors);
          generations_loop self rest genomes
      end
  end.

Definition _run_all_generations (self : Simulation F)
    (initial_genomes : list (list Z)) : M (SimState F G) unit :=
  generations_loop self (py_range 0 (max_generations self))
                   initial_genomes.

Definition run (self : Simulation F) : M (SimState F G) unit :=
  genomes ← on_mem (random_genomes self);
  _run_all_generations self genomes.

End SimulationDefs.

(** ** Specification vocabulary *)

(** The useful internal neurons of a connection list, as the design
    describes them: an internal neuron is useful when it feeds an action
    directly, or feeds a useful internal neuron. *)
Inductive Useful {F} (connections : list (Connection F)) : Z -> Prop :=
| Useful_direct (c : Connection F) :
    c ∈ connections -> source_type c = 1 -> sink_type c = 1 ->
    Useful connections (source_id c)
| Useful_via (c : Connection F) :
    c ∈ connections -> source_type c = 1 -> sink_type c = 0 ->
    Useful connections (sink_id c) ->
    Useful connections (source_id c).

(** Vocabulary for the analysis of the [useful] loop. *)
Section PruningVocabulary.
Context {F : Type}.

(** The test under which a visit adds [source_id c] to the set. *)
Definition adds (u : gset Z) (c : Connection F) : bool :=
  ((sink_type c =? 1)
   || ((sink_type c =? 0) && bool_decide (sink_id c ∈ u)))
  && (source_type c =? 1) && negb (bool_decide (source_id c ∈ u)).

(** Source ids occurring in a connection list. *)
Definition srcs (l : list (Connection F)) : gset Z :=
  list_to_set (source_id <$> l).

(** No connection of [l] would add to [u]: a pass leaves it alone. *)
Definition closed (l : list (Connection F)) (u : gset Z) : Prop :=
  forall c, c ∈ l -> adds u c = false.

End PruningVocabulary.

(** Vocabulary for the forward pass. *)
Section ForwardVocabulary.
Context {F : Type}.

(** A connection whose kinds are bits and whose ids index the pools of
    the sizes given; every decoded gene is one. *)
Definition wf_connection (n_sens n_int n_act : Z) (c : Connection F)
    : Prop :=
  (source_type c = 0 /\ 0 <= source_id c < n_sens \/
   source_type c = 1 /\ 0 <= source_id c < n_int) /\
  (sink_type c = 0 /\ 0 <= sink_id c < n_int \/
   sink_type c = 1 /\ 0 <= sink_id c < n_act).

(** Two vectors of the same length that hold the same value at every
    index in [u]. *)
Definition agree_on (u : gset Z) (l1 l2 : list F) : Prop :=
  length l1 = length l2 /\
  forall k : nat, Z.of_nat k ∈ u -> l1 !! k = l2 !! k.

End ForwardVocabulary.

(** Vocabulary for the grid. *)
Section GridVocabulary.
Context {F G : Type} `{FloatOps F} `{RngOps G F}.

(** The reference held by the cell in column [cx] of row [cy], if the
    cell exists and is occupied. *)
Definition cell_at (grid : list (list (option nat))) (cx cy : nat)
    : option nat :=
  match grid !! cy with
  | Some row => match row !! cx with
                | Some v => v
                | None => None
                end
  | None => None
  end.

(** Every cell that references a creature is the cell at the position
    the creature stores. *)
Definition grid_consistent (m : Mem F G) : Prop :=
  forall (cx cy id : nat),
    cell_at (_grid (world m)) cx cy = Some id ->
    exists c, heap m !! id = Some c /\
              x c = Z.of_nat cx /\ y c = Z.of_nat cy.

(** Two distinct creatures referenced by the grid do not store the same
    position. *)
Definition no_shared_cell (m : Mem F G) : Prop :=
  forall (cx1 cy1 cx2 cy2 a b : nat) (ca cb : Creature F),
    cell_at (_grid (world m)) cx1 cy1 = Some a ->
    cell_at (_grid (world m)) cx2 cy2 = Some b ->
    a <> b ->
    heap m !! a = Some ca -> heap m !! b = Some cb ->
    (x ca, y ca) <> (x cb, y cb).

(** The grid has [height] rows of [width] cells. *)
Definition grid_shape (m : Mem F G) : Prop :=
  length (_grid (world m)) = Z.to_nat (height (world m)) /\
  Forall (fun row => length row = Z.to_nat (width (world m)))
         (_grid (world m)).

(** The creature [id] is on the grid: the cell at its stored position
    references it. *)
Definition placed (m : Mem F G) (id : nat) : Prop :=
  exists c, heap m !! id = Some c /\
            0 <= x c /\ 0 <= y c /\
            cell_at (_grid (world m)) (Z.to_nat (x c)) (Z.to_nat (y c))
            = Some id.

Inductive WorldOp :=
| Place (creature : nat)
| Move (creature : nat) (dx dy : Z)
| Remove (creature : nat).

Definition state_of {S A} (o : outcome S A) : S :=
  match o with
  | Done _ s => s
  | Raised _ s => s
  end.

Definition exec_op (op : WorldOp) : M (Mem F G) unit :=
  match op with
  | Place creature => place_creature creature ;; mret tt
  | Move creature dx dy => move_creature creature dx dy ;; mret tt
  | Remove creature => remove_creature creature
  end.

(** The state after a sequence of calls, each started in the state the
    previous one left, whether it returned or raised. *)
Definition run_ops (ops : list WorldOp) (m : Mem F G) : Mem F G :=
  fold_left (fun m op => state_of (exec_op op m)) ops m.

(** The clamped target of a move. *)
Definition clamped_target (w : World G) (c : Creature F) (dx dy : Z)
    : Z * Z :=
  (Z.max 0 (Z.min (width w - 1) (x c + dx)),
   Z.max 0 (Z.min (height w - 1) (y c + dy))).

End GridVocabulary.

(** The creature after a successful move to [(nx, ny)] asked with
    displacement [(dx, dy)]: position assigned, heading set to the
    direction with the signs of the displacement. *)
Definition moved_creature {F} (nx ny dx dy : Z) (c : Creature F)
    : Creature F :=
  let c := set_pos nx ny c in
  if negb (dx =? 0) || negb (dy =? 0) then
    match find_dir DIRS 0 (sign dx) (sign dy) with
    | Some i => set_last_dir i c
    | None => c
    end
  else c.

(** A two-by-two world over the reals with one creature, object 0, placed
    in the north-west corner cell [(0, 0)]. *)
Definition corner_world : Mem R Z :=
  mkMem {[ 0%nat := Creature_init 0 0 [] ]}
        (set_grid [[Some 0%nat; None]; [None; None]]
                  (World_init 2 2 (Some 42) 0)).

(** Vocabulary for whole runs. *)
Section RunVocabulary.
Context {F G : Type}.

(** The statistics of a generation without the elapsed wall-clock time:
    generation index, population, survivors, alive, survival percentage,
    murders and diversity. *)
Definition core_stats (st : GenerationStats F) : Z * Z * Z * Z * F * Z * F :=
  (stat_generation st, stat_population st, stat_survivors st,
   stat_alive st, stat_survival_pct st, stat_murdered st,
   stat_diversity st).

(** Two simulation states that hold the same objects (creatures, world,
    generator), the same generation counter and creature list, and
    statistics that differ at most in the elapsed times; the numbers of
    clock readings are not compared. *)
Definition same_run (s1 s2 : SimState F G) : Prop :=
  mem s1 = mem s2 /\
  generation s1 = generation s2 /\
  current_gen_creatures s1 = current_gen_creatures s2 /\
  map core_stats (stats s1) = map core_stats (stats s2).

Definition same_outcome {A} (o1 o2 : outcome (SimState F G) A) : Prop :=
  match o1, o2 with
  | Done a1 s1, Done a2 s2 => a1 = a2 /\ same_run s1 s2
  | Raised e1 s1, Raised e2 s2 => e1 = e2 /\ same_run s1 s2
  | _, _ => False
  end.

(** Code whose result and effect do not depend on what [same_run]
    ignores. *)
Definition respects {A} (c : M (SimState F G) A) : Prop :=
  forall s1 s2, same_run s1 s2 -> same_outcome (c s1) (c s2).

End RunVocabulary.

(** ** Concrete scenarios *)

(** Readings of the wall clock used in examples: one second per
    reading. *)
Definition wall_clock : nat -> R := INR.

(** The end-to-end scenario of the specification: seed 42, population
    50, genome length 8, 5 generations of 20 steps, mode ["east"], on the
    default grid with the default mutation rate. *)
Definition east_scenario : Simulation R :=
  mkSimulation 50 5 20 8 (1 / 1000)%R "east" 128 128 (Some 42).

(** A selection predicate that admits no agent: mode ["west"] on a world
    one cell wide keeps the creatures with [x < 0].  One creature, three
    generations asked for, no simulation steps. *)
Definition extinct_scenario : Simulation R :=
  mkSimulation 1 3 0 2 (1 / 1000)%R "west" 1 1 (Some 42).


(** Vocabulary for the further properties. *)

(** A gene as the engine stores it: a signed 32-bit integer. *)
Definition int32 (g : Z) : Prop := - 2 ^ 31 <= g < 2 ^ 31.

(** Everything in the memory but the state of the generator: code that
    only draws random numbers leaves this unchanged. *)
Definition forget_rng {F G} (m : Mem F G) :=
  (heap m, width (world m), height (world m), _grid (world m),
   creatures (world m), murder_count (world m)).

(** The reinterpretation of an unsigned 32-bit pattern as a signed
    integer at the end of [mutate_genome]:
    [if gene >= 0x80000000: gene -= 0x100000000]. *)
Definition wrap_int32 (u : Z) : Z :=
  if 0x80000000 <=? u then u - 0x100000000 else u.

(** A two-by-two world over the reals whose grid is empty; object 0 is a
    creature with stored position [(1, 1)] that is not on the grid. *)
Definition fresh_world : Mem R Z :=
  mkMem {[ 0%nat := Creature_init 1 1 [] ]} (World_init 2 2 (Some 42) 0).

(** A two-by-two world over the reals with two creatures on the top row:
    object 0 at [(0, 0)] and object 1 at [(1, 0)]. *)
Definition duel_world : Mem R Z :=
  mkMem {[ 0%nat := Creature_init 0 0 []; 1%nat := Creature_init 1 0 [] ]}
        (set_grid [[Some 0%nat; Some 1%nat]; [None; None]]
                  (World_init 2 2 (Some 42) 0)).

(** A world of a single cell over the reals, holding object 0. *)
Definition cell_world : Mem R Z :=
  mkMem {[ 0%nat := Creature_init 0 0 [] ]}
        (set_grid [[Some 0%nat]] (World_init 1 1 (Some 42) 0)).

(** The test [_select] applies to the creature behind a reference: it is
    alive and its position passes the test of the selection mode. *)
Definition survives {F G} (self : Simulation F) (m : Mem F G) (W H : Z)
    (id : nat) : bool :=
  match heap m !! id with
  | Some c => alive c && selected self W H c
  | None => false
  end.

(** Every creature the grid references is alive. *)
Definition grid_alive {F G} (m : Mem F G) : Prop :=
  forall (cx cy id : nat),
    cell_at (_grid (world m)) cx cy = Some id ->
    exists c, heap m !! id = Some c /\ alive c = true.

(** From [m] to [m'] the world keeps its dimensions, and every creature
    is still there, at the position it stored, with the genome it had,
    and is alive only if it was alive. *)
Definition no_revival {F G} (m m' : Mem F G) : Prop :=
  width (world m') = width (world m) /\
  height (world m') = height (world m) /\
  forall (id : nat) (c : Creature F),
    heap m !! id = Some c ->
    exists c', heap m' !! id = Some c' /\
               x c' = x c /\ y c' = y c /\ genome c' = genome c /\
               (alive c' = true -> alive c = true).

(** The creature behind a reference is alive. *)
Definition is_alive {F G} (m : Mem F G) (id : nat) : bool :=
  match heap m !! id with
  | Some c => alive c
  | None => false
  end.

(** The state [m] of a placement that started from [m0]: the creatures
    [done] are on the grid, at the cells [used] and nowhere else, and
    every other object is as it was. *)
Definition populated {F G} (m0 m : Mem F G) (done : list nat)
    (used : list (Z * Z)) : Prop :=
  grid_shape m /\
  width (world m) = width (world m0) /\
  height (world m) = height (world m0) /\
  grid_consistent m /\
  (forall (cx cy id : nat),
     cell_at (_grid (world m)) cx cy = Some id ->
     id ∈ done /\ (Z.of_nat cx, Z.of_nat cy) ∈ used) /\
  (forall id, id ∈ done -> placed m id) /\
  (forall id, id ∉ done -> heap m !! id = heap m0 !! id).

(** The state in which creatures take their steps: the grid is well
    shaped and consistent, and every creature has a heading that indexes
    [DIRS], the brain built from its genome and, while it is alive, its
    place on the grid. *)
Definition world_ok {F G} `{FloatOps F} (m : Mem F G) : Prop :=
  grid_shape m /\ grid_consistent m /\
  forall (id : nat) (c : Creature F),
    heap m !! id = Some c ->
    0 <= last_dir c < 8 /\
    brain c = NeuralNetwork_init (genome c) /\
    (alive c = true -> placed m id).

(** From [m] to [m'] the world keeps its dimensions and every creature
    is still there with the genome it had, alive only if it was alive;
    when [kill] is false, nobody has died and the murder counter is the
    same. *)
Definition step_rel {F G} (kill : bool) (m m' : Mem F G) : Prop :=
  width (world m') = width (world m) /\
  height (world m') = height (world m) /\
  (kill = false -> murder_count (world m') = murder_count (world m)) /\
  forall (id : nat) (c : Creature F),
    heap m !! id = Some c ->
    exists c', heap m' !! id = Some c' /\
               genome c' = genome c /\
               (alive c' = true -> alive c = true) /\
               (kill = false -> alive c' = alive c).

(** The order of the floats.  On IEEE floats [<] is irreflexive and
    transitive, NaN included (every comparison with NaN is false). *)
Definition flt_strict {F} `{FloatOps F} : Prop :=
  (forall a : F, fltb a a = false) /\
  (forall a b c : F, fltb a b = true -> fltb b c = true -> fltb a c = true).

(** A float that takes part in the order, that is any float but NaN:
    what is not below it is at least it. *)
Definition ordinary {F} `{FloatOps F} (b : F) : Prop :=
  forall a c : F, fltb a b = false -> fltb a c = true -> fltb b c = true.

(** * Properties *)

(** ** Gene codec *)

Section BitFields.

Lemma land_shifted_low (hi lo k : Z) :
  0 <= k -> 0 <= lo < 2 ^ k -> Z.land (hi * 2 ^ k) lo = 0.
Proof.
  intros Hk Hlo. apply Z.bits_inj'. intros n Hn.
  rewrite Z.land_spec, Z.bits_0.
  destruct (Z.lt_ge_cases n k) as [Hlt | Hge].
  - rewrite Z.mul_pow2_bits_low by lia. reflexivity.
  - destruct (Z.eq_dec lo 0) as [-> | Hne].
    + rewrite Z.bits_0. apply andb_false_r.
    + rewrite (Z.bits_above_log2 lo n); [apply andb_false_r | lia |].
      apply Z.log2_lt_pow2; [lia |].
      apply Z.lt_le_trans with (2 ^ k); [lia |].
      apply Z.pow_le_mono_r; lia.
Qed.

Lemma lor_shifted_low (hi lo k : Z) :
  0 <= k -> 0 <= lo < 2 ^ k -> Z.lor (hi * 2 ^ k) lo = hi * 2 ^ k + lo.
Proof.
  intros Hk Hlo. symmetry. apply Z.add_nocarry_lor.
  now apply land_shifted_low.
Qed.

Lemma land_mask_small (v n : Z) :
  0 <= n -> 0 <= v < 2 ^ n -> Z.land v (Z.ones n) = v.
Proof.
  intros Hn Hv. rewrite Z.land_ones by assumption.
  now apply Z.mod_small.
Qed.

End BitFields.

(** The packed word is the sum of its shifted fields. *)
Lemma encode_gene_sum (st sid kt kid : Z) (w : R) :
  0 <= st < 2 -> 0 <= sid < 128 -> 0 <= kt < 2 -> 0 <= kid < 128 ->
  let raw := Z.max (-32768) (Z.min 32767 (Rtrunc (w * IZR WEIGHT_DIVISOR))) in
  let raw16 := if raw <? 0 then raw + 0x10000 else raw in
  encode_gene st sid kt kid w
  = st * 2 ^ 31 + sid * 2 ^ 24 + kt * 2 ^ 23 + kid * 2 ^ 16 + raw16.
Proof.
  intros Hst Hsid Hkt Hkid raw raw16.
  assert (Hraw : 0 <= raw16 < 2 ^ 16).
  { subst raw16 raw. destruct (Z.ltb_spec
      (Z.max (-32768) (Z.min 32767 (Rtrunc (w * IZR WEIGHT_DIVISOR)))) 0); lia. }
  unfold encode_gene. cbn [to_int fmul of_int RealFloat].
  fold raw. fold raw16.
  change 0x1 with (Z.ones 1). change 0x7F with (Z.ones 7).
  change 0xFFFF with (Z.ones 16).
  rewrite !land_mask_small by lia.
  rewrite !Z.shiftl_mul_pow2 by lia.
  rewrite (lor_shifted_low st (sid * 2 ^ 24) 31) by lia.
  replace (st * 2 ^ 31 + sid * 2 ^ 24)
    with ((st * 2 ^ 7 + sid) * 2 ^ 24) by lia.
  rewrite (lor_shifted_low _ (kt * 2 ^ 23) 24) by lia.
  replace ((st * 2 ^ 7 + sid) * 2 ^ 24 + kt * 2 ^ 23)
    with (((st * 2 ^ 7 + sid) * 2 + kt) * 2 ^ 23) by lia.
  rewrite (lor_shifted_low _ (kid * 2 ^ 16) 23) by lia.
  replace (((st * 2 ^ 7 + sid) * 2 + kt) * 2 ^ 23 + kid * 2 ^ 16)
    with ((((st * 2 ^ 7 + sid) * 2 + kt) * 2 ^ 7 + kid) * 2 ^ 16) by lia.
  rewrite lor_shifted_low by lia. lia.
Qed.

(** Reading the fields back from such a sum. *)
Lemma unpack_fields (st sid kt kid raw16 : Z) :
  0 <= st < 2 -> 0 <= sid < 128 -> 0 <= kt < 2 -> 0 <= kid < 128 ->
  0 <= raw16 < 2 ^ 16 ->
  let g := st * 2 ^ 31 + sid * 2 ^ 24 + kt * 2 ^ 23 + kid * 2 ^ 16 + raw16 in
  Z.land (Z.shiftr g 31) 0x1 = st /\
  Z.land (Z.shiftr g 24) 0x7F = sid /\
  Z.land (Z.shiftr g 23) 0x1 = kt /\
  Z.land (Z.shiftr g 16) 0x7F = kid /\
  Z.land g 0xFFFF = raw16.
Proof.
  intros Hst Hsid Hkt Hkid Hraw g.
  change 0x1 with (Z.ones 1). change 0x7F with (Z.ones 7).
  change 0xFFFF with (Z.ones 16).
  rewrite !Z.land_ones by lia.
  rewrite !Z.shiftr_div_pow2 by lia.
  subst g.
  change (2 ^ 31) with 2147483648 in *. change (2 ^ 24) with 16777216 in *.
  change (2 ^ 23) with 8388608 in *. change (2 ^ 16) with 65536 in *.
  change (2 ^ 7) with 128. change (2 ^ 1) with 2.
  repeat split; Z.div_mod_to_equations; lia.
Qed.

(** [int(.)] on the reals: truncation moves by less than one and never
    leaves an interval with integer ends. *)
Lemma Rtrunc_close (r : R) : (Rabs (IZR (Rtrunc r) - r) < 1)%R.
Proof.
  unfold Rtrunc. destruct (Rle_dec 0 r).
  - pose proof (Zfloor_bound r). apply Rabs_def1; lra.
  - pose proof (Zceil_bound r). apply Rabs_def1; lra.
Qed.

Lemma Rtrunc_between (a b : Z) (r : R) :
  (IZR a <= r <= IZR b)%R -> a <= Rtrunc r <= b.
Proof.
  intros [Ha Hb]. unfold Rtrunc. destruct (Rle_dec 0 r).
  - split.
    + now apply Zfloor_lub.
    + apply le_IZR. pose proof (Zfloor_bound r). lra.
  - split.
    + apply le_IZR. pose proof (Zceil_bound r). lra.
    + rewrite <- (Zceil_eq b (IZR b)) by lra. now apply Zceil_le.
Qed.

(** The weight read back from an encoded gene is the truncated scaled
    weight divided by the divisor. *)
Lemma decode_encode_fields (st sid kt kid : Z) (w : R) :
  0 <= st < 2 -> 0 <= sid < 128 -> 0 <= kt < 2 -> 0 <= kid < 128 ->
  (-32768 <= w * IZR WEIGHT_DIVISOR <= 32767)%R ->
  decode_gene (encode_gene st sid kt kid w)
  = mkConnection st
      (if st =? 0 then sid mod NUM_SENSORS
       else sid mod Z.max 1 MAX_INTERNAL_NEURONS)
      kt
      (if kt =? 1 then kid mod NUM_ACTIONS
       else kid mod Z.max 1 MAX_INTERNAL_NEURONS)
      (IZR (Rtrunc (w * IZR WEIGHT_DIVISOR)) / IZR WEIGHT_DIVISOR)%R.
Proof.
  intros Hst Hsid Hkt Hkid Hw.
  pose proof (Rtrunc_between (-32768) 32767 _ Hw) as Hraw.
  rewrite encode_gene_sum by assumption.
  set (raw := Rtrunc (w * IZR WEIGHT_DIVISOR)) in *.
  rewrite Z.min_r, Z.max_r by lia.
  set (raw16 := if raw <? 0 then raw + 0x10000 else raw).
  assert (Hraw16 : 0 <= raw16 < 2 ^ 16).
  { subst raw16. destruct (Z.ltb_spec raw 0); lia. }
  destruct (unpack_fields st sid kt kid raw16 Hst Hsid Hkt Hkid Hraw16)
    as (E1 & E2 & E3 & E4 & E5).
  unfold decode_gene. rewrite E1, E2, E3, E4, E5.
  cbn [fdiv of_int RealFloat].
  f_equal. f_equal. f_equal.
  subst raw16. destruct (Z.ltb_spec raw 0), (Z.leb_spec 0x8000 raw);
    destruct (Z.leb_spec 32768 (raw + 65536)); lia.
Qed.

(** C4.  For single-bit kinds, ids that index their pools and a weight
    whose scaled value lies in the signed 16-bit range, decoding an
    encoded gene gives back both kinds and both ids exactly, and a weight
    within one quantization step [1/WEIGHT_DIVISOR] of the original. *)
Theorem decode_encode_roundtrip (st sid kt kid : Z) (w : R) :
  (st = 0 \/ st = 1) ->
  (kt = 0 \/ kt = 1) ->
  0 <= sid < (if st =? 0 then NUM_SENSORS else MAX_INTERNAL_NEURONS) ->
  0 <= kid < (if kt =? 1 then NUM_ACTIONS else MAX_INTERNAL_NEURONS) ->
  (-32768 <= w * IZR WEIGHT_DIVISOR <= 32767)%R ->
  let c := decode_gene (encode_gene st sid kt kid w) in
  source_type c = st /\ source_id c = sid /\
  sink_type c = kt /\ sink_id c = kid /\
  (Rabs (weight c - w) <= 1 / IZR WEIGHT_DIVISOR)%R.
Proof.
  intros Hst Hkt Hsid Hkid Hw c. subst c.
  assert (Hsid' : 0 <= sid < 128).
  { destruct Hst as [-> | ->]; cbn in Hsid; unfold NUM_SENSORS,
      MAX_INTERNAL_NEURONS in Hsid; lia. }
  assert (Hkid' : 0 <= kid < 128).
  { destruct Hkt as [-> | ->]; cbn in Hkid; unfold NUM_ACTIONS,
      MAX_INTERNAL_NEURONS in Hkid; lia. }
  rewrite decode_encode_fields by (assumption || lia).
  cbn [source_type source_id sink_type sink_id weight].
  split; [reflexivity |]. split.
  { destruct Hst as [-> | ->]; cbn in Hsid |- *; apply Z.mod_small;
      unfold NUM_SENSORS, MAX_INTERNAL_NEURONS in *; lia. }
  split; [reflexivity |]. split.
  { destruct Hkt as [-> | ->]; cbn in Hkid |- *; apply Z.mod_small;
      unfold NUM_ACTIONS, MAX_INTERNAL_NEURONS in *; lia. }
  pose proof (Rtrunc_close (w * IZR WEIGHT_DIVISOR)) as Hclose.
  set (raw := IZR (Rtrunc (w * IZR WEIGHT_DIVISOR))) in *.
  unfold WEIGHT_DIVISOR in *.
  replace (raw / 8000 - w)%R with ((raw - w * 8000) / 8000)%R by (field; lra).
  unfold Rdiv at 1. rewrite Rabs_mult.
  rewrite (Rabs_pos_eq (/ 8000)) by lra.
  apply Rabs_def2 in Hclose.
  assert (Rabs (raw - w * 8000) <= 1)%R by (apply Rabs_le; lra).
  lra.
Qed.

Lemma decode_encode_roundtrip_witness :
  let c := decode_gene (encode_gene 1 3 0 2 (1 / 2)%R) in
  source_type c = 1 /\ source_id c = 3 /\
  sink_type c = 0 /\ sink_id c = 2 /\
  (Rabs (weight c - 1 / 2) <= 1 / IZR WEIGHT_DIVISOR)%R.
Proof.
  apply (decode_encode_roundtrip 1 3 0 2 (1 / 2)%R).
  - right; reflexivity.
  - left; reflexivity.
  - cbn; unfold MAX_INTERNAL_NEURONS; lia.
  - cbn; unfold MAX_INTERNAL_NEURONS; lia.
  - unfold WEIGHT_DIVISOR; lra.
Defined.

(** ** Bit similarity *)

Lemma similarity_loop_self (g : list Z) (total_bits matching : Z) :
  similarity_loop (zip g g) total_bits matching
  = (total_bits + 32 * Z.of_nat (length g),
     matching + 32 * Z.of_nat (length g)).
Proof.
  revert total_bits matching.
  induction g as [| a g IH]; intros total_bits matching.
  - cbn. f_equal; lia.
  - cbn [zip zip_with similarity_loop length].
    rewrite Z.lxor_nilpotent. cbn [bin_count_ones].
    rewrite IH. f_equal; lia.
Qed.

Lemma genome_similarity_refl (g : list Z) :
  g <> [] -> genome_similarity (F := R) g g = 1%R.
Proof.
  intros Hne. destruct g as [| a g]; [congruence |].
  unfold genome_similarity. rewrite similarity_loop_self.
  cbn [length].
  destruct (Z.eqb_spec (0 + 32 * Z.of_nat (S (length g))) 0) as [E | E];
    [lia |].
  cbn [fdiv of_int RealFloat].
  apply Rinv_r. apply not_0_IZR. exact E.
Qed.

(** C10.  A non-empty genome is at similarity exactly 1 from itself, so
    the genetic-similarity reading [genetic_sim_to] taken by a creature
    facing a creature with the same genome (an exact clone) is 1. *)
Theorem genome_similarity_self {G} (g : list Z) :
  g <> [] ->
  genome_similarity (F := R) g g = 1%R /\
  forall (m : Mem R G) (self other : nat) (c co : Creature R),
    heap m !! self = Some c -> heap m !! other = Some co ->
    genome c = g -> genome co = g ->
    genetic_sim_to (F := R) self (Some other) m = Done 1%R m.
Proof.
  intros Hne. split; [now apply genome_similarity_refl |].
  intros m self other c co Hc Hco Eg Ego.
  unfold genetic_sim_to, mbind, M_bind, deref.
  rewrite Hc, Hco, Eg, Ego, genome_similarity_refl by assumption.
  reflexivity.
Qed.

Lemma genome_similarity_self_witness :
  genome_similarity (F := R) [5; -7; 123456789] [5; -7; 123456789] = 1%R /\
  forall (m : Mem R Z) (self other : nat) (c co : Creature R),
    heap m !! self = Some c -> heap m !! other = Some co ->
    genome c = [5; -7; 123456789] -> genome co = [5; -7; 123456789] ->
    genetic_sim_to (F := R) self (Some other) m = Done 1%R m.
Proof.
  apply (genome_similarity_self [5; -7; 123456789]). discriminate.
Defined.

(** ** Pruning *)

Section Pruning.
Context {F : Type} `{FloatOps F}.
Implicit Types (c : Connection F) (u : gset Z) (l : list (Connection F)).

Lemma useful_visit_eq u (b : bool) c :
  useful_visit (u, b) c
  = if adds u c then ({[source_id c]} ∪ u, true) else (u, b).
Proof.
  unfold useful_visit, adds.
  destruct (sink_type c =? 1) eqn:E1; cbn.
  - destruct (source_type c =? 1), (bool_decide (source_id c ∈ u));
      reflexivity.
  - destruct (sink_type c =? 0), (bool_decide (sink_id c ∈ u)); cbn;
      reflexivity.
Qed.

Lemma adds_true u c :
  adds u c = true <->
  source_type c = 1 /\ (source_id c ∉ u) /\
  (sink_type c = 1 \/ (sink_type c = 0 /\ sink_id c ∈ u)).
Proof.
  unfold adds.
  rewrite !andb_true_iff, orb_true_iff, andb_true_iff, negb_true_iff,
    bool_decide_eq_false, bool_decide_eq_true, !Z.eqb_eq.
  tauto.
Qed.

Lemma srcs_size l : (size (srcs l) <= length l)%nat.
Proof.
  unfold srcs. induction l as [| c l IH]; cbn.
  - rewrite size_empty. lia.
  - destruct (decide (source_id c ∈ (list_to_set (source_id <$> l) : gset Z)))
      as [Hin | Hout].
    + replace ({[source_id c]} ∪ list_to_set (source_id <$> l))
        with (list_to_set (source_id <$> l) : gset Z) by set_solver.
      lia.
    + rewrite size_union by set_solver. rewrite size_singleton. lia.
Qed.

Lemma useful_pass_spec (conns l : list (Connection F)) u (b : bool) u' b' :
  (forall c, c ∈ l -> c ∈ conns) ->
  fold_left useful_visit l (u, b) = (u', b') ->
  u ⊆ u' /\ u' ⊆ u ∪ srcs l /\
  ((forall i, i ∈ u -> Useful conns i) -> forall i, i ∈ u' -> Useful conns i) /\
  (b' = false -> b = false /\ u' = u /\ closed l u) /\
  (b' = true -> b = true \/ u ⊂ u').
Proof.
  revert u b. induction l as [| c l IH]; intros u b Hsub Hfold.
  - cbn in Hfold. injection Hfold as <- <-.
    split_and!; set_solver.
  - cbn [fold_left] in Hfold. rewrite useful_visit_eq in Hfold.
    assert (Hsub' : forall c0, c0 ∈ l -> c0 ∈ conns)
      by (intros; apply Hsub; now right).
    assert (Hc : c ∈ conns) by (apply Hsub; now left).
    destruct (adds u c) eqn:Ea.
    + destruct (IH _ _ Hsub' Hfold) as (I1 & I2 & I3 & I4 & I5).
      apply adds_true in Ea. destruct Ea as (Es & Hnot & Hsink).
      split_and!.
      * set_solver.
      * clear - I2. unfold srcs in *. cbn. set_solver.
      * intros Hu. apply I3. intros i Hi.
        apply elem_of_union in Hi. destruct Hi as [Hi | Hi]; [| now apply Hu].
        apply elem_of_singleton in Hi. subst i.
        destruct Hsink as [E1 | [E0 Hin]].
        -- now apply Useful_direct.
        -- apply Useful_via; auto.
      * intros Hb. destruct (I4 Hb) as [? _]. discriminate.
      * intros _. right. split; [set_solver |].
        intros Hback. apply Hnot. apply Hback. apply I1. set_solver.
    + destruct (IH _ _ Hsub' Hfold) as (I1 & I2 & I3 & I4 & I5).
      split_and!; try tauto.
      * clear - I2. unfold srcs in *. cbn. set_solver.
      * intros Hb. destruct (I4 Hb) as (Eb & Eu & Hcl).
        split_and!; try assumption.
        intros c0 Hc0. apply elem_of_cons in Hc0.
        destruct Hc0 as [-> | Hc0]; [assumption | now apply Hcl].
Qed.

Lemma useful_loop_spec (conns : list (Connection F)) (fuel : nat) u :
  u ⊆ srcs conns ->
  (size (srcs conns) - size u < fuel)%nat ->
  (forall i, i ∈ u -> Useful conns i) ->
  exists u', useful_loop fuel conns u = Some u' /\
             (forall i, i ∈ u' -> Useful conns i) /\ closed conns u'.
Proof.
  revert u. induction fuel as [| fuel IH]; intros u Hsub Hfuel Hsound;
    [lia |].
  cbn [useful_loop]. unfold useful_pass.
  destruct (fold_left useful_visit conns (u, false)) as [u1 b1] eqn:Ep.
  destruct (useful_pass_spec conns conns u false u1 b1 (fun _ h => h) Ep)
    as (I1 & I2 & I3 & I4 & I5).
  destruct b1.
  - destruct (I5 eq_refl) as [? | Hstrict]; [discriminate |].
    apply IH; [set_solver | | now apply I3].
    pose proof (subset_size _ _ Hstrict).
    assert (size u1 <= size (srcs conns))%nat
      by (apply subseteq_size; set_solver).
    lia.
  - destruct (I4 eq_refl) as (_ & -> & Hcl).
    exists u. auto.
Qed.

Lemma closed_complete (conns : list (Connection F)) u :
  closed conns u -> forall i, Useful conns i -> i ∈ u.
Proof.
  intros Hcl i Hu. induction Hu as [c Hc Es Ek | c Hc Es Ek Hu IH].
  - specialize (Hcl c Hc). destruct (decide (source_id c ∈ u)); [assumption |].
    assert (adds u c = true) by (apply adds_true; auto). congruence.
  - specialize (Hcl c Hc). destruct (decide (source_id c ∈ u)); [assumption |].
    assert (adds u c = true) by (apply adds_true; auto). congruence.
Qed.

(** The [while changed] loop stops within one pass per connection plus
    one, and what it returns is exactly the set of useful neurons. *)
Lemma useful_loop_terminates (conns : list (Connection F)) :
  useful_loop (S (length conns)) conns ∅ = Some (useful_set conns) /\
  forall i, i ∈ useful_set conns <-> Useful conns i.
Proof.
  destruct (useful_loop_spec conns (S (length conns)) ∅)
    as (u & Hloop & Hsound & Hcl).
  - set_solver.
  - pose proof (srcs_size conns). rewrite size_empty. lia.
  - set_solver.
  - unfold useful_set. rewrite Hloop. cbn. split; [reflexivity |].
    intros i. split; [apply Hsound | now apply closed_complete].
Qed.

Lemma keep_connection_true (conns : list (Connection F)) c :
  keep_connection (useful_set conns) c = true <->
  sink_type c = 1 \/ sink_id c ∈ useful_set conns.
Proof.
  unfold keep_connection. destruct (Z.eqb_spec (sink_type c) 1).
  - tauto.
  - rewrite bool_decide_eq_true. tauto.
Qed.

Lemma prune_dead_ends_filter (conns : list (Connection F)) :
  _prune_dead_ends conns
  = filter (fun c => sink_type c = 1 \/ sink_id c ∈ useful_set conns) conns.
Proof.
  unfold _prune_dead_ends. apply list_filter_iff.
  intros c. apply keep_connection_true.
Qed.

Lemma prune_dead_ends_member (conns : list (Connection F)) c :
  c ∈ _prune_dead_ends conns <->
  c ∈ conns /\ (sink_type c = 1 \/ Useful conns (sink_id c)).
Proof.
  rewrite prune_dead_ends_filter, list_elem_of_filter.
  rewrite (proj2 (useful_loop_terminates conns)). tauto.
Qed.

Lemma useful_set_no_action (conns : list (Connection F)) :
  Forall (fun c => sink_type c = 0) conns -> useful_set conns = ∅.
Proof.
  intros Hall. apply set_eq. intros i.
  rewrite (proj2 (useful_loop_terminates conns)). split; [| set_solver].
  intros Hu. exfalso. rewrite Forall_forall in Hall.
  induction Hu as [c Hc Es Ek | c Hc Es Ek Hu IH]; [| assumption].
  specialize (Hall c Hc). lia.
Qed.

End Pruning.

(** C5.  A genome whose decoded genes all sink into internal neurons has
    an empty pruned connection list at brain construction.  In general
    pruning keeps, in order, exactly the connections whose sink is an
    action or whose sink id is a useful internal neuron, the useful
    neurons being those that feed an action directly or through other
    useful neurons; the loop computing them terminates. *)
Theorem prune_dead_ends_spec {F} `{FloatOps F} (genome : list Z)
    (connections : list (Connection F)) :
  (Forall (fun g => sink_type (decode_gene (F := F) g) = 0) genome ->
   _connections (NeuralNetwork_init (F := F) genome) = []) /\
  useful_loop (S (length connections)) connections ∅
    = Some (useful_set connections) /\
  (forall i, i ∈ useful_set connections <-> Useful connections i) /\
  _prune_dead_ends connections
    = filter (fun c => sink_type c = 1 \/ sink_id c ∈ useful_set connections)
             connections /\
  (forall c, c ∈ _prune_dead_ends connections <->
             c ∈ connections /\
             (sink_type c = 1 \/ Useful connections (sink_id c))).
Proof.
  pose proof (useful_loop_terminates connections) as [Hloop Hiff].
  pose proof (prune_dead_ends_filter connections) as Hfilter.
  split; [| split; [exact Hloop | split; [exact Hiff | split; [exact Hfilter |]]]].
  - intros Hall. cbn [NeuralNetwork_init _connections].
    unfold _prune_dead_ends.
    assert (Hall' : Forall (fun c : Connection F => sink_type c = 0)
                           (_parse_genome genome)).
    { unfold _parse_genome. apply Forall_forall.
      intros c Hc. apply list_elem_of_In, in_map_iff in Hc.
      destruct Hc as (g & <- & Hg).
      rewrite Forall_forall in Hall. apply Hall. now apply list_elem_of_In. }
    rewrite useful_set_no_action by assumption.
    induction Hall' as [| c l Hc Hl IH]; [reflexivity |].
    rewrite filter_cons_False; [exact IH |].
    unfold keep_connection. rewrite Hc. cbn.
    rewrite bool_decide_eq_true. set_solver.
  - intros c. apply prune_dead_ends_member.
Qed.

Lemma prune_dead_ends_spec_witness :
  _connections (NeuralNetwork_init (F := R) [0x01020304; 0x81000010]) = [].
Proof.
  apply (proj1 (prune_dead_ends_spec (F := R) [0x01020304; 0x81000010] [])).
  repeat constructor.
Defined.

(** ** Forward pass *)

Section Indexing.
Context {A : Type}.

Lemma py_index_nonneg (len : nat) (i : Z) :
  0 <= i < Z.of_nat len -> py_index len i = Some (Z.to_nat i).
Proof.
  intros Hi. unfold py_index.
  destruct (Z.leb_spec 0 i); [| lia].
  destruct (Z.ltb_spec i (Z.of_nat len)); [| lia]. reflexivity.
Qed.

Lemma getitem_nonneg (l : list A) (i : Z) :
  0 <= i < Z.of_nat (length l) ->
  exists a, l !! Z.to_nat i = Some a /\ getitem l i = Ok a.
Proof.
  intros Hi. unfold getitem. rewrite py_index_nonneg by assumption.
  destruct (lookup_lt_is_Some_2 l (Z.to_nat i)) as [a Ha]; [lia |].
  exists a. rewrite Ha. auto.
Qed.

Lemma getitem_lookup (l : list A) (i : Z) (a : A) :
  0 <= i -> l !! Z.to_nat i = Some a -> getitem l i = Ok a.
Proof.
  intros Hi Ha. pose proof (lookup_lt_Some _ _ _ Ha).
  unfold getitem. rewrite py_index_nonneg by lia. now rewrite Ha.
Qed.

Lemma setitem_nonneg (l : list A) (i : Z) (a : A) :
  0 <= i < Z.of_nat (length l) ->
  setitem l i a = Ok (<[Z.to_nat i := a]> l).
Proof.
  intros Hi. unfold setitem. now rewrite py_index_nonneg.
Qed.

End Indexing.

Lemma decode_gene_wf {F} `{FloatOps F} (gene : Z) :
  wf_connection NUM_SENSORS MAX_INTERNAL_NEURONS NUM_ACTIONS
                (decode_gene (F := F) gene).
Proof.
  unfold wf_connection, decode_gene.
  cbn [source_type source_id sink_type sink_id].
  assert (Hbit : forall v, Z.land v 0x1 = v mod 2)
    by (intros v; apply (Z.land_ones v 1); lia).
  rewrite !Hbit.
  pose proof (Z.mod_pos_bound (Z.shiftr gene 31) 2 ltac:(lia)) as Hs.
  pose proof (Z.mod_pos_bound (Z.shiftr gene 23) 2 ltac:(lia)) as Hk.
  unfold NUM_SENSORS, MAX_INTERNAL_NEURONS, NUM_ACTIONS.
  change (Z.max 1 4) with 4.
  split.
  - destruct (Z.eqb_spec (Z.shiftr gene 31 mod 2) 0) as [E | E].
    + left. split; [assumption |]. apply Z.mod_pos_bound. lia.
    + right. split; [lia |]. apply Z.mod_pos_bound. lia.
  - destruct (Z.eqb_spec (Z.shiftr gene 23 mod 2) 1) as [E | E].
    + right. split; [assumption |]. apply Z.mod_pos_bound. lia.
    + left. split; [lia |]. apply Z.mod_pos_bound. lia.
Qed.

Section PrunedForward.
Context {F : Type} `{FloatOps F}.
Variables (conns : list (Connection F)) (sensor_inputs : list F).
Variables (n_int n_act : Z).
Hypothesis wf_all :
  Forall (wf_connection (Z.of_nat (length sensor_inputs)) n_int n_act)
         conns.

Local Abbreviation U := (useful_set conns).
Local Abbreviation keep c := (keep_connection U c = true).

Lemma wf_in (c : Connection F) :
  c ∈ conns ->
  wf_connection (Z.of_nat (length sensor_inputs)) n_int n_act c.
Proof. intros Hc. rewrite Forall_forall in wf_all. now apply wf_all. Qed.

Lemma useful_closed : closed conns U.
Proof.
  destruct (useful_loop_spec conns (S (length conns)) ∅)
    as (u & Hloop & _ & Hcl).
  - set_solver.
  - pose proof (srcs_size conns). rewrite size_empty. lia.
  - set_solver.
  - unfold useful_set. now rewrite Hloop.
Qed.

(** Internal sources read by a kept connection are useful. *)
Lemma kept_source_useful (c : Connection F) :
  c ∈ conns -> keep c -> source_type c = 1 -> source_id c ∈ U.
Proof.
  intros Hc Hk Es. pose proof (useful_closed c Hc) as Hcl.
  destruct (decide (source_id c ∈ U)) as [| Hnot]; [assumption |].
  assert (Hadd : adds U c = true); [| congruence].
  apply adds_true. split_and!; try assumption.
  destruct (wf_in c Hc) as [_ [[E0 _] | [E1 _]]]; [| now left].
  right. split; [assumption |].
  unfold keep_connection in Hk. rewrite E0 in Hk. cbn in Hk.
  now apply bool_decide_eq_true in Hk.
Qed.

Lemma source_value_agree (iv1 iv2 : list F) (c : Connection F) :
  c ∈ conns -> keep c ->
  length iv1 = Z.to_nat n_int -> agree_on U iv1 iv2 ->
  exists src, source_value sensor_inputs iv1 c = Ok src /\
              source_value sensor_inputs iv2 c = Ok src.
Proof.
  intros Hc Hk Hlen [Hl Hag]. unfold source_value.
  destruct (wf_in c Hc) as [[[E0 Hr] | [E1 Hr]] _].
  - rewrite E0. cbn. destruct (getitem_nonneg sensor_inputs (source_id c) Hr)
      as (a & _ & ->). eauto.
  - rewrite E1. cbn.
    destruct (getitem_nonneg iv1 (source_id c)) as (a & Ha & ->); [lia |].
    exists a. split; [reflexivity |].
    apply getitem_lookup; [lia |].
    rewrite <- Hag; [assumption |].
    rewrite Z2Nat.id by lia. now apply kept_source_useful.
Qed.

Lemma source_value_ok (iv : list F) (c : Connection F) :
  c ∈ conns -> length iv = Z.to_nat n_int ->
  exists src, source_value sensor_inputs iv c = Ok src.
Proof.
  intros Hc Hlen. unfold source_value.
  destruct (wf_in c Hc) as [[[E0 Hr] | [E1 Hr]] _].
  - rewrite E0. cbn. destruct (getitem_nonneg sensor_inputs (source_id c) Hr)
      as (a & _ & ->). eauto.
  - rewrite E1. cbn.
    destruct (getitem_nonneg iv (source_id c)) as (a & Ha & ->); [lia |].
    eauto.
Qed.

(** The internal accumulation over the full list and over the pruned
    list agree on the useful neurons. *)
Lemma accumulate_internal_agree (l : list (Connection F)) :
  (forall c, c ∈ l -> c ∈ conns) ->
  forall iv1 iv2 acc1 acc2 : list F,
  length iv1 = Z.to_nat n_int -> agree_on U iv1 iv2 ->
  length acc1 = Z.to_nat n_int -> agree_on U acc1 acc2 ->
  exists r1 r2,
    accumulate_all 0 sensor_inputs iv1 l acc1 = Ok r1 /\
    accumulate_all 0 sensor_inputs iv2 (filter (fun c => keep c) l) acc2 = Ok r2 /\
    length r1 = Z.to_nat n_int /\ agree_on U r1 r2.
Proof.
  induction l as [| c l IH]; intros Hsub iv1 iv2 acc1 acc2 Hiv Hag Hacc Hagacc.
  - exists acc1, acc2. cbn. auto.
  - assert (Hc : c ∈ conns) by (apply Hsub; now left).
    assert (Hsub' : forall c0, c0 ∈ l -> c0 ∈ conns)
      by (intros; apply Hsub; now right).
    destruct (wf_in c Hc) as [_ Hsink].
    destruct Hagacc as [Hl2 Hag2].
    cbn [accumulate_all]. unfold accumulate at 1.
    destruct Hsink as [[E0 Hr] | [E1 Hr]].
    + (* internal sink *)
      rewrite E0. cbn [Z.eqb].
      destruct (source_value_ok iv1 c Hc Hiv) as (src1 & Hsrc1).
      rewrite Hsrc1. cbn [mbind result_bind].
      destruct (getitem_nonneg acc1 (sink_id c)) as (old1 & Hold1 & ->);
        [lia |].
      cbn [mbind result_bind]. rewrite setitem_nonneg by lia.
      destruct (decide (keep c)) as [Hk | Hk].
      * rewrite filter_cons_True by assumption.
        cbn [accumulate_all]. unfold accumulate.
        rewrite E0. cbn [Z.eqb].
        destruct (source_value_agree iv1 iv2 c Hc Hk Hiv Hag)
          as (src & Hs1 & Hs2).
        rewrite Hs2. cbn [mbind result_bind].
        assert (src1 = src) by congruence. subst src1.
        assert (Hin : sink_id c ∈ U).
        { unfold keep_connection in Hk. rewrite E0 in Hk. cbn in Hk.
          now apply bool_decide_eq_true in Hk. }
        assert (Hold2 : acc2 !! Z.to_nat (sink_id c) = Some old1).
        { rewrite <- Hag2; [assumption |]. now rewrite Z2Nat.id by lia. }
        rewrite (getitem_lookup acc2 _ old1) by (lia || assumption).
        cbn [mbind result_bind]. rewrite setitem_nonneg by lia.
        apply IH; try assumption.
        -- now rewrite length_insert.
        -- split; [now rewrite !length_insert |].
           intros k Hk'. rewrite !list_lookup_insert.
           rewrite <- Hl2. repeat case_decide; auto.
      * rewrite filter_cons_False by assumption.
        apply IH; try assumption.
        -- now rewrite length_insert.
        -- split; [now rewrite length_insert |].
           intros k Hk'. rewrite list_lookup_insert_ne; [now apply Hag2 |].
           intros <-. apply Hk. unfold keep_connection.
           rewrite E0. cbn. apply bool_decide_eq_true.
           now rewrite Z2Nat.id in Hk' by lia.
    + (* action sink: skipped by this pass, kept by pruning *)
      rewrite E1. cbn [Z.eqb mbind result_bind].
      rewrite filter_cons_True
        by (unfold keep_connection; now rewrite E1).
      cbn [accumulate_all]. unfold accumulate.
      rewrite E1. cbn [Z.eqb mbind result_bind].
      apply IH; try assumption. now split.
Qed.

(** The action accumulation reads only useful neurons and skips no
    connection that pruning removes. *)
Lemma accumulate_action_agree (l : list (Connection F)) :
  (forall c, c ∈ l -> c ∈ conns) ->
  forall iv1 iv2 acc : list F,
  length iv1 = Z.to_nat n_int -> agree_on U iv1 iv2 ->
  length acc = Z.to_nat n_act ->
  exists r,
    accumulate_all 1 sensor_inputs iv1 l acc = Ok r /\
    accumulate_all 1 sensor_inputs iv2 (filter (fun c => keep c) l) acc = Ok r /\
    length r = Z.to_nat n_act.
Proof.
  induction l as [| c l IH]; intros Hsub iv1 iv2 acc Hiv Hag Hacc.
  - exists acc. cbn. auto.
  - assert (Hc : c ∈ conns) by (apply Hsub; now left).
    assert (Hsub' : forall c0, c0 ∈ l -> c0 ∈ conns)
      by (intros; apply Hsub; now right).
    destruct (wf_in c Hc) as [_ Hsink].
    cbn [accumulate_all]. unfold accumulate at 1.
    destruct Hsink as [[E0 Hr] | [E1 Hr]].
    + rewrite E0. cbn [Z.eqb mbind result_bind].
      destruct (decide (keep c)) as [Hk | Hk].
      * rewrite filter_cons_True by assumption.
        cbn [accumulate_all]. unfold accumulate.
        rewrite E0. cbn [Z.eqb mbind result_bind]. now apply IH.
      * rewrite filter_cons_False by assumption. now apply IH.
    + assert (Hk : keep c) by (unfold keep_connection; now rewrite E1).
      rewrite filter_cons_True by assumption.
      cbn [accumulate_all]. unfold accumulate.
      rewrite E1. cbn [Z.eqb].
      destruct (source_value_agree iv1 iv2 c Hc Hk Hiv Hag)
        as (src & -> & ->).
      cbn [mbind result_bind].
      destruct (getitem_nonneg acc (sink_id c)) as (old & Hold & ->);
        [lia |].
      cbn [mbind result_bind]. rewrite setitem_nonneg by lia.
      apply IH; try assumption. now rewrite length_insert.
Qed.

Lemma internal_pass_agree (iv1 iv2 : list F) :
  length iv1 = Z.to_nat n_int -> agree_on U iv1 iv2 ->
  exists r1 r2,
    internal_pass n_int conns sensor_inputs iv1 = Ok r1 /\
    internal_pass n_int (filter (fun c => keep c) conns) sensor_inputs iv2 = Ok r2 /\
    length r1 = Z.to_nat n_int /\ agree_on U r1 r2.
Proof.
  intros Hiv Hag. unfold internal_pass.
  destruct (accumulate_internal_agree conns (fun _ h => h) iv1 iv2
              (np_zeros n_int) (np_zeros n_int))
    as (r1 & r2 & -> & -> & Hl & [Hl2 Hag2]); try assumption.
  - unfold np_zeros. now rewrite length_replicate.
  - now split.
  - exists (map ftanh r1), (map ftanh r2). cbn [mbind result_bind].
    split_and!; try reflexivity.
    + now rewrite length_map.
    + split; [now rewrite !length_map |].
      intros k Hk. change (map ftanh) with (fmap (M := list) ftanh).
      rewrite !list_lookup_fmap. now rewrite Hag2.
Qed.

Lemma forward_connections_pruned :
  exists actions,
    forward_connections n_int n_act conns sensor_inputs = Ok actions /\
    forward_connections n_int n_act (_prune_dead_ends conns) sensor_inputs
      = Ok actions /\
    length actions = Z.to_nat n_act.
Proof.
  unfold forward_connections, _prune_dead_ends.
  assert (Hz : length (np_zeros (F := F) n_int) = Z.to_nat n_int)
    by (unfold np_zeros; now rewrite length_replicate).
  destruct (internal_pass_agree (np_zeros n_int) (np_zeros n_int) Hz)
    as (a1 & a2 & -> & -> & Hl1 & Hag1); [now split |].
  cbn [mbind result_bind].
  destruct (internal_pass_agree a1 a2 Hl1 Hag1)
    as (b1 & b2 & -> & -> & Hl2 & Hag2).
  cbn [mbind result_bind].
  destruct (accumulate_action_agree conns (fun _ h => h) b1 b2
              (np_zeros n_act)) as (r & -> & -> & Hr); try assumption.
  - unfold np_zeros. now rewrite length_replicate.
  - exists (map ftanh r). cbn [mbind result_bind].
    split_and!; try reflexivity. now rewrite length_map.
Qed.

End PrunedForward.

Lemma parse_genome_wf {F} `{FloatOps F} (genome : list Z) :
  Forall (wf_connection NUM_SENSORS MAX_INTERNAL_NEURONS NUM_ACTIONS)
         (_parse_genome (F := F) genome).
Proof.
  unfold _parse_genome. induction genome as [| g genome IH]; cbn.
  - constructor.
  - constructor; [apply decode_gene_wf | exact IH].
Qed.

(** C8.  For every genome and every sensor vector of [NUM_SENSORS]
    readings, the forward pass of the brain (built with pruning) and the
    forward pass over the unpruned connection list of the genome return
    the same action vector; every connection that pruning removes sinks
    into an internal neuron that is not useful. *)
Theorem pruning_preserves_forward {F} `{FloatOps F} (genome : list Z)
    (sensor_inputs : list F) :
  length sensor_inputs = Z.to_nat NUM_SENSORS ->
  (exists actions,
     forward (NeuralNetwork_init genome) sensor_inputs = Ok actions /\
     forward_connections MAX_INTERNAL_NEURONS NUM_ACTIONS
                         (_parse_genome genome) sensor_inputs = Ok actions) /\
  (forall c : Connection F,
     c ∈ _parse_genome genome ->
     c ∉ _connections (NeuralNetwork_init genome) ->
     sink_type c = 0 /\ ~ Useful (_parse_genome genome) (sink_id c)).
Proof.
  intros Hlen. split.
  - unfold forward. cbn [NeuralNetwork_init n_internal n_actions _connections].
    destruct (forward_connections_pruned (_parse_genome genome) sensor_inputs
                MAX_INTERNAL_NEURONS NUM_ACTIONS) as (actions & H1 & H2 & _).
    + rewrite Hlen. apply parse_genome_wf.
    + exists actions. auto.
  - intros c Hc Hnot. cbn [NeuralNetwork_init _connections] in Hnot.
    pose proof (parse_genome_wf (F := F) genome) as Hwf.
    rewrite Forall_forall in Hwf. destruct (Hwf c Hc) as [_ Hsink].
    rewrite prune_dead_ends_member in Hnot.
    destruct Hsink as [[E0 _] | [E1 _]]; [| tauto].
    split; [assumption |]. tauto.
Qed.

Lemma pruning_preserves_forward_witness :
  (exists actions,
     forward (NeuralNetwork_init [0x01020304; 0x81800010; 0x0D811F40])
             (replicate 14 1%R) = Ok actions /\
     forward_connections MAX_INTERNAL_NEURONS NUM_ACTIONS
       (_parse_genome [0x01020304; 0x81800010; 0x0D811F40])
       (replicate 14 1%R) = Ok actions) /\
  (forall c : Connection R,
     c ∈ _parse_genome [0x01020304; 0x81800010; 0x0D811F40] ->
     c ∉ _connections (NeuralNetwork_init [0x01020304; 0x81800010; 0x0D811F40]) ->
     sink_type c = 0 /\
     ~ Useful (_parse_genome [0x01020304; 0x81800010; 0x0D811F40]) (sink_id c)).
Proof.
  apply (pruning_preserves_forward (F := R)
           [0x01020304; 0x81800010; 0x0D811F40] (replicate 14 1%R)).
  reflexivity.
Defined.

(** ** Bounded activations *)

Lemma tanh_bounded (r : R) : (-1 <= tanh r <= 1)%R.
Proof.
  unfold tanh, sinh, cosh.
  pose proof (exp_pos r) as Ha. pose proof (exp_pos (- r)) as Hb.
  set (a := exp r) in *. set (b := exp (- r)) in *.
  replace ((a - b) / 2 / ((a + b) / 2))%R with ((a - b) / (a + b))%R
    by (field; lra).
  split.
  - apply Rle_trans with ((- (a + b)) / (a + b))%R.
    + right. field. lra.
    + unfold Rdiv. apply Rmult_le_compat_r; [| lra].
      left. apply Rinv_0_lt_compat. lra.
  - apply Rle_trans with ((a + b) / (a + b))%R.
    + unfold Rdiv. apply Rmult_le_compat_r; [| lra].
      left. apply Rinv_0_lt_compat. lra.
    + right. field. lra.
Qed.

Lemma forward_connections_image {F} `{FloatOps F} (n_int n_act : Z)
    (conns : list (Connection F)) (sensor_inputs actions : list F) :
  forward_connections n_int n_act conns sensor_inputs = Ok actions ->
  exists sums, actions = map ftanh sums.
Proof.
  unfold forward_connections.
  destruct (internal_pass n_int conns sensor_inputs (np_zeros n_int));
    cbn [mbind result_bind]; [| discriminate].
  destruct (internal_pass n_int conns sensor_inputs a);
    cbn [mbind result_bind]; [| discriminate].
  destruct (accumulate_all 1 sensor_inputs a0 conns (np_zeros n_act));
    cbn [mbind result_bind]; [| discriminate].
  intros [= <-]. eauto.
Qed.

(** C9.  Whatever the genome (hence the weights) and the sensor vector,
    every component of an action vector returned by [forward] lies in
    [[-1, 1]]; and for a sensor vector of [NUM_SENSORS] readings
    [forward] does return a vector, of [NUM_ACTIONS] components. *)
Theorem forward_bounded (genome : list Z) (sensor_inputs : list R) :
  (forall actions,
     forward (NeuralNetwork_init genome) sensor_inputs = Ok actions ->
     Forall (fun a => (-1 <= a <= 1)%R) actions) /\
  (length sensor_inputs = Z.to_nat NUM_SENSORS ->
   exists actions,
     forward (NeuralNetwork_init genome) sensor_inputs = Ok actions /\
     length actions = Z.to_nat NUM_ACTIONS /\
     Forall (fun a => (-1 <= a <= 1)%R) actions).
Proof.
  assert (Hb : forall actions,
     forward (NeuralNetwork_init genome) sensor_inputs = Ok actions ->
     Forall (fun a => (-1 <= a <= 1)%R) actions).
  { intros actions Hf. apply forward_connections_image in Hf.
    destruct Hf as (sums & ->). apply Forall_forall.
    intros a Ha. apply list_elem_of_In, in_map_iff in Ha.
    destruct Ha as (s & <- & _). apply tanh_bounded. }
  split; [exact Hb |].
  intros Hlen.
  destruct (forward_connections_pruned (_parse_genome genome) sensor_inputs
              MAX_INTERNAL_NEURONS NUM_ACTIONS) as (actions & _ & H2 & Hl).
  - rewrite Hlen. apply parse_genome_wf.
  - exists actions. split_and!; try assumption. now apply Hb.
Qed.

Lemma forward_bounded_witness :
  exists actions,
    forward (NeuralNetwork_init [0x01020304; 0x81800010; 0x0D817FFF])
            (replicate 14 1%R) = Ok actions /\
    length actions = Z.to_nat NUM_ACTIONS /\
    Forall (fun a => (-1 <= a <= 1)%R) actions.
Proof.
  apply (proj2 (forward_bounded [0x01020304; 0x81800010; 0x0D817FFF]
                                (replicate 14 1%R))).
  reflexivity.
Defined.

(** ** Grid world *)

Section GridLemmas.

Lemma py_index_lt (len : nat) (i : Z) (n : nat) :
  py_index len i = Some n -> (n < len)%nat.
Proof.
  unfold py_index.
  destruct ((0 <=? i) && (i <? Z.of_nat len)) eqn:E1.
  - intros [= <-]. apply andb_true_iff in E1. lia.
  - destruct ((- Z.of_nat len <=? i) && (i <? 0)) eqn:E2; [| discriminate].
    intros [= <-]. apply andb_true_iff in E2. lia.
Qed.

Lemma py_index_Some_nonneg (len : nat) (i : Z) (n : nat) :
  0 <= i -> py_index len i = Some n -> n = Z.to_nat i.
Proof.
  intros Hi. unfold py_index.
  destruct ((0 <=? i) && (i <? Z.of_nat len)) eqn:E1.
  - now intros [= <-].
  - destruct ((- Z.of_nat len <=? i) && (i <? 0)) eqn:E2; [| discriminate].
    apply andb_true_iff in E2. lia.
Qed.

Lemma getitem_Ok {A} (l : list A) (i : Z) (a : A) :
  getitem l i = Ok a ->
  exists n, py_index (length l) i = Some n /\ l !! n = Some a.
Proof.
  unfold getitem. destruct (py_index (length l) i) as [n |]; [| discriminate].
  destruct (l !! n) as [a' |] eqn:E; [| discriminate].
  intros [= <-]. eauto.
Qed.

Lemma setitem_Ok {A} (l : list A) (i : Z) (a : A) (l' : list A) :
  setitem l i a = Ok l' ->
  exists n, py_index (length l) i = Some n /\ l' = <[n := a]> l.
Proof.
  unfold setitem. destruct (py_index (length l) i) as [n |]; [| discriminate].
  intros [= <-]. eauto.
Qed.

(** What a successful write does to the cells. *)
Lemma grid_write_Ok (g : list (list (option nat))) (py px : Z)
    (v : option nat) (g' : list (list (option nat))) :
  grid_write g py px v = Ok g' ->
  exists (ny nx : nat) (row : list (option nat)),
    py_index (length g) py = Some ny /\ g !! ny = Some row /\
    py_index (length row) px = Some nx /\
    g' = <[ny := <[nx := v]> row]> g.
Proof.
  unfold grid_write. intros Hw.
  destruct (getitem g py) as [row |] eqn:Er; [| discriminate].
  cbn [mbind result_bind] in Hw.
  destruct (setitem row px v) as [row' |] eqn:Es; [| discriminate].
  cbn [mbind result_bind] in Hw.
  apply getitem_Ok in Er. destruct Er as (ny & Hny & Hrow).
  apply setitem_Ok in Es. destruct Es as (nx & Hnx & ->).
  apply setitem_Ok in Hw. destruct Hw as (ny' & Hny' & ->).
  assert (ny' = ny) by congruence. subst ny'.
  exists ny, nx, row. auto.
Qed.

Lemma cell_at_written (g : list (list (option nat))) (ny nx : nat)
    (row : list (option nat)) (v : option nat) (cx cy : nat) :
  g !! ny = Some row -> (nx < length row)%nat ->
  cell_at (<[ny := <[nx := v]> row]> g) cx cy
  = if decide (cy = ny /\ cx = nx) then v else cell_at g cx cy.
Proof.
  intros Hrow Hnx. unfold cell_at.
  pose proof (lookup_lt_Some _ _ _ Hrow) as Hny.
  destruct (decide (cy = ny)) as [-> | Hne].
  - rewrite list_lookup_insert_eq by assumption. rewrite Hrow.
    destruct (decide (cx = nx)) as [-> | Hne].
    + rewrite list_lookup_insert_eq by assumption.
      rewrite decide_True by auto. reflexivity.
    + rewrite list_lookup_insert_ne by auto.
      rewrite decide_False by tauto. reflexivity.
  - rewrite list_lookup_insert_ne by auto.
    rewrite decide_False by tauto. reflexivity.
Qed.

(** Writing [None] only clears. *)
Lemma grid_write_None_sub (g g' : list (list (option nat))) (py px : Z)
    (cx cy id : nat) :
  grid_write g py px None = Ok g' ->
  cell_at g' cx cy = Some id -> cell_at g cx cy = Some id.
Proof.
  intros Hw Hc. apply grid_write_Ok in Hw.
  destruct Hw as (ny & nx & row & _ & Hrow & Hnx & ->).
  rewrite (cell_at_written g ny nx row) in Hc
    by (eauto using py_index_lt).
  now case_decide.
Qed.

Lemma grid_write_None_here (g g' : list (list (option nat))) (py px : Z) :
  0 <= py -> 0 <= px ->
  grid_write g py px None = Ok g' ->
  cell_at g' (Z.to_nat px) (Z.to_nat py) = None.
Proof.
  intros Hy Hx Hw. apply grid_write_Ok in Hw.
  destruct Hw as (ny & nx & row & Hny & Hrow & Hnx & ->).
  rewrite (cell_at_written g ny nx row) by (eauto using py_index_lt).
  apply py_index_Some_nonneg in Hny, Hnx; try assumption. subst.
  now rewrite decide_True.
Qed.

(** Writing a reference changes the written cell only. *)
Lemma grid_write_Some_cases (g g' : list (list (option nat))) (py px : Z)
    (id cx cy id' : nat) :
  0 <= py -> 0 <= px ->
  grid_write g py px (Some id) = Ok g' ->
  cell_at g' cx cy = Some id' ->
  (cx = Z.to_nat px /\ cy = Z.to_nat py /\ id' = id) \/
  cell_at g cx cy = Some id'.
Proof.
  intros Hy Hx Hw Hc. apply grid_write_Ok in Hw.
  destruct Hw as (ny & nx & row & Hny & Hrow & Hnx & ->).
  rewrite (cell_at_written g ny nx row) in Hc
    by (eauto using py_index_lt).
  apply py_index_Some_nonneg in Hny, Hnx; try assumption. subst.
  case_decide as Hd; [| now right].
  left. destruct Hd. split_and!; congruence.
Qed.

Lemma cell_at_empty_grid (width height : Z) (cx cy : nat) :
  cell_at (empty_grid width height) cx cy = None.
Proof.
  unfold cell_at, empty_grid.
  destruct (replicate (Z.to_nat height) _ !! cy) as [row |] eqn:E;
    [| reflexivity].
  apply lookup_replicate in E. destruct E as [-> _].
  destruct (replicate (Z.to_nat width) _ !! cx) as [v |] eqn:E;
    [| reflexivity].
  apply lookup_replicate in E. now destruct E as [-> _].
Qed.

End GridLemmas.

(** Closed forms of the primitive steps. *)
Section Primitives.
Context {F G : Type} `{FloatOps F} `{RngOps G F}.
Implicit Types (m : Mem F G).

Lemma bind_eq {S A B} (c : M S A) (f : A -> M S B) (s : S) :
  (c ≫= f) s = match c s with
               | Done a s' => f a s'
               | Raised e s' => Raised e s'
               end.
Proof. reflexivity. Qed.

Lemma grid_get_eq (py px : Z) m :
  grid_get py px m
  = match grid_read (_grid (world m)) py px with
    | Ok v => Done v m
    | Raise e => Raised e m
    end.
Proof.
  unfold grid_get. rewrite bind_eq. cbn.
  now destruct (grid_read (_grid (world m)) py px).
Qed.

Lemma grid_set_eq (py px : Z) (v : option nat) m :
  grid_set py px v m
  = match grid_write (_grid (world m)) py px v with
    | Ok g' => Done tt (mkMem (heap m) (set_grid g' (world m)))
    | Raise e => Raised e m
    end.
Proof.
  unfold grid_set. rewrite bind_eq. cbn. rewrite bind_eq.
  now destruct (grid_write (_grid (world m)) py px v).
Qed.

End Primitives.

Section GridInvariant.
Context {F G : Type} `{FloatOps F} `{RngOps G F}.
Implicit Types (m : Mem F G).

Lemma in_bounds_nonneg (w : World G) (px py : Z) :
  _in_bounds w px py = true ->
  0 <= px < width w /\ 0 <= py < height w.
Proof.
  unfold _in_bounds. rewrite !andb_true_iff. lia.
Qed.

Lemma place_creature_consistent (id : nat) m :
  grid_consistent m -> grid_consistent (state_of (place_creature id m)).
Proof.
  intros HI. unfold place_creature. rewrite bind_eq. unfold deref.
  destruct (heap m !! id) as [c |] eqn:Hc; [| exact HI].
  rewrite bind_eq. cbn [get_world].
  destruct (_in_bounds (world m) (x c) (y c)) eqn:Hb; [| exact HI].
  apply in_bounds_nonneg in Hb.
  rewrite bind_eq, grid_get_eq.
  destruct (grid_read (_grid (world m)) (y c) (x c)) as [cell | e];
    [| exact HI].
  destruct cell as [other |]; [exact HI |].
  rewrite bind_eq, grid_set_eq.
  destruct (grid_write (_grid (world m)) (y c) (x c) (Some id))
    as [g' | e] eqn:Hw; [| exact HI].
  cbn. intros cx cy id' Hcell. cbn in Hcell |- *.
  destruct (grid_write_Some_cases _ _ _ _ _ _ _ _
              (proj1 (proj2 Hb)) (proj1 (proj1 Hb)) Hw Hcell)
    as [(-> & -> & ->) | Hold].
  - exists c. split; [assumption |]. lia.
  - now apply HI in Hold.
Qed.

Lemma remove_creature_consistent (id : nat) m :
  grid_consistent m -> grid_consistent (state_of (remove_creature id m)).
Proof.
  intros HI. unfold remove_creature. rewrite bind_eq. unfold deref.
  destruct (heap m !! id) as [c |] eqn:Hc; [| exact HI].
  rewrite bind_eq. cbn [get_world].
  destruct (_in_bounds (world m) (x c) (y c)) eqn:Hb; [| exact HI].
  rewrite bind_eq, grid_get_eq.
  destruct (grid_read (_grid (world m)) (y c) (x c)) as [cell | e];
    [| exact HI].
  case_bool_decide; [| exact HI].
  rewrite grid_set_eq.
  destruct (grid_write (_grid (world m)) (y c) (x c) None)
    as [g' | e] eqn:Hw; [| exact HI].
  cbn. intros cx cy id' Hcell. cbn in Hcell |- *.
  apply (grid_write_None_sub _ _ _ _ _ _ _ Hw) in Hcell.
  now apply HI in Hcell.
Qed.

(** Once the cell at the creature's stored position is cleared, no cell
    references the creature, so its position can be reassigned. *)
Lemma cleared_then_moved (id : nat) (c c' : Creature F) m
    (g1 : list (list (option nat))) :
  grid_consistent m -> heap m !! id = Some c ->
  grid_write (_grid (world m)) (y c) (x c) None = Ok g1 ->
  grid_consistent (mkMem (<[id := c']> (heap m)) (set_grid g1 (world m))).
Proof.
  intros HI Hc Hw cx cy id' Hcell. cbn in Hcell |- *.
  pose proof (grid_write_None_sub _ _ _ _ _ _ _ Hw Hcell) as Hold.
  destruct (HI _ _ _ Hold) as (c0 & Hc0 & Hx & Hy).
  destruct (decide (id' = id)) as [-> | Hne].
  - assert (c0 = c) by congruence. subst c0.
    pose proof (grid_write_None_here _ _ (y c) (x c)
                  ltac:(lia) ltac:(lia) Hw) as Hnone.
    rewrite Hx, Hy, !Nat2Z.id in Hnone. congruence.
  - exists c0. rewrite lookup_insert_ne by auto. auto.
Qed.

End GridInvariant.

Section MoveCreature.
Context {F G : Type} `{FloatOps F} `{RngOps G F}.
Implicit Types (m : Mem F G).

(** [move_creature] in closed form. *)
Lemma move_creature_eq (id : nat) (dx dy : Z) m (c : Creature F) :
  heap m !! id = Some c ->
  move_creature id dx dy m =
  let nx := Z.max 0 (Z.min (width (world m) - 1) (x c + dx)) in
  let ny := Z.max 0 (Z.min (height (world m) - 1) (y c + dy)) in
  if (nx =? x c) && (ny =? y c) then Done false m
  else
    match grid_read (_grid (world m)) ny nx with
    | Raise e => Raised e m
    | Ok (Some _) => Done false m
    | Ok None =>
        match grid_write (_grid (world m)) (y c) (x c) None with
        | Raise e => Raised e m
        | Ok g1 =>
            match grid_write g1 ny nx (Some id) with
            | Raise e =>
                Raised e (mkMem (<[id := set_pos nx ny c]> (heap m))
                                (set_grid g1 (world m)))
            | Ok g2 =>
                Done true (mkMem (<[id := moved_creature nx ny dx dy c]>
                                    (heap m))
                                 (set_grid g2 (world m)))
            end
        end
    end.
Proof.
  intros Hc. unfold move_creature. rewrite bind_eq. unfold deref at 1.
  rewrite Hc. rewrite bind_eq. cbn [get_world]. cbn zeta.
  set (nx := Z.max 0 (Z.min (width (world m) - 1) (x c + dx))).
  set (ny := Z.max 0 (Z.min (height (world m) - 1) (y c + dy))).
  destruct ((nx =? x c) && (ny =? y c)); [reflexivity |].
  rewrite bind_eq, grid_get_eq.
  destruct (grid_read (_grid (world m)) ny nx) as [[other |] | e];
    try reflexivity.
  rewrite bind_eq, grid_set_eq.
  destruct (grid_write (_grid (world m)) (y c) (x c) None) as [g1 | e];
    [| reflexivity].
  rewrite bind_eq. unfold assign at 1. cbn [heap world]. rewrite Hc.
  rewrite bind_eq, grid_set_eq. cbn [heap world _grid set_grid].
  destruct (grid_write g1 ny nx (Some id)) as [g2 | e]; [| reflexivity].
  rewrite bind_eq. unfold moved_creature.
  destruct (negb (dx =? 0) || negb (dy =? 0)).
  - destruct (find_dir DIRS 0 (sign dx) (sign dy)) as [i |].
    + unfold assign. cbn [heap world]. rewrite lookup_insert_eq.
      rewrite insert_insert_eq. reflexivity.
    + reflexivity.
  - reflexivity.
Qed.

Lemma move_creature_consistent (id : nat) (dx dy : Z) m :
  grid_consistent m ->
  grid_consistent (state_of (move_creature id dx dy m)).
Proof.
  intros HI.
  destruct (heap m !! id) as [c |] eqn:Hc.
  2: { unfold move_creature. rewrite bind_eq. unfold deref.
       rewrite Hc. exact HI. }
  rewrite (move_creature_eq id dx dy m c Hc). cbn zeta.
  set (nx := Z.max 0 (Z.min (width (world m) - 1) (x c + dx))).
  set (ny := Z.max 0 (Z.min (height (world m) - 1) (y c + dy))).
  destruct ((nx =? x c) && (ny =? y c)); [exact HI |].
  destruct (grid_read (_grid (world m)) ny nx) as [[other |] | e];
    try exact HI.
  destruct (grid_write (_grid (world m)) (y c) (x c) None)
    as [g1 | e] eqn:Hw1; [| exact HI].
  destruct (grid_write g1 ny nx (Some id)) as [g2 | e] eqn:Hw2.
  - cbn [state_of].
    pose proof (cleared_then_moved id c (moved_creature nx ny dx dy c)
                  m g1 HI Hc Hw1) as HI1.
    intros cx cy id' Hcell. cbn in Hcell |- *.
    destruct (grid_write_Some_cases g1 g2 ny nx id cx cy id'
                ltac:(lia) ltac:(lia) Hw2 Hcell)
      as [(-> & -> & ->) | Hold].
    + exists (moved_creature nx ny dx dy c).
      rewrite lookup_insert_eq. split; [reflexivity |].
      unfold moved_creature.
      destruct (negb (dx =? 0) || negb (dy =? 0));
        [destruct (find_dir DIRS 0 (sign dx) (sign dy)) |]; cbn; lia.
    + exact (HI1 cx cy id' Hold).
  - cbn [state_of]. exact (cleared_then_moved id c _ m g1 HI Hc Hw1).
Qed.

Lemma exec_op_consistent (op : WorldOp) m :
  grid_consistent m -> grid_consistent (state_of (exec_op op m)).
Proof.
  intros HI. destruct op as [id | id dx dy | id]; cbn [exec_op].
  - rewrite bind_eq.
    pose proof (place_creature_consistent id m HI) as HP.
    now destruct (place_creature id m).
  - rewrite bind_eq.
    pose proof (move_creature_consistent id dx dy m HI) as HP.
    now destruct (move_creature id dx dy m).
  - now apply remove_creature_consistent.
Qed.

Lemma run_ops_consistent (ops : list WorldOp) m :
  grid_consistent m -> grid_consistent (run_ops ops m).
Proof.
  revert m. induction ops as [| op ops IH]; intros m HI; [exact HI |].
  cbn [run_ops fold_left]. apply IH. now apply exec_op_consistent.
Qed.

Lemma consistent_no_shared_cell m :
  grid_consistent m -> no_shared_cell m.
Proof.
  intros HI cx1 cy1 cx2 cy2 a b ca cb Ha Hb Hne Hca Hcb Heq.
  destruct (HI _ _ _ Ha) as (ca' & Hca' & Hxa & Hya).
  destruct (HI _ _ _ Hb) as (cb' & Hcb' & Hxb & Hyb).
  assert (ca' = ca) by congruence. assert (cb' = cb) by congruence.
  subst ca' cb'. injection Heq as Ex Ey.
  assert (cx1 = cx2) by lia. assert (cy1 = cy2) by lia. subst.
  congruence.
Qed.

End MoveCreature.

(** C2.  Starting from a world whose grid is empty, with any creature
    objects at any stored positions, after every sequence of
    [place_creature], [move_creature] and [remove_creature] calls no two
    distinct creatures referenced by the grid store the same position,
    and every cell that references a creature is the cell at the position
    that creature stores. *)
Theorem grid_invariant {F G} `{FloatOps F} `{RngOps G F}
    (objects : gmap nat (Creature F)) (width height : Z) (seed : option Z)
    (os_entropy : Z) (ops : list WorldOp) :
  let m := run_ops ops (mkMem objects
                              (World_init width height seed os_entropy)) in
  no_shared_cell m /\ grid_consistent m.
Proof.
  intros m.
  assert (HI : grid_consistent m).
  { apply run_ops_consistent. intros cx cy id Hcell. cbn in Hcell.
    rewrite cell_at_empty_grid in Hcell. discriminate. }
  split; [now apply consistent_no_shared_cell | exact HI].
Qed.

Section MoveBlocked.
Context {F G : Type} `{FloatOps F} `{RngOps G F}.
Implicit Types (m : Mem F G).

Lemma shape_row (g : list (list (option nat))) (w h : Z) (py : Z) :
  length g = Z.to_nat h ->
  Forall (fun row => length row = Z.to_nat w) g ->
  0 <= py < h ->
  exists row, g !! Z.to_nat py = Some row /\ length row = Z.to_nat w.
Proof.
  intros Hlen Hrows Hy.
  destruct (lookup_lt_is_Some_2 g (Z.to_nat py)) as [row Hrow]; [lia |].
  exists row. split; [assumption |].
  rewrite Forall_forall in Hrows. apply Hrows.
  apply list_elem_of_lookup. eauto.
Qed.

Lemma grid_read_in_range (g : list (list (option nat))) (w h px py : Z) :
  length g = Z.to_nat h ->
  Forall (fun row => length row = Z.to_nat w) g ->
  0 <= px < w -> 0 <= py < h ->
  grid_read g py px = Ok (cell_at g (Z.to_nat px) (Z.to_nat py)).
Proof.
  intros Hlen Hrows Hx Hy.
  destruct (shape_row g w h py Hlen Hrows Hy) as (row & Hrow & Hl).
  unfold grid_read, cell_at.
  rewrite (getitem_lookup g py row) by (lia || assumption).
  cbn [mbind result_bind]. rewrite Hrow.
  destruct (getitem_nonneg row px) as (v & Hv & ->); [lia |].
  now rewrite Hv.
Qed.

Lemma grid_write_in_range (g : list (list (option nat))) (w h px py : Z)
    (v : option nat) :
  length g = Z.to_nat h ->
  Forall (fun row => length row = Z.to_nat w) g ->
  0 <= px < w -> 0 <= py < h ->
  exists g',
    grid_write g py px v = Ok g' /\
    length g' = Z.to_nat h /\
    Forall (fun row => length row = Z.to_nat w) g' /\
    forall cx cy,
      cell_at g' cx cy
      = if decide (cy = Z.to_nat py /\ cx = Z.to_nat px) then v
        else cell_at g cx cy.
Proof.
  intros Hlen Hrows Hx Hy.
  destruct (shape_row g w h py Hlen Hrows Hy) as (row & Hrow & Hl).
  exists (<[Z.to_nat py := <[Z.to_nat px := v]> row]> g).
  split_and!.
  - unfold grid_write.
    rewrite (getitem_lookup g py row) by (lia || assumption).
    cbn [mbind result_bind]. rewrite setitem_nonneg by lia.
    cbn [mbind result_bind]. now rewrite setitem_nonneg by lia.
  - now rewrite length_insert.
  - apply Forall_insert; [assumption |]. now rewrite length_insert.
  - intros cx cy. apply cell_at_written; [assumption | lia].
Qed.

Lemma placed_in_range m (id : nat) (c : Creature F) :
  grid_shape m -> heap m !! id = Some c -> placed m id ->
  0 <= x c < width (world m) /\ 0 <= y c < height (world m) /\
  cell_at (_grid (world m)) (Z.to_nat (x c)) (Z.to_nat (y c)) = Some id.
Proof.
  intros [Hlen Hrows] Hc (c' & Hc' & Hx & Hy & Hcell).
  assert (c' = c) by congruence. subst c'.
  unfold cell_at in Hcell.
  destruct (_grid (world m) !! Z.to_nat (y c)) as [row |] eqn:Hrow;
    [| discriminate].
  destruct (row !! Z.to_nat (x c)) as [v |] eqn:Hv; [| discriminate].
  pose proof (lookup_lt_Some _ _ _ Hrow).
  pose proof (lookup_lt_Some _ _ _ Hv).
  rewrite Forall_forall in Hrows.
  assert (length row = Z.to_nat (width (world m)))
    by (apply Hrows, list_elem_of_lookup; eauto).
  split_and!; try lia.
  unfold cell_at. now rewrite Hrow, Hv.
Qed.

End MoveBlocked.

(** C3.  For a creature on the grid and any displacement,
    [move_creature] returns without raising; it returns false exactly
    when the boundary-clamped target is the creature's own cell or holds
    another creature, and then the whole state (grid, stored position,
    heading) is unchanged; when it returns true the creature is at the
    clamped target.  In particular a creature at [x = 0] asked to move
    west ([dx < 0], [dy = 0]) stays at [x = 0] and the call returns
    false. *)
Theorem move_creature_blocked {F G} `{FloatOps F} `{RngOps G F}
    (m : Mem F G) (id : nat) (c : Creature F) (dx dy : Z) :
  grid_shape m -> grid_consistent m ->
  heap m !! id = Some c -> placed m id ->
  let nx := fst (clamped_target (world m) c dx dy) in
  let ny := snd (clamped_target (world m) c dx dy) in
  exists (moved : bool) (m' : Mem F G),
    move_creature id dx dy m = Done moved m' /\
    (moved = false <->
     ((nx, ny) = (x c, y c) \/
      exists other,
        other <> id /\
        cell_at (_grid (world m)) (Z.to_nat nx) (Z.to_nat ny) = Some other)) /\
    (moved = false -> m' = m) /\
    (moved = true ->
     heap m' !! id = Some (moved_creature nx ny dx dy c) /\
     cell_at (_grid (world m')) (Z.to_nat nx) (Z.to_nat ny) = Some id /\
     cell_at (_grid (world m')) (Z.to_nat (x c)) (Z.to_nat (y c)) = None) /\
    (x c = 0 -> dx < 0 -> dy = 0 ->
     moved = false /\ exists c', heap m' !! id = Some c' /\ x c' = 0).
Proof.
  intros Hshape HI Hc Hplaced nx ny.
  destruct (placed_in_range m id c Hshape Hc Hplaced) as (Hx & Hy & Hcell).
  destruct Hshape as [Hlen Hrows].
  unfold clamped_target in nx, ny. cbn [fst snd] in nx, ny.
  assert (Hnx : 0 <= nx < width (world m)) by (subst nx; lia).
  assert (Hny : 0 <= ny < height (world m)) by (subst ny; lia).
  assert (Hwest : x c = 0 -> dx < 0 -> dy = 0 -> (nx, ny) = (x c, y c)).
  { intros Ex Hdx Edy. subst nx ny. f_equal; lia. }
  assert (Hother : forall other,
            cell_at (_grid (world m)) (Z.to_nat nx) (Z.to_nat ny) = Some other ->
            (nx, ny) <> (x c, y c) -> other <> id).
  { intros other Htarget Hne ->.
    destruct (HI _ _ _ Htarget) as (c0 & Hc0 & Hx0 & Hy0).
    assert (c0 = c) by congruence. subst c0.
    apply Hne. f_equal; lia. }
  rewrite (move_creature_eq id dx dy m c Hc). cbn zeta.
  fold nx. fold ny.
  destruct ((nx =? x c) && (ny =? y c)) eqn:Esame.
  - (* the clamped target is the creature's own cell *)
    apply andb_true_iff in Esame. destruct Esame as [Ex Ey].
    apply Z.eqb_eq in Ex, Ey.
    exists false, m. split_and!.
    + reflexivity.
    + split; [intros _; left; congruence | reflexivity].
    + reflexivity.
    + discriminate.
    + intros. split; eauto.
  - assert (Hne : (nx, ny) <> (x c, y c)).
    { intros [= Ex Ey]. rewrite Ex, Ey, !Z.eqb_refl in Esame. discriminate. }
    rewrite (grid_read_in_range _ _ _ nx ny Hlen Hrows Hnx Hny).
    destruct (cell_at (_grid (world m)) (Z.to_nat nx) (Z.to_nat ny))
      as [other |] eqn:Htarget.
    + (* the target holds another creature *)
      exists false, m. split_and!.
      * reflexivity.
      * split; [| reflexivity]. intros _. right. exists other.
        split; [now apply Hother | reflexivity].
      * reflexivity.
      * discriminate.
      * intros. split; eauto.
    + (* the move happens *)
      destruct (grid_write_in_range (_grid (world m)) _ _ (x c) (y c) None
                  Hlen Hrows Hx Hy) as (g1 & -> & Hlen1 & Hrows1 & Hcells1).
      destruct (grid_write_in_range g1 _ _ nx ny (Some id)
                  Hlen1 Hrows1 Hnx Hny) as (g2 & -> & _ & _ & Hcells2).
      eexists true, _. split_and!.
      * reflexivity.
      * split; [discriminate |].
        intros [Heq | (other & _ & Ho)]; [contradiction | discriminate].
      * discriminate.
      * intros _. cbn [heap world _grid set_grid].
        assert (Hd : ~ (Z.to_nat (y c) = Z.to_nat ny /\
                        Z.to_nat (x c) = Z.to_nat nx)).
        { intros [Ey Ex]. apply Hne. f_equal; lia. }
        rewrite lookup_insert_eq. split_and!.
        -- reflexivity.
        -- rewrite Hcells2. now rewrite decide_True by tauto.
        -- rewrite Hcells2. rewrite decide_False by exact Hd.
           rewrite Hcells1. now rewrite decide_True by tauto.
      * intros Ex0 Hdx Edy. now specialize (Hwest Ex0 Hdx Edy).
Qed.

Lemma move_creature_blocked_witness :
  exists (moved : bool) (m' : Mem R Z),
    move_creature 0 (-1) 0 corner_world = Done moved m' /\
    moved = false /\ m' = corner_world.
Proof.
  assert (Hc : heap corner_world !! 0%nat = Some (Creature_init 0 0 []))
    by apply lookup_singleton_eq.
  assert (Hshape : grid_shape corner_world)
    by (split; [reflexivity | repeat constructor]).
  assert (HI : grid_consistent corner_world).
  { intros cx cy id Hcell.
    destruct cx as [| [| cx]], cy as [| [| cy]]; cbn in Hcell;
      try discriminate.
    injection Hcell as <-. exists (Creature_init 0 0 []). auto. }
  assert (Hplaced : placed corner_world 0).
  { exists (Creature_init 0 0 []). cbn. split_and!; auto; lia. }
  destruct (move_creature_blocked corner_world 0 (Creature_init 0 0 [])
              (-1) 0 Hshape HI Hc Hplaced)
    as (moved & m' & Heq & _ & Hsame & _ & Hwest).
  exists moved, m'.
  destruct (Hwest eq_refl ltac:(lia) eq_refl) as [Hfalse _].
  split_and!; [exact Heq | exact Hfalse | exact (Hsame Hfalse)].
Defined.

(** ** Reproducible runs *)

Section Reproducible.
Context {F G : Type} `{FloatOps F} `{RngOps G F}.
Variable KILL_ENABLED : bool.

Lemma same_run_refl (s : SimState F G) : same_run s s.
Proof. now split_and!. Qed.

Lemma same_bind {A B} (c1 c2 : M (SimState F G) A)
    (f1 f2 : A -> M (SimState F G) B) (s1 s2 : SimState F G) :
  same_outcome (c1 s1) (c2 s2) ->
  (forall a s1' s2', same_run s1' s2' -> same_outcome (f1 a s1') (f2 a s2')) ->
  same_outcome ((c1 ≫= f1) s1) ((c2 ≫= f2) s2).
Proof.
  intros Hc Hf. rewrite !bind_eq.
  destruct (c1 s1) as [a1 t1 | e1 t1], (c2 s2) as [a2 t2 | e2 t2];
    cbn in Hc; try contradiction.
  - destruct Hc as [-> Hs]. now apply Hf.
  - exact Hc.
Qed.

Lemma respects_bind {A B} (c : M (SimState F G) A)
    (f : A -> M (SimState F G) B) :
  respects c -> (forall a, respects (f a)) -> respects (c ≫= f).
Proof.
  intros Hc Hf s1 s2 Hs. apply same_bind; [now apply Hc |].
  intros a s1' s2' Hs'. now apply Hf.
Qed.

Lemma respects_ret {A} (a : A) : respects (mret a : M (SimState F G) A).
Proof. intros s1 s2 Hs. cbn. now split. Qed.

Lemma respects_on_mem {A} (c : M (Mem F G) A) : respects (on_mem c).
Proof.
  intros s1 s2 (Hm & Hg & Hc & Hst). unfold on_mem. rewrite Hm.
  destruct (c (mem s2)) as [a m' | e m']; cbn; split; try reflexivity;
    now split_and!.
Qed.

Lemma respects_get_generation : respects (get_generation (F := F) (G := G)).
Proof.
  intros s1 s2 Hs. cbn. split; [apply Hs | exact Hs].
Qed.

Lemma respects_set_generation (g : Z) :
  respects (set_generation (F := F) (G := G) g).
Proof.
  intros s1 s2 (Hm & Hg & Hc & Hst). cbn. split; [reflexivity |].
  now split_and!.
Qed.

Lemma respects_set_current (l : list nat) :
  respects (set_current_gen_creatures (F := F) (G := G) l).
Proof.
  intros s1 s2 (Hm & Hg & Hc & Hst). cbn. split; [reflexivity |].
  now split_and!.
Qed.

Lemma respects_compute_stats (creatures survivors : list nat) :
  respects (_compute_stats (F := F) (G := G) creatures survivors).
Proof.
  unfold _compute_stats.
  apply respects_bind; [apply respects_on_mem | intros n_alive].
  apply respects_bind; [apply respects_on_mem | intros w].
  apply respects_bind; [apply respects_on_mem | intros diversity].
  apply respects_bind; [apply respects_get_generation | intros g].
  apply respects_ret.
Qed.

Lemma respects_run_one_generation (self : Simulation F)
    (genomes : list (list Z)) :
  respects (_run_one_generation KILL_ENABLED self genomes).
Proof.
  unfold _run_one_generation.
  apply respects_bind; [apply respects_on_mem | intros creatures].
  apply respects_bind; [apply respects_set_current | intros _].
  apply respects_bind; [apply respects_on_mem | intros _].
  apply respects_bind; [apply respects_on_mem | intros _].
  apply respects_bind; [apply respects_on_mem | intros _].
  apply respects_bind; [apply respects_on_mem | intros survivors].
  apply respects_bind; [apply respects_compute_stats | intros stats].
  apply respects_ret.
Qed.

Lemma same_bind_time {B} (clock1 clock2 : nat -> F)
    (f1 f2 : F -> M (SimState F G) B) (s1 s2 : SimState F G) :
  same_run s1 s2 ->
  (forall a1 a2 s1' s2',
     same_run s1' s2' -> same_outcome (f1 a1 s1') (f2 a2 s2')) ->
  same_outcome ((time_time clock1 ≫= f1) s1) ((time_time clock2 ≫= f2) s2).
Proof.
  intros (Hm & Hg & Hc & Hst) Hf. rewrite !bind_eq. unfold time_time.
  apply Hf. now split_and!.
Qed.

Lemma same_append_stats (st1 st2 : GenerationStats F) (s1 s2 : SimState F G) :
  core_stats st1 = core_stats st2 -> same_run s1 s2 ->
  same_outcome (append_stats st1 s1) (append_stats st2 s2).
Proof.
  intros Hcore (Hm & Hg & Hc & Hst). cbn. split; [reflexivity |].
  split_and!; try assumption. cbn.
  rewrite !map_app. cbn. now rewrite Hst, Hcore.
Qed.

(** The generation loop under two clocks. *)
Lemma generations_loop_same (clock1 clock2 : nat -> F) (self : Simulation F)
    (gen_idxs : list Z) :
  forall (genomes : list (list Z)) (s1 s2 : SimState F G),
    same_run s1 s2 ->
    same_outcome
      (generations_loop KILL_ENABLED clock1 self gen_idxs genomes s1)
      (generations_loop KILL_ENABLED clock2 self gen_idxs genomes s2).
Proof.
  induction gen_idxs as [| gen_idx rest IH]; intros genomes s1 s2 Hs.
  - cbn. now split.
  - cbn [generations_loop].
    apply same_bind; [now apply respects_set_generation |].
    intros _ t1 t2 Ht.
    apply same_bind_time; [assumption |].
    intros t0 t0' u1 u2 Hu.
    apply same_bind; [now apply respects_run_one_generation |].
    intros [survivors stats] v1 v2 Hv.
    apply same_bind_time; [assumption |].
    intros t1' t1'' w1 w2 Hw.
    apply same_bind; [now apply same_append_stats |].
    intros _ x1 x2 Hx. destruct survivors as [| survivor survivors].
    + cbn. now split.
    + apply same_bind; [now apply respects_on_mem |].
      intros genomes' y1 y2 Hy. now apply IH.
Qed.

End Reproducible.

(** C7.  With a seed given, two complete runs of the same configuration
    produce the same outcome and the same sequence of per-generation
    statistics (generation index, population, survivors, alive, survival
    percentage, murders, diversity), whatever the readings of the wall
    clock and the entropy of the operating system in either run; only
    the elapsed times may differ. *)
Theorem run_reproducible {F G} `{FloatOps F} `{RngOps G F}
    (KILL_ENABLED : bool) (self : Simulation F) (seed_value : Z)
    (clock1 clock2 : nat -> F) (os_entropy1 os_entropy2 : Z) :
  seed self = Some seed_value ->
  let o1 := run KILL_ENABLED clock1 self (Simulation_init self os_entropy1) in
  let o2 := run KILL_ENABLED clock2 self (Simulation_init self os_entropy2) in
  same_outcome o1 o2 /\
  map core_stats (stats (state_of o1)) = map core_stats (stats (state_of o2)).
Proof.
  intros Hseed o1 o2.
  assert (Hsame : same_outcome o1 o2).
  { subst o1 o2. unfold run.
    apply same_bind.
    - apply respects_on_mem. unfold Simulation_init, World_init.
      rewrite Hseed. cbn [default_rng]. apply same_run_refl.
    - intros genomes s1 s2 Hs. unfold _run_all_generations.
      now apply generations_loop_same. }
  split; [exact Hsame |].
  destruct o1 as [a1 s1 | e1 s1], o2 as [a2 s2 | e2 s2]; cbn in Hsame |- *;
    try contradiction; apply Hsame.
Qed.

Lemma run_reproducible_witness :
  let o1 := run false wall_clock east_scenario
                (Simulation_init east_scenario 0) in
  let o2 := run false (fun k => (2 * INR k + 1)%R) east_scenario
                (Simulation_init east_scenario 7) in
  same_outcome o1 o2 /\
  map core_stats (stats (state_of o1)) = map core_stats (stats (state_of o2)).
Proof.
  exact (run_reproducible false east_scenario 42 wall_clock
           (fun k => (2 * INR k + 1)%R) 0 7 eq_refl).
Defined.

(** ** Extinction *)

Section Extinction.
Context {F G : Type} `{FloatOps F} `{RngOps G F}.
Variable KILL_ENABLED : bool.
Variable clock : nat -> F.

Lemma bind_Done {S A B} (c : M S A) (f : A -> M S B) (s s' : S) (b : B) :
  (c ≫= f) s = Done b s' ->
  exists a s1, c s = Done a s1 /\ f a s1 = Done b s'.
Proof.
  rewrite bind_eq. destruct (c s) as [a s1 | e s1]; [eauto | discriminate].
Qed.





Lemma py_range_length (lo hi : Z) :
  length (py_range lo hi) = Z.to_nat (hi - lo).
Proof. unfold py_range. now rewrite length_map, length_seq. Qed.




End Extinction.




(** * Further properties of the engine *)

(** ** Running monadic code *)

Lemma ret_eq {S A} (a : A) (s : S) : (mret a : M S A) s = Done a s.
Proof. reflexivity. Qed.

Lemma lift_Ok {S A} (a : A) (s : S) :
  (lift_result (Ok a) : M S A) s = Done a s.
Proof. reflexivity. Qed.

Lemma lift_Raise {S A} (e : exn) (s : S) :
  (lift_result (Raise e) : M S A) s = Raised e s.
Proof. reflexivity. Qed.

(** ** Gene codec: validity, 32-bit views, saturation *)

(** X1.  Every integer decodes to a structurally valid connection: both
    kinds are bits, the source id indexes the sensor pool or the internal
    pool according to the source kind, and the sink id indexes the
    internal pool or the action pool according to the sink kind. *)
Theorem decode_gene_valid {F} `{FloatOps F} (gene : Z) :
  let c := decode_gene (F := F) gene in
  (source_type c = 0 /\ 0 <= source_id c < NUM_SENSORS \/
   source_type c = 1 /\ 0 <= source_id c < MAX_INTERNAL_NEURONS) /\
  (sink_type c = 0 /\ 0 <= sink_id c < MAX_INTERNAL_NEURONS \/
   sink_type c = 1 /\ 0 <= sink_id c < NUM_ACTIONS).
Proof. exact (decode_gene_wf gene). Qed.

Lemma land_shiftr_mod32 (g k n : Z) :
  0 <= k -> 0 <= n -> k + n <= 32 ->
  Z.land (Z.shiftr (g mod 2 ^ 32) k) (Z.ones n)
  = Z.land (Z.shiftr g k) (Z.ones n).
Proof.
  intros Hk Hn Hkn. apply Z.bits_inj'. intros i Hi.
  rewrite !Z.land_spec, !Z.shiftr_spec by assumption.
  destruct (Z.lt_ge_cases i n) as [Hlt | Hge].
  - rewrite Z.mod_pow2_bits_low by lia. reflexivity.
  - rewrite Z.ones_spec_high by lia. now rewrite !andb_false_r.
Qed.

(** X2.  Decoding reads the low 32 bits only: a gene held as a signed
    32-bit integer and the same bit pattern held as an unsigned one
    decode to the same connection. *)
Theorem decode_gene_low_bits {F} `{FloatOps F} (gene : Z) :
  decode_gene (F := F) (gene mod 2 ^ 32) = decode_gene gene /\
  decode_gene (F := F) (gene + 2 ^ 32) = decode_gene gene.
Proof.
  assert (Hmod : forall g, decode_gene (F := F) (g mod 2 ^ 32) = decode_gene g).
  { intros g. unfold decode_gene.
    pose proof (land_shiftr_mod32 g 31 1 ltac:(lia) ltac:(lia) ltac:(lia)) as E1.
    pose proof (land_shiftr_mod32 g 24 7 ltac:(lia) ltac:(lia) ltac:(lia)) as E2.
    pose proof (land_shiftr_mod32 g 23 1 ltac:(lia) ltac:(lia) ltac:(lia)) as E3.
    pose proof (land_shiftr_mod32 g 16 7 ltac:(lia) ltac:(lia) ltac:(lia)) as E4.
    pose proof (land_shiftr_mod32 g 0 16 ltac:(lia) ltac:(lia) ltac:(lia)) as E5.
    rewrite !Z.shiftr_0_r in E5.
    change (Z.ones 1) with 0x1 in *. change (Z.ones 7) with 0x7F in *.
    change (Z.ones 16) with 0xFFFF in *.
    now rewrite E1, E2, E3, E4, E5. }
  split; [apply Hmod |].
  rewrite <- (Hmod (gene + 2 ^ 32)), <- (Hmod gene). f_equal.
  rewrite <- (Z.mul_1_l (2 ^ 32)) at 1. apply Z.mod_add. lia.
Qed.

Lemma land_ones_bounds (a n : Z) : 0 <= n -> 0 <= Z.land a (Z.ones n) < 2 ^ n.
Proof.
  intros Hn. rewrite Z.land_ones by assumption.
  apply Z.mod_pos_bound. apply Z.pow_pos_nonneg; lia.
Qed.







(** ** Bit similarity: symmetry, range, signed XOR *)

Lemma similarity_loop_sym (a b : list Z) (total_bits matching : Z) :
  similarity_loop (zip a b) total_bits matching
  = similarity_loop (zip b a) total_bits matching.
Proof.
  revert b total_bits matching.
  induction a as [| ga a IH]; intros [| gb b] total_bits matching;
    try reflexivity.
  cbn [zip zip_with similarity_loop]. rewrite (Z.lxor_comm gb ga). apply IH.
Qed.

(** X5.  Similarity is symmetric in its two genomes, whatever their
    lengths. *)
Theorem genome_similarity_sym {F} `{FloatOps F} (genome_a genome_b : list Z) :
  genome_similarity (F := F) genome_a genome_b
  = genome_similarity genome_b genome_a.
Proof.
  destruct genome_a as [| ga a], genome_b as [| gb b]; try reflexivity.
  unfold genome_similarity. now rewrite similarity_loop_sym.
Qed.

Lemma pos_count_ones_size (p : positive) :
  0 < pos_count_ones p <= Z.pos (Pos.size p).
Proof.
  induction p as [p IH | p IH |]; cbn [pos_count_ones Pos.size]; lia.
Qed.

Lemma pos_size_bound (p : positive) (n : Z) :
  0 <= n -> Z.pos p < 2 ^ n -> Z.pos (Pos.size p) <= n.
Proof.
  intros Hn Hp. destruct p as [q | q |]; cbn [Pos.size].
  - pose proof (Pos.size_le q) as Hs.
    assert (H2 : 2 ^ Z.pos (Pos.size q) <= Z.pos q~0).
    { rewrite <- Pos2Z.inj_pow. now apply Pos2Z.pos_le_pos. }
    assert (Hlt : 2 ^ Z.pos (Pos.size q) < 2 ^ n) by lia.
    apply Z.pow_lt_mono_r_iff in Hlt; lia.
  - pose proof (Pos.size_le q) as Hs.
    assert (H2 : 2 ^ Z.pos (Pos.size q) <= Z.pos q~0).
    { rewrite <- Pos2Z.inj_pow. now apply Pos2Z.pos_le_pos. }
    assert (Hlt : 2 ^ Z.pos (Pos.size q) < 2 ^ n) by lia.
    apply Z.pow_lt_mono_r_iff in Hlt; lia.
  - destruct (Z.eq_dec n 0) as [-> | Hne]; [cbn in Hp; lia | lia].
Qed.

Lemma bin_count_ones_bounds (x : Z) :
  - 2 ^ 32 < x < 2 ^ 32 -> 0 <= bin_count_ones x <= 32.
Proof.
  intros Hx. destruct x as [| p | p]; cbn [bin_count_ones]; [lia | |].
  - pose proof (pos_count_ones_size p).
    pose proof (pos_size_bound p 32 ltac:(lia) ltac:(lia)). lia.
  - pose proof (pos_count_ones_size p).
    pose proof (pos_size_bound p 32 ltac:(lia) ltac:(lia)). lia.
Qed.

Lemma lxor_nonneg_bound (a b n : Z) :
  0 <= n -> 0 <= a < 2 ^ n -> 0 <= b < 2 ^ n -> 0 <= Z.lxor a b < 2 ^ n.
Proof.
  intros Hn Ha Hb.
  assert (Hnn : 0 <= Z.lxor a b) by (apply Z.lxor_nonneg; lia).
  split; [assumption |].
  destruct (Z.eq_dec (Z.lxor a b) 0) as [-> | Hne];
    [apply Z.pow_pos_nonneg; lia |].
  apply Z.log2_lt_pow2; [lia |].
  pose proof (Z.log2_lxor a b ltac:(lia) ltac:(lia)) as Hl.
  assert (Hla : a = 0 \/ Z.log2 a < n)
    by (destruct (Z.eq_dec a 0); [now left | right; apply Z.log2_lt_pow2; lia]).
  assert (Hlb : b = 0 \/ Z.log2 b < n)
    by (destruct (Z.eq_dec b 0); [now left | right; apply Z.log2_lt_pow2; lia]).
  assert (n <> 0).
  { intros ->. change (2 ^ 0) with 1 in *.
    assert (a = 0) by lia. assert (b = 0) by lia. subst. now cbn in Hne. }
  destruct Hla as [-> | Hla], Hlb as [-> | Hlb]; cbn [Z.log2] in Hl; lia.
Qed.

(** The XOR of two signed 32-bit integers is one. *)
Lemma lxor_int32 (a b : Z) : int32 a -> int32 b -> int32 (Z.lxor a b).
Proof.
  unfold int32. intros Ha Hb.
  assert (Hnot : forall v, Z.lnot v = - v - 1) by (intros; unfold Z.lnot; lia).
  destruct (Z.lt_ge_cases a 0) as [Ha0 | Ha0],
           (Z.lt_ge_cases b 0) as [Hb0 | Hb0].
  - rewrite <- Z.lxor_lnot_lnot.
    pose proof (lxor_nonneg_bound (Z.lnot a) (Z.lnot b) 31 ltac:(lia)).
    rewrite !Hnot in *. lia.
  - pose proof (lxor_nonneg_bound (Z.lnot a) b 31 ltac:(lia)) as Hx.
    rewrite <- Z.lnot_lxor_l in Hx. rewrite !Hnot in Hx. lia.
  - pose proof (lxor_nonneg_bound a (Z.lnot b) 31 ltac:(lia)) as Hx.
    rewrite <- Z.lnot_lxor_r in Hx. rewrite !Hnot in Hx. lia.
  - pose proof (lxor_nonneg_bound a b 31 ltac:(lia)). lia.
Qed.

Lemma similarity_loop_bounds (ab : list (Z * Z)) (total_bits matching : Z) :
  Forall (fun p => int32 (fst p) /\ int32 (snd p)) ab ->
  0 <= matching <= total_bits ->
  let '(t, m) := similarity_loop ab total_bits matching in
  0 <= m <= t /\ total_bits <= t.
Proof.
  revert total_bits matching.
  induction ab as [| [a b] ab IH]; intros total_bits matching Hall Hm.
  - cbn. lia.
  - cbn [similarity_loop]. inversion Hall as [| ? ? [Ha Hb] Hrest]; subst.
    cbn [fst snd] in Ha, Hb.
    pose proof (lxor_int32 a b Ha Hb) as Hx. unfold int32 in Hx.
    pose proof (bin_count_ones_bounds (Z.lxor a b) ltac:(lia)) as Hc.
    specialize (IH (total_bits + 32)
                   (matching + (32 - bin_count_ones (Z.lxor a b)))
                   Hrest ltac:(lia)).
    destruct (similarity_loop ab (total_bits + 32)
                (matching + (32 - bin_count_ones (Z.lxor a b)))) as [t m].
    lia.
Qed.

(** X6.  For genomes of signed 32-bit genes the similarity is a fraction
    between 0 and 1. *)
Theorem genome_similarity_range (genome_a genome_b : list Z) :
  Forall int32 genome_a -> Forall int32 genome_b ->
  (0 <= genome_similarity (F := R) genome_a genome_b <= 1)%R.
Proof.
  intros Ha Hb. unfold genome_similarity.
  destruct genome_a as [| ga a]; [cbn; lra |].
  destruct genome_b as [| gb b]; [cbn; lra |].
  assert (Hall : Forall (fun p => int32 (fst p) /\ int32 (snd p))
                        (zip (ga :: a) (gb :: b))).
  { apply Forall_forall. intros [u v] Huv.
    apply list_elem_of_lookup in Huv. destruct Huv as [i Hi].
    apply lookup_zip_with_Some in Hi.
    destruct Hi as (u' & v' & [= <- <-] & Hu & Hv).
    rewrite Forall_forall in Ha, Hb. split; cbn.
    - apply Ha. apply list_elem_of_lookup. eauto.
    - apply Hb. apply list_elem_of_lookup. eauto. }
  pose proof (similarity_loop_bounds _ 0 0 Hall ltac:(lia)) as Hloop.
  destruct (similarity_loop (zip (ga :: a) (gb :: b)) 0 0) as [t m].
  destruct Hloop as [[Hm0 Hmt] Ht].
  destruct (Z.eqb_spec t 0) as [-> | Hne]; [cbn; lra |].
  cbn [fdiv of_int RealFloat].
  assert (0 < IZR t)%R by (apply IZR_lt; lia).
  apply IZR_le in Hm0, Hmt.
  split.
  - apply Rmult_le_pos; [assumption | left; now apply Rinv_0_lt_compat].
  - apply Rmult_le_reg_r with (IZR t); [assumption |].
    unfold Rdiv. rewrite Rmult_assoc, Rinv_l by lra. lra.
Qed.

Lemma genome_similarity_range_witness :
  (0 <= genome_similarity (F := R) [5; -7]%Z [-2147483648; 2147483647]%Z
   <= 1)%R.
Proof.
  apply (genome_similarity_range [5; -7] [-2147483648; 2147483647]);
    repeat constructor; unfold int32; lia.
Defined.

Lemma similarity_loop_complement (g : list Z) (total_bits matching : Z) :
  similarity_loop (zip g (map Z.lnot g)) total_bits matching
  = (total_bits + 32 * Z.of_nat (length g),
     matching + 31 * Z.of_nat (length g)).
Proof.
  revert total_bits matching.
  induction g as [| a g IH]; intros total_bits matching.
  - cbn. f_equal; lia.
  - cbn [map zip zip_with similarity_loop length].
    rewrite <- Z.lnot_lxor_r, Z.lxor_nilpotent.
    change (Z.lnot 0) with (-1). cbn [bin_count_ones pos_count_ones].
    change (zip_with pair g (map Z.lnot g)) with (zip g (map Z.lnot g)).
    rewrite IH. f_equal; lia.
Qed.

(** X7.  The ones are counted in the signed XOR: a genome and its
    bitwise complement, which differ in every bit, are at similarity
    [31/32] and not 0, because the XOR of a gene with its complement is
    [-1], whose [bin] has a single [1]. *)
Theorem genome_similarity_complement (g : list Z) :
  g <> [] ->
  genome_similarity (F := R) g (map Z.lnot g) = (31 / 32)%R.
Proof.
  intros Hne. destruct g as [| a g]; [congruence |].
  unfold genome_similarity. cbn [map].
  change (Z.lnot a :: map Z.lnot g) with (map Z.lnot (a :: g)).
  rewrite similarity_loop_complement.
  set (n := Z.of_nat (length (a :: g))).
  assert (Hn : 0 < n) by (subst n; cbn [length]; lia).
  destruct (Z.eqb_spec (0 + 32 * n) 0); [lia |].
  cbn [fdiv of_int RealFloat].
  rewrite !Z.add_0_l, !mult_IZR.
  assert (0 < IZR n)%R by (apply IZR_lt; lia).
  field. lra.
Qed.

Lemma genome_similarity_complement_witness :
  genome_similarity (F := R) [0; 123456] (map Z.lnot [0; 123456])
  = (31 / 32)%R.
Proof.
  apply (genome_similarity_complement [0; 123456]). discriminate.
Defined.

(** ** Random genomes, crossover and mutation *)

Section GenomeOperators.
Context {F G : Type} `{FloatOps F} `{RngOps G F}.
Implicit Types (m : Mem F G).

Lemma draw_eq {A} (f : G -> A * G) m :
  draw f m = Done (fst (f (rng (world m))))
                  (mkMem (heap m) (set_rng (snd (f (rng (world m)))) (world m))).
Proof. unfold draw. now destruct (f (rng (world m))). Qed.

Lemma draw_forget {A} (f : G -> A * G) m (a : A) m' :
  draw f m = Done a m' -> forget_rng m' = forget_rng m.
Proof. rewrite draw_eq. now intros [= _ <-]. Qed.

(** A loop whose body always returns, computes a pure function of the
    accumulator and keeps a property of the state, is the fold of that
    function. *)
Lemma for_fold_pure {S A B} (I : S -> Prop) (f : B -> A -> B)
    (body : B -> A -> M S B) (l : list A) :
  (forall acc a s, I s -> exists s', body acc a s = Done (f acc a) s' /\ I s') ->
  forall acc s, I s ->
    exists s', for_fold l acc body s = Done (fold_left f l acc) s' /\ I s'.
Proof.
  intros Hbody. induction l as [| a l IH]; intros acc s Hs.
  - exists s. now split.
  - destruct (Hbody acc a s Hs) as (s1 & Hb & Hs1).
    cbn [for_fold fold_left]. rewrite bind_eq, Hb. now apply IH.
Qed.

Lemma astype_int32_range (v : Z) : int32 (astype_int32 v).
Proof.
  unfold int32, astype_int32.
  pose proof (Z.mod_pos_bound (v + 2 ^ 31) (2 ^ 32) ltac:(lia)). lia.
Qed.

Lemma astype_int32_id (v : Z) : int32 v -> astype_int32 v = v.
Proof.
  unfold int32, astype_int32. intros Hv.
  rewrite Z.mod_small by lia. lia.
Qed.

End GenomeOperators.

(** X8.  [random_genome] with a negative size raises ValueError and
    leaves the memory as it was; with a size that is not negative it
    returns, every gene it returns is a signed 32-bit integer, and
    nothing but the generator has changed. *)
Theorem random_genome_spec {F G} `{FloatOps F} `{RngOps G F}
    (size : Z) (m : Mem F G) :
  (size < 0 -> random_genome size m = Raised ValueError m) /\
  (0 <= size ->
   exists genome m',
     random_genome size m = Done genome m' /\
     Forall int32 genome /\ forget_rng m' = forget_rng m).
Proof.
  unfold random_genome. split; intros Hsize.
  - destruct (Z.ltb_spec size 0); [reflexivity | lia].
  - destruct (Z.ltb_spec size 0); [lia |].
    rewrite bind_eq, draw_eq. eexists _, _. split; [reflexivity |].
    split; [| reflexivity].
    apply Forall_forall. intros g Hg.
    apply list_elem_of_In, in_map_iff in Hg. destruct Hg as (v & <- & _).
    apply astype_int32_range.
Qed.

Lemma random_genome_spec_witness :
  random_genome (-1) corner_world = Raised ValueError corner_world /\
  exists genome m',
    random_genome 3 corner_world = Done genome m' /\
    Forall int32 genome /\ forget_rng m' = forget_rng corner_world.
Proof.
  split.
  - apply (random_genome_spec (-1) corner_world). lia.
  - apply (random_genome_spec 3 corner_world). lia.
Defined.

Section CrossoverFacts.
Context {F G : Type} `{FloatOps F} `{RngOps G F}.

Lemma slice_nonneg {A} (l : list A) (k : Z) :
  0 <= k ->
  slice_to l k = take (Z.to_nat k) l /\ slice_from l k = drop (Z.to_nat k) l.
Proof.
  intros Hk. unfold slice_to, slice_from, slice_bound.
  destruct (Z.ltb_spec k 0); [lia | auto].
Qed.

Lemma crossover_eq (genome_a genome_b : list Z) (m : Mem F G) :
  let k := fst (rng_integers 0 (Z.of_nat (length genome_a) + 1)
                             (rng (world m))) in
  exists m',
    crossover genome_a genome_b m
    = Done (slice_to genome_a k ++ slice_from genome_b k) m' /\
    forget_rng m' = forget_rng m.
Proof.
  intros k. unfold crossover. rewrite bind_eq, draw_eq. fold k.
  eexists. split; reflexivity.
Qed.

End CrossoverFacts.

(** X9.  Crossover draws one split point [k] and returns the first [k]
    genes of parent A followed by parent B from position [k] on, touching
    nothing but the generator.  For parents of equal length and a split
    point within [0, size] the child has the parents' length; split 0
    gives parent B and split [size] gives parent A. *)
Theorem crossover_spec {F G} `{FloatOps F} `{RngOps G F}
    (genome_a genome_b : list Z) (m : Mem F G) :
  let size := Z.of_nat (length genome_a) in
  let k := fst (rng_integers 0 (size + 1) (rng (world m))) in
  0 <= k <= size -> length genome_b = length genome_a ->
  exists child m',
    crossover genome_a genome_b m = Done child m' /\
    forget_rng m' = forget_rng m /\
    child = take (Z.to_nat k) genome_a ++ drop (Z.to_nat k) genome_b /\
    length child = length genome_a /\
    (k = 0 -> child = genome_b) /\
    (k = size -> child = genome_a).
Proof.
  intros size k Hk Hlen. unfold crossover. fold size.
  rewrite bind_eq, draw_eq. fold k.
  eexists _, _. split; [reflexivity |]. split; [reflexivity |].
  assert (Eto : slice_to genome_a k = take (Z.to_nat k) genome_a).
  { unfold slice_to, slice_bound. destruct (Z.ltb_spec k 0); [lia | reflexivity]. }
  assert (Efrom : slice_from genome_b k = drop (Z.to_nat k) genome_b).
  { unfold slice_from, slice_bound. destruct (Z.ltb_spec k 0); [lia | reflexivity]. }
  rewrite Eto, Efrom. split_and!.
  - reflexivity.
  - rewrite length_app, length_take, length_drop. subst size. lia.
  - intros ->. reflexivity.
  - intros ->. subst size. rewrite Nat2Z.id, firstn_all.
    rewrite drop_ge by lia. apply app_nil_r.
Qed.

Lemma crossover_spec_witness :
  exists child m',
    crossover [1; 2; 3] [7; 8; 9] corner_world = Done child m' /\
    forget_rng m' = forget_rng corner_world /\
    length child = 3%nat.
Proof.
  destruct (crossover_spec [1; 2; 3] [7; 8; 9] corner_world)
    as (child & m' & Hrun & Hsame & _ & Hlen & _).
  - vm_compute. split; discriminate.
  - reflexivity.
  - exists child, m'. auto.
Defined.

Section Mutation.
Context {F G : Type} `{FloatOps F} `{RngOps G F}.
Implicit Types (m : Mem F G).

Lemma for_fold_total {S A B} (I : S -> Prop) (body : B -> A -> M S B)
    (l : list A) :
  (forall acc a s, I s -> exists acc' s', body acc a s = Done acc' s' /\ I s') ->
  forall acc s, I s ->
    exists acc' s', for_fold l acc body s = Done acc' s' /\ I s'.
Proof.
  intros Hbody. induction l as [| a l IH]; intros acc s Hs.
  - exists acc, s. now split.
  - destruct (Hbody acc a s Hs) as (acc1 & s1 & Hb & Hs1).
    cbn [for_fold]. rewrite bind_eq, Hb. now apply IH.
Qed.

Lemma wrap_int32_range (u : Z) : 0 <= u < 2 ^ 32 -> int32 (wrap_int32 u).
Proof.
  unfold int32, wrap_int32. intros Hu.
  destruct (Z.leb_spec 0x80000000 u); lia.
Qed.

Lemma land_mask32 (g : Z) : Z.land g 0xFFFFFFFF = g mod 2 ^ 32.
Proof. apply (Z.land_ones g 32). lia. Qed.

Lemma wrap_int32_land (g : Z) : int32 g -> wrap_int32 (Z.land g 0xFFFFFFFF) = g.
Proof.
  unfold int32, wrap_int32. intros Hg. rewrite land_mask32.
  destruct (Z.lt_ge_cases g 0).
  - replace (g mod 2 ^ 32) with (g + 2 ^ 32)
      by (apply Z.mod_unique with (-1); lia).
    destruct (Z.leb_spec 0x80000000 (g + 2 ^ 32)); lia.
  - rewrite Z.mod_small by lia.
    destruct (Z.leb_spec 0x80000000 g); lia.
Qed.

(** [mutate_gene] in terms of the value the bit loop computes. *)
Lemma mutate_gene_total (rate : F) (gene : Z) m :
  exists gene' m',
    mutate_gene rate gene m = Done gene' m' /\
    int32 gene' /\ forget_rng m' = forget_rng m.
Proof.
  unfold mutate_gene. cbn zeta.
  destruct (for_fold_total (fun s => forget_rng s = forget_rng m)
              (fun (gene0 : Z) (bit : Z) =>
                 r ← draw rng_random;
                 mret (if fltb r rate then Z.lxor gene0 (Z.shiftl 1 bit)
                       else gene0))
              (py_range 0 32)) with (acc := Z.land gene 0xFFFFFFFF) (s := m)
    as (g1 & m1 & Hloop & Hm1).
  - intros acc bit s Hs. rewrite bind_eq, draw_eq.
    eexists _, _. split; [reflexivity | exact Hs].
  - reflexivity.
  - rewrite bind_eq, Hloop. eexists _, _. split; [reflexivity |].
    split; [| exact Hm1].
    apply wrap_int32_range. rewrite land_mask32.
    apply Z.mod_pos_bound. lia.
Qed.

Lemma mutate_genome_loop (rate : F) (norm : Z -> Z) (genome : list Z) m0 :
  (forall gene m, forget_rng m = forget_rng m0 ->
     exists m', mutate_gene rate gene m = Done (norm gene) m' /\
                forget_rng m' = forget_rng m0) ->
  forall (acc : list Z) m, forget_rng m = forget_rng m0 ->
    exists m',
      for_fold genome acc
        (fun mutated gene =>
           gene' ← mutate_gene rate gene; mret (mutated ++ [gene'])) m
      = Done (acc ++ map norm genome) m' /\
      forget_rng m' = forget_rng m0.
Proof.
  intros Hgene. induction genome as [| g genome IH]; intros acc m Hm.
  - exists m. cbn. now rewrite app_nil_r.
  - destruct (Hgene g m Hm) as (m1 & Hg & Hm1).
    cbn [for_fold map]. rewrite bind_eq, bind_eq, Hg. cbn.
    destruct (IH (acc ++ [norm g]) m1 Hm1) as (m2 & Hrest & Hm2).
    exists m2. rewrite Hrest, <- app_assoc. now split.
Qed.

Lemma fold_lxor_shift (h : Z -> Z) (l : list Z) (g : Z) :
  fold_left (fun acc b => Z.lxor acc (h b)) l g
  = Z.lxor g (fold_left (fun acc b => Z.lxor acc (h b)) l 0).
Proof.
  revert g. induction l as [| a l IH]; intros g; cbn [fold_left].
  - now rewrite Z.lxor_0_r.
  - rewrite IH, (IH (Z.lxor 0 (h a))), Z.lxor_0_l. apply Z.lxor_assoc.
Qed.

Lemma flipped_pattern (g : Z) :
  Z.land (Z.lxor (Z.land g 0xFFFFFFFF) 0xFFFFFFFF) 0xFFFFFFFF
  = Z.land (Z.lnot g) 0xFFFFFFFF.
Proof.
  change 0xFFFFFFFF with (Z.ones 32).
  apply Z.bits_inj'. intros i Hi.
  rewrite !Z.land_spec, Z.lxor_spec, Z.land_spec, Z.lnot_spec by assumption.
  destruct (Z.lt_ge_cases i 32).
  - rewrite !Z.ones_spec_low by lia.
    now destruct (Z.testbit g i).
  - rewrite !Z.ones_spec_high by lia. now rewrite !andb_false_r.
Qed.

(** [mutate_genome] always returns, with a genome of the same length
    made of signed 32-bit genes, having touched only the generator. *)
Lemma mutate_genome_total (genome : list Z) (rate : F) m :
  exists mutated m',
    mutate_genome genome rate m = Done mutated m' /\
    length mutated = length genome /\
    Forall int32 mutated /\
    forget_rng m' = forget_rng m.
Proof.
  unfold mutate_genome.
  assert (Hloop : forall (l acc : list Z) (s : Mem F G),
            forget_rng s = forget_rng m ->
            exists out s',
              for_fold l acc
                (fun mutated gene =>
                   gene' ← mutate_gene rate gene; mret (mutated ++ [gene'])) s
              = Done (acc ++ out) s' /\
              length out = length l /\ Forall int32 out /\
              forget_rng s' = forget_rng m).
  { induction l as [| g l IH]; intros acc s Hs.
    - exists [], s. rewrite app_nil_r. now split_and!.
    - destruct (mutate_gene_total rate g s) as (g' & s1 & Hg & Hint & Hs1).
      cbn [for_fold]. rewrite bind_eq, bind_eq, Hg. cbn.
      destruct (IH (acc ++ [g']) s1 ltac:(congruence))
        as (out & s2 & Hrest & Hlen & Hall & Hs2).
      exists (g' :: out), s2. rewrite Hrest, <- app_assoc.
      split_and!; [reflexivity | cbn; now rewrite Hlen | now constructor
                  | exact Hs2]. }
  destruct (Hloop genome [] m eq_refl) as (out & m' & Hrun & Hlen & Hall & Hm').
  exists out, m'. now split_and!.
Qed.

End Mutation.

(** X10.  Whatever the rate and the random draws, [mutate_genome]
    returns a genome of the same length whose genes are signed 32-bit
    integers, and it changes nothing but the state of the generator. *)
Theorem mutate_genome_shape {F G} `{FloatOps F} `{RngOps G F}
    (genome : list Z) (rate : F) (m : Mem F G) :
  exists mutated m',
    mutate_genome genome rate m = Done mutated m' /\
    length mutated = length genome /\
    Forall int32 mutated /\
    forget_rng m' = forget_rng m.
Proof. apply mutate_genome_total. Qed.

(** X11.  When no draw falls below the rate (as with rate 0), mutation
    returns the genome it was given, gene for gene, for a genome of
    signed 32-bit genes. *)
Theorem mutate_genome_rate_zero {F G} `{FloatOps F} `{RngOps G F}
    (genome : list Z) (rate : F) (m : Mem F G) :
  (forall g : G, fltb (fst (rng_random g)) rate = false) ->
  Forall int32 genome ->
  exists m',
    mutate_genome genome rate m = Done genome m' /\
    forget_rng m' = forget_rng m.
Proof.
  intros Hno Hall. unfold mutate_genome.
  destruct (mutate_genome_loop rate
              (fun g => wrap_int32 (Z.land g 0xFFFFFFFF)) genome m)
    with (acc := @nil Z) (m := m) as (m' & Hrun & Hm').
  - intros gene s Hs. unfold mutate_gene. cbn zeta.
    destruct (for_fold_pure (fun s' => forget_rng s' = forget_rng m)
                (fun (g0 : Z) (_ : Z) => g0)
                (fun (gene0 : Z) (bit : Z) =>
                   r ← draw rng_random;
                   mret (if fltb r rate then Z.lxor gene0 (Z.shiftl 1 bit)
                         else gene0))
                (py_range 0 32))
      with (acc := Z.land gene 0xFFFFFFFF) (s := s) as (s1 & Hloop & Hs1).
    + intros acc bit s0 Hs0. rewrite bind_eq, draw_eq.
      eexists. split; [cbn; now rewrite Hno | exact Hs0].
    + exact Hs.
    + rewrite bind_eq, Hloop. eexists. split; [| exact Hs1]. cbn [mret M_ret].
      f_equal. unfold wrap_int32. cbn zeta.
      assert (Hid : forall (l : list Z) (a : Z),
                fold_left (fun (g0 : Z) (_ : Z) => g0) l a = a)
        by (induction l; intros; cbn; auto).
      rewrite Hid. change 0xFFFFFFFF with (Z.ones 32).
      now rewrite <- Z.land_assoc, Z.land_diag.
  - reflexivity.
  - exists m'. split; [| exact Hm']. rewrite Hrun. cbn [app]. f_equal.
    clear Hrun. induction Hall as [| g l Hg Hl IH]; [reflexivity |].
    cbn [map]. now rewrite wrap_int32_land, IH.
Qed.

(** X12.  When every draw falls below the rate (as with rate 1), mutation
    flips all 32 bits of every gene: a genome of signed 32-bit genes
    comes back as its bitwise complement. *)
Theorem mutate_genome_rate_one {F G} `{FloatOps F} `{RngOps G F}
    (genome : list Z) (rate : F) (m : Mem F G) :
  (forall g : G, fltb (fst (rng_random g)) rate = true) ->
  Forall int32 genome ->
  exists m',
    mutate_genome genome rate m = Done (map Z.lnot genome) m' /\
    forget_rng m' = forget_rng m.
Proof.
  intros Hall_flip Hall. unfold mutate_genome.
  destruct (mutate_genome_loop rate
              (fun g => wrap_int32 (Z.land (Z.lnot g) 0xFFFFFFFF)) genome m)
    with (acc := @nil Z) (m := m) as (m' & Hrun & Hm').
  - intros gene s Hs. unfold mutate_gene. cbn zeta.
    destruct (for_fold_pure (fun s' => forget_rng s' = forget_rng m)
                (fun (g0 : Z) (bit : Z) => Z.lxor g0 (Z.shiftl 1 bit))
                (fun (gene0 : Z) (bit : Z) =>
                   r ← draw rng_random;
                   mret (if fltb r rate then Z.lxor gene0 (Z.shiftl 1 bit)
                         else gene0))
                (py_range 0 32))
      with (acc := Z.land gene 0xFFFFFFFF) (s := s) as (s1 & Hloop & Hs1).
    + intros acc bit s0 Hs0. rewrite bind_eq, draw_eq.
      eexists. split; [cbn; now rewrite Hall_flip | exact Hs0].
    + exact Hs.
    + rewrite bind_eq, Hloop. eexists. split; [| exact Hs1]. cbn [mret M_ret].
      f_equal. unfold wrap_int32. cbn zeta.
      rewrite (fold_lxor_shift (fun bit => Z.shiftl 1 bit)).
      replace (fold_left (fun acc b : Z => Z.lxor acc (Z.shiftl 1 b))
                         (py_range 0 32) 0)
        with 0xFFFFFFFF by (vm_compute; reflexivity).
      now rewrite flipped_pattern.
  - reflexivity.
  - exists m'. split; [| exact Hm']. rewrite Hrun. cbn [app]. f_equal.
    clear Hrun. induction Hall as [| g l Hg Hl IH]; [reflexivity |].
    cbn [map]. rewrite IH. f_equal.
    apply wrap_int32_land. unfold int32, Z.lnot in *. lia.
Qed.

Lemma lcg_random_unit (g : Z) :
  (0 <= fst (rng_random (F := R) g) < 1)%R.
Proof.
  cbn [rng_random LcgRng fst fdiv of_int RealFloat].
  pose proof (Z.mod_pos_bound g 1000 ltac:(lia)) as [H0 H1].
  apply IZR_le in H0. apply IZR_lt in H1.
  split.
  - apply Rmult_le_pos; lra.
  - apply Rmult_lt_reg_r with 1000%R; [lra |].
    unfold Rdiv. rewrite Rmult_assoc, Rinv_l by lra. lra.
Qed.

Lemma mutate_genome_rate_zero_witness :
  exists m',
    mutate_genome [5; -7; 2147483647] 0%R corner_world
    = Done [5; -7; 2147483647] m' /\
    forget_rng m' = forget_rng corner_world.
Proof.
  apply (mutate_genome_rate_zero [5; -7; 2147483647] 0%R corner_world).
  - intros g. pose proof (lcg_random_unit g) as Hr.
    cbn [fltb RealFloat]. destruct (Rlt_dec _ 0); [lra | reflexivity].
  - repeat constructor; unfold int32; lia.
Defined.

Lemma mutate_genome_rate_one_witness :
  exists m',
    mutate_genome [5; -7; 2147483647] 1%R corner_world
    = Done (map Z.lnot [5; -7; 2147483647]) m' /\
    forget_rng m' = forget_rng corner_world.
Proof.
  apply (mutate_genome_rate_one [5; -7; 2147483647] 1%R corner_world).
  - intros g. pose proof (lcg_random_unit g) as Hr.
    cbn [fltb RealFloat]. destruct (Rlt_dec _ 1); [reflexivity | lra].
  - repeat constructor; unfold int32; lia.
Defined.

(** ** Grid world: placing, removing, killing, heading *)

Section GridOperations.
Context {F G : Type} `{FloatOps F} `{RngOps G F}.
Implicit Types (m : Mem F G).

Lemma world_eta (w : World G) : set_grid (_grid w) w = w.
Proof. now destruct w. Qed.

Lemma mem_eta m : mkMem (heap m) (world m) = m.
Proof. now destruct m. Qed.

(** [place_creature] in closed form on a well-shaped grid. *)
Lemma place_creature_eq (id : nat) (c : Creature F) m :
  grid_shape m -> heap m !! id = Some c ->
  place_creature id m =
  if _in_bounds (world m) (x c) (y c) then
    match cell_at (_grid (world m)) (Z.to_nat (x c)) (Z.to_nat (y c)) with
    | Some _ => Done false m
    | None =>
        Done true
          (mkMem (heap m)
             (set_grid
                (<[Z.to_nat (y c) :=
                     <[Z.to_nat (x c) := Some id]>
                       (default [] (_grid (world m) !! Z.to_nat (y c)))]>
                   (_grid (world m)))
                (world m)))
    end
  else Done false m.
Proof.
  intros [Hlen Hrows] Hc. unfold place_creature.
  rewrite bind_eq. unfold deref at 1. rewrite Hc.
  rewrite bind_eq. cbn [get_world].
  destruct (_in_bounds (world m) (x c) (y c)) eqn:Hb; [| reflexivity].
  apply in_bounds_nonneg in Hb. destruct Hb as [Hx Hy].
  rewrite bind_eq, grid_get_eq.
  rewrite (grid_read_in_range _ _ _ (x c) (y c) Hlen Hrows Hx Hy).
  destruct (cell_at (_grid (world m)) (Z.to_nat (x c)) (Z.to_nat (y c)));
    [reflexivity |].
  rewrite bind_eq, grid_set_eq.
  destruct (shape_row _ _ _ (y c) Hlen Hrows Hy) as (row & Hrow & Hl).
  unfold grid_write.
  rewrite (getitem_lookup _ (y c) row) by (lia || assumption).
  cbn [mbind result_bind]. rewrite setitem_nonneg by lia.
  cbn [mbind result_bind]. rewrite setitem_nonneg by lia.
  now rewrite Hrow.
Qed.

Lemma remove_creature_eq (id : nat) (c : Creature F) m :
  grid_shape m -> heap m !! id = Some c ->
  remove_creature id m =
  if _in_bounds (world m) (x c) (y c)
     && bool_decide (cell_at (_grid (world m)) (Z.to_nat (x c))
                             (Z.to_nat (y c)) = Some id)
  then
    Done tt
      (mkMem (heap m)
         (set_grid
            (<[Z.to_nat (y c) :=
                 <[Z.to_nat (x c) := None]>
                   (default [] (_grid (world m) !! Z.to_nat (y c)))]>
               (_grid (world m)))
            (world m)))
  else Done tt m.
Proof.
  intros [Hlen Hrows] Hc. unfold remove_creature.
  rewrite bind_eq. unfold deref at 1. rewrite Hc.
  rewrite bind_eq. cbn [get_world].
  destruct (_in_bounds (world m) (x c) (y c)) eqn:Hb; [| reflexivity].
  apply in_bounds_nonneg in Hb. destruct Hb as [Hx Hy].
  rewrite bind_eq, grid_get_eq.
  rewrite (grid_read_in_range _ _ _ (x c) (y c) Hlen Hrows Hx Hy).
  cbn [andb]. case_bool_decide; [| reflexivity].
  rewrite grid_set_eq.
  destruct (shape_row _ _ _ (y c) Hlen Hrows Hy) as (row & Hrow & Hl).
  unfold grid_write.
  rewrite (getitem_lookup _ (y c) row) by (lia || assumption).
  cbn [mbind result_bind]. rewrite setitem_nonneg by lia.
  cbn [mbind result_bind]. rewrite setitem_nonneg by lia.
  now rewrite Hrow.
Qed.

Lemma cell_at_insert (g : list (list (option nat))) (w h : Z) (px py : Z)
    (v : option nat) (cx cy : nat) :
  length g = Z.to_nat h ->
  Forall (fun row => length row = Z.to_nat w) g ->
  0 <= px < w -> 0 <= py < h ->
  cell_at (<[Z.to_nat py := <[Z.to_nat px := v]>
                              (default [] (g !! Z.to_nat py))]> g) cx cy
  = if decide (cy = Z.to_nat py /\ cx = Z.to_nat px) then v
    else cell_at g cx cy.
Proof.
  intros Hlen Hrows Hx Hy.
  destruct (shape_row g w h py Hlen Hrows Hy) as (row & Hrow & Hl).
  rewrite Hrow. change (default [] (Some row)) with row. apply cell_at_written; [assumption |].
  rewrite Hl. lia.
Qed.

Lemma shape_insert (g : list (list (option nat))) (w h : Z) (px py : Z)
    (v : option nat) :
  length g = Z.to_nat h ->
  Forall (fun row => length row = Z.to_nat w) g ->
  0 <= py < h ->
  length (<[Z.to_nat py := <[Z.to_nat px := v]>
                             (default [] (g !! Z.to_nat py))]> g)
  = Z.to_nat h /\
  Forall (fun row => length row = Z.to_nat w)
         (<[Z.to_nat py := <[Z.to_nat px := v]>
                             (default [] (g !! Z.to_nat py))]> g).
Proof.
  intros Hlen Hrows Hy.
  destruct (shape_row g w h py Hlen Hrows Hy) as (row & Hrow & Hl).
  rewrite Hrow. change (default [] (Some row)) with row. split.
  - now rewrite length_insert.
  - apply Forall_insert; [assumption |]. now rewrite length_insert.
Qed.

End GridOperations.

(** X13.  On a well-shaped grid [place_creature] never raises; it returns
    true exactly when the creature's stored position is in bounds and
    that cell is empty.  On true the cell references the creature and
    every other cell, the creatures and the grid's dimensions are as
    before; on false (out of bounds or occupied) nothing has changed. *)
Theorem place_creature_spec {F G} `{FloatOps F} `{RngOps G F}
    (m : Mem F G) (id : nat) (c : Creature F) :
  grid_shape m -> heap m !! id = Some c ->
  exists (ok : bool) (m' : Mem F G),
    place_creature id m = Done ok m' /\
    (ok = true <->
     _in_bounds (world m) (x c) (y c) = true /\
     cell_at (_grid (world m)) (Z.to_nat (x c)) (Z.to_nat (y c)) = None) /\
    (ok = false -> m' = m) /\
    (ok = true ->
     heap m' = heap m /\ grid_shape m' /\
     forall cx cy,
       cell_at (_grid (world m')) cx cy
       = if decide (cy = Z.to_nat (y c) /\ cx = Z.to_nat (x c)) then Some id
         else cell_at (_grid (world m)) cx cy).
Proof.
  intros Hshape Hc. rewrite (place_creature_eq id c m Hshape Hc).
  destruct Hshape as [Hlen Hrows].
  destruct (_in_bounds (world m) (x c) (y c)) eqn:Hb.
  - pose proof (in_bounds_nonneg _ _ _ Hb) as [Hx Hy].
    destruct (cell_at (_grid (world m)) (Z.to_nat (x c)) (Z.to_nat (y c)))
      as [other |] eqn:Hcell.
    + exists false, m. split_and!; try tauto; try discriminate.
      split; [discriminate | intros [_ ?]; discriminate].
    + eexists true, _. split_and!; try reflexivity; try tauto; try discriminate.
      intros _. cbn [heap world _grid set_grid width height].
      split_and!; [reflexivity | | ].
      * unfold grid_shape. cbn [world _grid set_grid width height].
        now apply shape_insert.
      * intros cx cy. now apply (cell_at_insert _ (width (world m))
                                               (height (world m))).
  - exists false, m. split_and!; try tauto; try discriminate.
    split; [discriminate | intros [? _]; discriminate].
Qed.

Lemma place_creature_spec_witness :
  exists (ok : bool) (m' : Mem R Z),
    place_creature 0 corner_world = Done ok m' /\ ok = false /\
    m' = corner_world.
Proof.
  destruct (place_creature_spec corner_world 0 (Creature_init 0 0 []))
    as (ok & m' & Hrun & Hiff & Hsame & _).
  - split; [reflexivity | repeat constructor].
  - apply lookup_singleton_eq.
  - exists ok, m'. destruct ok.
    + destruct (proj1 Hiff eq_refl) as [_ Hfree]. discriminate Hfree.
    + split_and!; [exact Hrun | reflexivity | exact (Hsame eq_refl)].
Defined.

(** X14.  On a well-shaped grid [remove_creature] never raises and never
    touches the creatures.  If the cell at the creature's stored position
    references that creature, the cell is emptied and no other cell
    changes; otherwise (out of bounds, empty cell, or a cell that holds
    another creature) nothing changes at all. *)
Theorem remove_creature_spec {F G} `{FloatOps F} `{RngOps G F}
    (m : Mem F G) (id : nat) (c : Creature F) :
  grid_shape m -> heap m !! id = Some c ->
  exists m' : Mem F G,
    remove_creature id m = Done tt m' /\
    heap m' = heap m /\ grid_shape m' /\
    (placed m id ->
     forall cx cy,
       cell_at (_grid (world m')) cx cy
       = if decide (cy = Z.to_nat (y c) /\ cx = Z.to_nat (x c)) then None
         else cell_at (_grid (world m)) cx cy) /\
    (~ placed m id -> m' = m).
Proof.
  intros Hshape Hc. rewrite (remove_creature_eq id c m Hshape Hc).
  destruct (_in_bounds (world m) (x c) (y c)) eqn:Hb; cbn [andb].
  - pose proof (in_bounds_nonneg _ _ _ Hb) as [Hx Hy].
    case_bool_decide as Hcell.
    + destruct Hshape as [Hlen Hrows].
      eexists. split_and!; try reflexivity.
      * unfold grid_shape. cbn [world _grid set_grid width height].
        now apply shape_insert.
      * intros _ cx cy. cbn [world _grid set_grid].
        now apply (cell_at_insert _ (width (world m)) (height (world m))).
      * intros Hnot. exfalso. apply Hnot. exists c. split_and!; auto; lia.
    + exists m. split_and!; try reflexivity; try assumption.
      intros (c' & Hc' & _ & _ & Hcell'). exfalso.
      assert (c' = c) by congruence. subst c'. contradiction.
  - exists m. split_and!; try reflexivity; try assumption.
    intros Hpl. destruct (placed_in_range m id c Hshape Hc Hpl)
      as (Hx & Hy & _).
    unfold _in_bounds in Hb.
    destruct (Z.leb_spec 0 (x c)), (Z.ltb_spec (x c) (width (world m))),
             (Z.leb_spec 0 (y c)), (Z.ltb_spec (y c) (height (world m)));
      cbn in Hb; (discriminate || lia).
Qed.

Lemma remove_creature_spec_witness :
  exists m' : Mem R Z,
    remove_creature 0 corner_world = Done tt m' /\
    heap m' = heap corner_world /\
    cell_at (_grid (world m')) 0 0 = None.
Proof.
  destruct (remove_creature_spec corner_world 0 (Creature_init 0 0 []))
    as (m' & Hrun & Hheap & _ & Hcells & _).
  - split; [reflexivity | repeat constructor].
  - apply lookup_singleton_eq.
  - exists m'. split_and!; [exact Hrun | exact Hheap |].
    rewrite Hcells.
    + reflexivity.
    + exists (Creature_init 0 0 []). cbn. split_and!; auto; lia.
Defined.

(** X15.  Placing a creature on a free in-bounds cell and then removing
    it gives the state back exactly. *)
Theorem place_then_remove {F G} `{FloatOps F} `{RngOps G F}
    (m : Mem F G) (id : nat) (c : Creature F) :
  grid_shape m -> heap m !! id = Some c ->
  _in_bounds (world m) (x c) (y c) = true ->
  cell_at (_grid (world m)) (Z.to_nat (x c)) (Z.to_nat (y c)) = None ->
  (place_creature id ;; remove_creature id) m = Done tt m.
Proof.
  intros Hshape Hc Hb Hfree. rewrite bind_eq.
  rewrite (place_creature_eq id c m Hshape Hc), Hb, Hfree.
  pose proof (in_bounds_nonneg _ _ _ Hb) as [Hx Hy].
  destruct Hshape as [Hlen Hrows].
  destruct (shape_row _ _ _ (y c) Hlen Hrows Hy) as (row & Hrow & Hl).
  set (m1 := mkMem (heap m) _).
  assert (Hshape1 : grid_shape m1).
  { unfold grid_shape, m1. cbn [world _grid set_grid width height].
    now apply shape_insert. }
  rewrite (remove_creature_eq id c m1 Hshape1 Hc).
  assert (Hb1 : _in_bounds (world m1) (x c) (y c) = true) by exact Hb.
  rewrite Hb1. cbn [andb].
  assert (Hcell1 : cell_at (_grid (world m1)) (Z.to_nat (x c))
                           (Z.to_nat (y c)) = Some id).
  { unfold m1. cbn [world _grid set_grid].
    rewrite (cell_at_insert _ (width (world m)) (height (world m)))
      by assumption.
    now rewrite decide_True. }
  rewrite bool_decide_eq_true_2 by exact Hcell1.
  f_equal. unfold m1. cbn [heap world _grid set_grid width height rng
                             creatures murder_count].
  rewrite Hrow. change (default [] (Some row)) with row.
  rewrite list_lookup_insert_eq by (apply lookup_lt_Some in Hrow; lia).
  match goal with |- context [default [] (Some ?r)] =>
    change (default [] (Some r)) with r end.
  rewrite !list_insert_insert_eq.
  assert (Hv : row !! Z.to_nat (x c) = Some None).
  { unfold cell_at in Hfree. rewrite Hrow in Hfree.
    destruct (lookup_lt_is_Some_2 row (Z.to_nat (x c))) as [v Hv]; [lia |].
    rewrite Hv in Hfree. now subst v. }
  rewrite (list_insert_id row) by exact Hv.
  rewrite (list_insert_id (_grid (world m))) by exact Hrow.
  destruct m as [hp w]. destruct w. reflexivity.
Qed.

Lemma place_then_remove_witness :
  (place_creature 0 ;; remove_creature 0) fresh_world = Done tt fresh_world.
Proof.
  apply (place_then_remove fresh_world 0 (Creature_init 1 1 [])).
  - split; [reflexivity | repeat constructor].
  - apply lookup_singleton_eq.
  - reflexivity.
  - reflexivity.
Defined.

Section Killing.
Context {F G : Type} `{FloatOps F} `{RngOps G F}.
Implicit Types (m : Mem F G).

Lemma kill_creature_at_eq (px py : Z) m :
  grid_shape m ->
  kill_creature_at px py m =
  if _in_bounds (world m) px py then
    match cell_at (_grid (world m)) (Z.to_nat px) (Z.to_nat py) with
    | Some v =>
        match heap m !! v with
        | Some c =>
            if alive c then
              Done tt
                (mkMem (<[v := set_alive false c]> (heap m))
                   (set_murder_count (murder_count (world m) + 1)
                      (set_grid
                         (<[Z.to_nat py :=
                              <[Z.to_nat px := None]>
                                (default [] (_grid (world m) !! Z.to_nat py))]>
                            (_grid (world m)))
                         (world m))))
            else Done tt m
        | None => Raised NoSuchObject m
        end
    | None => Done tt m
    end
  else Done tt m.
Proof.
  intros [Hlen Hrows]. unfold kill_creature_at.
  rewrite bind_eq. cbn [get_world].
  destruct (_in_bounds (world m) px py) eqn:Hb; [| reflexivity].
  cbn [negb]. apply in_bounds_nonneg in Hb. destruct Hb as [Hx Hy].
  rewrite bind_eq, grid_get_eq.
  rewrite (grid_read_in_range _ _ _ px py Hlen Hrows Hx Hy).
  destruct (cell_at (_grid (world m)) (Z.to_nat px) (Z.to_nat py)) as [v |];
    [| reflexivity].
  rewrite bind_eq. unfold deref at 1.
  destruct (heap m !! v) as [c |] eqn:Hv; [| reflexivity].
  destruct (alive c); [| reflexivity].
  rewrite bind_eq. unfold assign at 1. rewrite Hv.
  rewrite bind_eq, grid_set_eq. cbn [heap world].
  destruct (shape_row _ _ _ py Hlen Hrows Hy) as (row & Hrow & Hl).
  unfold grid_write.
  rewrite (getitem_lookup _ py row) by (lia || assumption).
  cbn [mbind result_bind]. rewrite setitem_nonneg by lia.
  cbn [mbind result_bind]. rewrite setitem_nonneg by lia.
  unfold modify_world. cbn [heap world]. now rewrite Hrow.
Qed.

End Killing.

(** X16.  On a well-shaped, consistent grid [kill_creature_at] never
    raises and keeps the grid well shaped and consistent.  If the
    position is in bounds and its cell holds a creature that is alive,
    that creature (and no other object) is marked dead, the cell is
    emptied, no other cell changes and the murder counter goes up by
    exactly one; a grid that referenced living creatures only still
    does.  In every other case (out of bounds, empty cell, dead
    occupant) the state is unchanged. *)
Theorem kill_creature_at_spec {F G} `{FloatOps F} `{RngOps G F}
    (m : Mem F G) (px py : Z) :
  grid_shape m -> grid_consistent m ->
  exists m' : Mem F G,
    kill_creature_at px py m = Done tt m' /\
    grid_shape m' /\ grid_consistent m' /\ (grid_alive m -> grid_alive m') /\
    match (if _in_bounds (world m) px py
           then cell_at (_grid (world m)) (Z.to_nat px) (Z.to_nat py)
           else None) with
    | Some v =>
        exists c, heap m !! v = Some c /\
          if alive c then
            heap m' = <[v := set_alive false c]> (heap m) /\
            murder_count (world m') = murder_count (world m) + 1 /\
            forall cx cy,
              cell_at (_grid (world m')) cx cy
              = if decide (cy = Z.to_nat py /\ cx = Z.to_nat px) then None
                else cell_at (_grid (world m)) cx cy
          else m' = m
    | None => m' = m
    end.
Proof.
  intros Hshape HI. rewrite (kill_creature_at_eq px py m Hshape).
  destruct (_in_bounds (world m) px py) eqn:Hb;
    [| exists m; split_and!; auto].
  pose proof (in_bounds_nonneg _ _ _ Hb) as [Hx Hy].
  destruct (cell_at (_grid (world m)) (Z.to_nat px) (Z.to_nat py))
    as [v |] eqn:Hcell; [| exists m; split_and!; auto].
  destruct (HI _ _ _ Hcell) as (c & Hv & Hcx & Hcy). rewrite Hv.
  destruct (alive c) eqn:Halive.
  - destruct Hshape as [Hlen Hrows].
    assert (Hcells : forall cx cy,
      cell_at (<[Z.to_nat py := <[Z.to_nat px := None]>
                   (default [] (_grid (world m) !! Z.to_nat py))]>
                 (_grid (world m))) cx cy
      = if decide (cy = Z.to_nat py /\ cx = Z.to_nat px) then None
        else cell_at (_grid (world m)) cx cy).
    { intros cx cy.
      now apply (cell_at_insert _ (width (world m)) (height (world m))). }
    eexists. split_and!; try reflexivity.
    + unfold grid_shape.
      cbn [world _grid set_grid set_murder_count width height].
      now apply shape_insert.
    + intros cx cy id.
      cbn [heap world _grid set_grid set_murder_count]. rewrite Hcells.
      case_decide as Hd; [discriminate |]. intros Hid.
      destruct (HI _ _ _ Hid) as (c0 & Hc0 & Hx0 & Hy0).
      destruct (decide (id = v)) as [-> | Hne].
      * exists (set_alive false c). rewrite lookup_insert_eq.
        assert (c0 = c) by congruence. subst c0. now destruct c.
      * exists c0. now rewrite lookup_insert_ne by congruence.
    + intros HA cx cy id.
      cbn [heap world _grid set_grid set_murder_count]. rewrite Hcells.
      case_decide as Hd; [discriminate |]. intros Hid.
      destruct (decide (id = v)) as [-> | Hne].
      * exfalso. apply Hd.
        destruct (HI _ _ _ Hid) as (c0 & Hc0 & Hx0 & Hy0).
        assert (c0 = c) by congruence. subst c0. lia.
      * destruct (HA _ _ _ Hid) as (c0 & Hc0 & Ha0).
        exists c0. now rewrite lookup_insert_ne by congruence.
    + exists c. rewrite Halive. split_and!; [reflexivity ..|].
      exact Hcells.
  - exists m. split_and!; auto. exists c. now rewrite Halive.
Qed.

Lemma kill_creature_at_spec_witness :
  exists m' : Mem R Z,
    kill_creature_at 1 0 duel_world = Done tt m' /\
    murder_count (world m') = 1 /\
    cell_at (_grid (world m')) 1 0 = None /\
    cell_at (_grid (world m')) 0 0 = Some 0%nat.
Proof.
  assert (Hshape : grid_shape duel_world)
    by (split; [reflexivity | repeat constructor]).
  assert (HI : grid_consistent duel_world).
  { intros cx cy id Hcell.
    destruct cx as [| [| cx]], cy as [| [| cy]]; cbn in Hcell;
      try discriminate; injection Hcell as <-.
    - exists (Creature_init 0 0 []). split; [| auto].
      apply lookup_insert_eq.
    - exists (Creature_init 1 0 []). split; [| auto].
      unfold duel_world. cbn [heap].
      rewrite lookup_insert_ne by discriminate. apply lookup_singleton_eq. }
  destruct (kill_creature_at_spec duel_world 1 0 Hshape HI)
    as (m' & Hrun & _ & _ & _ & Hcase).
  exists m'. cbn in Hcase. destruct Hcase as (c & Hc & Hkill).
  rewrite lookup_insert_ne in Hc by discriminate.
  rewrite lookup_singleton_eq in Hc. injection Hc as <-.
  cbn [alive Creature_init] in Hkill.
  destruct Hkill as (_ & Hcount & Hcells).
  split_and!; [exact Hrun | exact Hcount | |]; now rewrite Hcells.
Defined.

Section Heading.
Context {F G : Type} `{FloatOps F} `{RngOps G F}.
Implicit Types (m : Mem F G).

(** Every non-zero displacement has its pair of signs among the eight
    directions. *)
Lemma find_dir_sign (dx dy : Z) :
  dx <> 0 \/ dy <> 0 ->
  exists i, find_dir DIRS 0 (sign dx) (sign dy) = Some i /\
            0 <= i < 8 /\
            DIRS !! Z.to_nat i = Some (sign dx, sign dy).
Proof.
  intros Hnz. unfold sign.
  destruct (Z.ltb_spec 0 dx), (Z.ltb_spec dx 0),
           (Z.ltb_spec 0 dy), (Z.ltb_spec dy 0); try lia;
    cbn; eexists; (split; [reflexivity | split; [lia | reflexivity]]).
Qed.

(** The direction at a valid index is found again at that index. *)
Lemma find_dir_DIRS (i : Z) (d : Z * Z) :
  getitem DIRS i = Ok d -> 0 <= i ->
  find_dir DIRS 0 (sign (fst d)) (sign (snd d)) = Some i.
Proof.
  intros Hd Hi. apply getitem_Ok in Hd. destruct Hd as (n & Hn & Hd).
  apply py_index_Some_nonneg in Hn; [| assumption].
  assert (Hi' : i = Z.of_nat n) by lia. subst i. clear Hn Hi.
  destruct n as [| [| [| [| [| [| [| [| n]]]]]]]];
    cbn in Hd; try discriminate Hd; injection Hd as <-; reflexivity.
Qed.

(** On a well-shaped grid a move of a creature whose position is in
    bounds either leaves the state as it is or installs the moved
    creature: the target cell was empty, the creature's old cell is
    emptied, the target references the creature and no other cell
    changes. *)
Lemma move_creature_cases (id : nat) (dx dy : Z) m (c : Creature F) :
  grid_shape m -> heap m !! id = Some c ->
  0 <= x c < width (world m) -> 0 <= y c < height (world m) ->
  let nx := Z.max 0 (Z.min (width (world m) - 1) (x c + dx)) in
  let ny := Z.max 0 (Z.min (height (world m) - 1) (y c + dy)) in
  move_creature id dx dy m = Done false m \/
  (nx, ny) <> (x c, y c) /\
  exists g2,
    move_creature id dx dy m
    = Done true (mkMem (<[id := moved_creature nx ny dx dy c]> (heap m))
                       (set_grid g2 (world m))) /\
    length g2 = Z.to_nat (height (world m)) /\
    Forall (fun row => length row = Z.to_nat (width (world m))) g2 /\
    cell_at (_grid (world m)) (Z.to_nat nx) (Z.to_nat ny) = None /\
    forall cx cy,
      cell_at g2 cx cy
      = if decide (cy = Z.to_nat ny /\ cx = Z.to_nat nx) then Some id
        else if decide (cy = Z.to_nat (y c) /\ cx = Z.to_nat (x c)) then None
             else cell_at (_grid (world m)) cx cy.
Proof.
  intros [Hlen Hrows] Hc Hx Hy nx ny.
  rewrite (move_creature_eq id dx dy m c Hc). cbn zeta. fold nx. fold ny.
  assert (Hnx : 0 <= nx < width (world m)) by (subst nx; lia).
  assert (Hny : 0 <= ny < height (world m)) by (subst ny; lia).
  destruct ((nx =? x c) && (ny =? y c)) eqn:Esame; [now left |].
  rewrite (grid_read_in_range _ _ _ nx ny Hlen Hrows Hnx Hny).
  destruct (cell_at (_grid (world m)) (Z.to_nat nx) (Z.to_nat ny)) eqn:Htarget;
    [now left |].
  destruct (grid_write_in_range (_grid (world m)) _ _ (x c) (y c) None
              Hlen Hrows Hx Hy) as (g1 & -> & Hlen1 & Hrows1 & Hcells1).
  destruct (grid_write_in_range g1 _ _ nx ny (Some id)
              Hlen1 Hrows1 Hnx Hny) as (g2 & -> & Hlen2 & Hrows2 & Hcells2).
  right. split.
  - intros [= Ex Ey]. rewrite Ex, Ey, !Z.eqb_refl in Esame. discriminate.
  - exists g2. split_and!; auto.
    intros cx cy. rewrite Hcells2. case_decide; [reflexivity |].
    apply Hcells1.
Qed.

Lemma moved_creature_pos (nx ny dx dy : Z) (c : Creature F) :
  x (moved_creature nx ny dx dy c) = nx /\
  y (moved_creature nx ny dx dy c) = ny.
Proof.
  unfold moved_creature.
  destruct (negb (dx =? 0) || negb (dy =? 0));
    [destruct (find_dir DIRS 0 (sign dx) (sign dy)) |]; now destruct c.
Qed.

Lemma moved_creature_heading (nx ny dx dy : Z) (c : Creature F) :
  dx <> 0 \/ dy <> 0 ->
  find_dir DIRS 0 (sign dx) (sign dy)
  = Some (last_dir (moved_creature nx ny dx dy c)).
Proof.
  intros Hnz. unfold moved_creature.
  assert (E : negb (dx =? 0) || negb (dy =? 0) = true).
  { destruct (Z.eqb_spec dx 0), (Z.eqb_spec dy 0); cbn; auto; lia. }
  rewrite E. destruct (find_dir_sign dx dy Hnz) as (i & -> & _).
  now destruct c.
Qed.

End Heading.

(** X17.  When [move_creature] succeeds for a non-zero displacement, the
    creature's heading afterwards is the index of the direction made of
    the signs of the requested displacement; its stored position is the
    boundary-clamped target.  The heading follows the request, not the
    realised move: the magnitudes and any clamping are ignored. *)
Theorem move_creature_heading {F G} `{FloatOps F} `{RngOps G F}
    (m m' : Mem F G) (id : nat) (c : Creature F) (dx dy : Z) :
  heap m !! id = Some c -> dx <> 0 \/ dy <> 0 ->
  move_creature id dx dy m = Done true m' ->
  exists c', heap m' !! id = Some c' /\
    (x c', y c') = clamped_target (world m) c dx dy /\
    0 <= last_dir c' < 8 /\
    getitem DIRS (last_dir c') = Ok (sign dx, sign dy).
Proof.
  intros Hc Hnz. rewrite (move_creature_eq id dx dy m c Hc). cbn zeta.
  destruct (_ && _); [discriminate |].
  destruct (grid_read _ _ _) as [[other |] | e]; try discriminate.
  destruct (grid_write _ _ _ None) as [g1 | e]; [| discriminate].
  destruct (grid_write g1 _ _ _) as [g2 | e]; [| discriminate].
  intros [= <-]. eexists. cbn [heap]. rewrite lookup_insert_eq.
  split; [reflexivity |].
  pose proof (moved_creature_pos
                (Z.max 0 (Z.min (width (world m) - 1) (x c + dx)))
                (Z.max 0 (Z.min (height (world m) - 1) (y c + dy)))
                dx dy c) as [-> ->].
  split; [reflexivity |].
  pose proof (moved_creature_heading
                (Z.max 0 (Z.min (width (world m) - 1) (x c + dx)))
                (Z.max 0 (Z.min (height (world m) - 1) (y c + dy)))
                dx dy c Hnz) as Hfind.
  destruct (find_dir_sign dx dy Hnz) as (i & Hi & Hrange & Hdir).
  rewrite Hi in Hfind. injection Hfind as <-.
  split; [exact Hrange |]. apply getitem_lookup; [lia | exact Hdir].
Qed.

Lemma move_creature_heading_witness :
  exists (m' : Mem R Z) (c' : Creature R),
    move_creature 0 5 (-3) corner_world = Done true m' /\
    heap m' !! 0%nat = Some c' /\
    (x c', y c') = (1, 0) /\ last_dir c' = 7.
Proof.
  destruct (move_creature 0 5 (-3) corner_world) as [[|] m' | e m'] eqn:Hrun;
    [| exfalso; vm_compute in Hrun; discriminate Hrun ..].
  destruct (move_creature_heading corner_world m' 0 (Creature_init 0 0 [])
              5 (-3)) as (c' & Hc' & Hpos & Hrange & Hdir).
  - apply lookup_singleton_eq.
  - left; lia.
  - exact Hrun.
  - exists m', c'. split_and!; [reflexivity | exact Hc' | exact Hpos |].
    apply find_dir_DIRS in Hdir; [| lia]. cbn in Hdir.
    injection Hdir as Hdir. lia.
Defined.

(** ** Creatures: stepping and turning *)

(** X18.  A living creature cannot take a step in a world that is one
    cell wide or one cell high: the position sensors divide by
    [W - 1] and [H - 1], so [step] raises ZeroDivisionError.  The age
    has been incremented by then and nothing else has changed. *)
Theorem step_degenerate_world {F G} `{FloatOps F} `{RngOps G F}
    (KILL_ENABLED : bool) (m : Mem F G) (id : nat) (c : Creature F)
    (sim_step : Z) :
  heap m !! id = Some c -> alive c = true ->
  width (world m) = 1 \/ height (world m) = 1 ->
  step KILL_ENABLED id sim_step m
  = Raised ZeroDivisionError
      (mkMem (<[id := set_age (age c + 1) c]> (heap m)) (world m)).
Proof.
  intros Hc Halive Hdeg. unfold step.
  rewrite bind_eq. unfold deref at 1. rewrite Hc, Halive. cbn [negb].
  rewrite bind_eq. unfold assign at 1. rewrite Hc.
  rewrite bind_eq. unfold _sense.
  rewrite bind_eq. cbn [get_world world heap].
  rewrite bind_eq. unfold deref at 1. cbn [heap]. rewrite lookup_insert_eq.
  rewrite bind_eq. unfold int_truediv at 1.
  destruct (Z.eqb_spec (width (world m) - 1) 0) as [E | E]; [reflexivity |].
  match goal with
  | |- context [lift_result (Ok ?a) ?s] =>
      change (lift_result (Ok a) s) with (Done (S := Mem F G) a s)
  end.
  cbv beta iota. rewrite bind_eq. unfold int_truediv at 1.
  destruct (Z.eqb_spec (height (world m) - 1) 0) as [E' | E'];
    [reflexivity | lia].
Qed.

Lemma step_degenerate_world_witness :
  exists m' : Mem R Z,
    step false 0 0 cell_world = Raised ZeroDivisionError m' /\
    age <$> heap m' !! 0%nat = Some 1.
Proof.
  eexists. split.
  - apply (step_degenerate_world false cell_world 0 (Creature_init 0 0 [])).
    + apply lookup_singleton_eq.
    + reflexivity.
    + left. reflexivity.
  - cbn [heap]. now rewrite lookup_insert_eq.
Defined.

Section Turning.
Context {F G : Type} `{FloatOps F} `{RngOps G F}.
Implicit Types (m : Mem F G).

Lemma DIRS_nonzero (i : Z) (d : Z * Z) :
  getitem DIRS i = Ok d -> fst d <> 0 \/ snd d <> 0.
Proof.
  intros Hd. apply getitem_Ok in Hd. destruct Hd as (n & _ & Hd).
  destruct n as [| [| [| [| [| [| [| [| n]]]]]]]];
    cbn in Hd; try discriminate Hd; injection Hd as <-; cbn; lia.
Qed.

(** Moving along the heading leaves the heading as it is, whether the
    move succeeds or is blocked. *)
Lemma move_along_heading_heading (id : nat) m (c : Creature F) :
  grid_shape m -> heap m !! id = Some c ->
  0 <= x c < width (world m) -> 0 <= y c < height (world m) ->
  0 <= last_dir c < 8 ->
  exists (moved : bool) m' c',
    move_along_heading id m = Done moved m' /\
    heap m' !! id = Some c' /\ last_dir c' = last_dir c.
Proof.
  intros Hshape Hc Hx Hy Hdir. unfold move_along_heading.
  rewrite bind_eq. unfold deref at 1. rewrite Hc.
  destruct (getitem_nonneg DIRS (last_dir c)) as (d & _ & Hd);
    [cbn; lia |].
  rewrite bind_eq, Hd.
  change (lift_result (Ok d) m) with (Done (S := Mem F G) d m).
  cbv beta iota.
  destruct (move_creature_cases id (fst d) (snd d) m c Hshape Hc Hx Hy)
    as [-> | (_ & g2 & -> & _)].
  - exists false, m, c. auto.
  - eexists true, _, _. split; [reflexivity |]. cbn [heap].
    rewrite lookup_insert_eq. split; [reflexivity |].
    pose proof (moved_creature_heading
                  (Z.max 0 (Z.min (width (world m) - 1) (x c + fst d)))
                  (Z.max 0 (Z.min (height (world m) - 1) (y c + snd d)))
                  (fst d) (snd d) c (DIRS_nonzero _ _ Hd)) as Hfind.
    rewrite (find_dir_DIRS _ _ Hd) in Hfind by lia. congruence.
Qed.

End Turning.

(** X19.  For a creature inside a well-shaped grid with a heading in
    [0, 8): the actions move-forward (3), turn-left (4), turn-right (5)
    and reverse (6) never raise, and afterwards the heading is the old
    one plus 0, -1, +1 and +4 modulo 8 respectively, whether the move
    that follows the turn succeeded or was blocked. *)
Theorem turn_actions_heading {F G} `{FloatOps F} `{RngOps G F}
    (KILL_ENABLED : bool) (m : Mem F G) (id : nat) (c : Creature F)
    (action_id delta : Z) (strength : F) :
  grid_shape m -> heap m !! id = Some c ->
  0 <= x c < width (world m) -> 0 <= y c < height (world m) ->
  0 <= last_dir c < 8 ->
  (action_id, delta) ∈ [(3, 0); (4, -1); (5, 1); (6, 4)] ->
  exists m' c',
    _execute_action KILL_ENABLED id action_id strength m = Done tt m' /\
    heap m' !! id = Some c' /\
    last_dir c' = (last_dir c + delta) mod 8.
Proof.
  intros Hshape Hc Hx Hy Hdir Hact.
  assert (Hturn : forall k : Z,
    exists m' c',
      (assign id (fun c => set_last_dir ((last_dir c + k) mod 8) c) ;;
       move_along_heading id ;; mret tt) m = Done tt m' /\
      heap m' !! id = Some c' /\ last_dir c' = (last_dir c + k) mod 8).
  { intros k. rewrite bind_eq. unfold assign at 1. rewrite Hc.
    set (c1 := set_last_dir ((last_dir c + k) mod 8) c).
    set (m1 := mkMem (<[id := c1]> (heap m)) (world m)).
    assert (Hc1 : heap m1 !! id = Some c1) by apply lookup_insert_eq.
    assert (Hpos : x c1 = x c /\ y c1 = y c /\
                   last_dir c1 = (last_dir c + k) mod 8)
      by (subst c1; now destruct c).
    destruct Hpos as (Ex & Ey & Ed).
    destruct (move_along_heading_heading id m1 c1) as
      (moved & m' & c' & Hrun & Hc' & Hd'); try assumption; try lia.
    - rewrite Ed. apply Z.mod_pos_bound. lia.
    - exists m', c'. rewrite bind_eq, Hrun. split_and!; auto; congruence. }
  unfold _execute_action.
  repeat (apply elem_of_cons in Hact; destruct Hact as [[= -> ->] | Hact]);
    [| | | | now apply elem_of_nil in Hact]; cbn [Z.eqb Pos.eqb].
  - destruct (move_along_heading_heading id m c)
      as (moved & m' & c' & Hrun & Hc' & Hd'); try assumption.
    exists m', c'. rewrite bind_eq, Hrun. split_and!; auto.
    rewrite Z.add_0_r, Z.mod_small by lia. exact Hd'.
  - exact (Hturn (-1)).
  - exact (Hturn 1).
  - exact (Hturn 4).
Qed.

Lemma turn_actions_heading_witness :
  exists (m' : Mem R Z) (c' : Creature R),
    _execute_action false 0 4 1%R corner_world = Done tt m' /\
    heap m' !! 0%nat = Some c' /\ last_dir c' = 7.
Proof.
  apply (turn_actions_heading false corner_world 0 (Creature_init 0 0 [])
           4 (-1) 1%R).
  - split; [reflexivity | repeat constructor].
  - apply lookup_singleton_eq.
  - cbn. lia.
  - cbn. lia.
  - cbn. lia.
  - set_solver.
Defined.

(** ** The simulation controller *)

Section Selection.
Context {F G : Type} `{FloatOps F} `{RngOps G F}.
Implicit Types (m : Mem F G).

Lemma select_loop (self : Simulation F) (W Hh : Z) m (creatures : list nat) :
  (forall id, id ∈ creatures -> is_Some (heap m !! id)) ->
  forall acc,
    for_fold creatures acc (fun survivors id =>
      c ← deref id;
      if negb (alive c) then mret survivors
      else if selected self W Hh c then mret (survivors ++ [id])
           else mret survivors) m
    = Done (acc ++ List.filter (survives self m W Hh) creatures) m.
Proof.
  induction creatures as [| id rest IH]; intros Hheap acc.
  - cbn. now rewrite app_nil_r.
  - cbn [for_fold List.filter]. rewrite bind_eq, bind_eq.
    destruct (Hheap id) as [c Hc]; [set_solver |].
    unfold deref at 1. unfold survives at 1. rewrite Hc.
    assert (Hrest : forall id', id' ∈ rest -> is_Some (heap m !! id'))
      by (intros; apply Hheap; set_solver).
    destruct (alive c); cbn [negb andb].
    + destruct (selected self W Hh c).
      * rewrite ret_eq, (IH Hrest). now rewrite <- app_assoc.
      * rewrite ret_eq. apply (IH Hrest).
    + rewrite ret_eq. apply (IH Hrest).
Qed.

End Selection.

(** X20.  Selection is a filter: for creatures that all exist,
    [_select] returns, in their original order, exactly the creatures
    that are alive and pass the position test of the selection mode; it
    changes nothing. *)
Theorem select_spec {F G} `{FloatOps F} `{RngOps G F}
    (self : Simulation F) (creatures : list nat) (m : Mem F G) :
  (forall id, id ∈ creatures -> is_Some (heap m !! id)) ->
  _select self creatures m
  = Done (List.filter
            (survives self m (width (world m)) (height (world m)))
            creatures) m.
Proof.
  intros Hheap. unfold _select. rewrite bind_eq. cbn [get_world].
  apply (select_loop self _ _ m creatures Hheap []).
Qed.

Lemma select_spec_witness :
  _select (mkSimulation 2 1 0 0 0%R "east" 2 2 (Some 42)) [0%nat; 1%nat]
          duel_world
  = Done [1%nat] duel_world.
Proof.
  rewrite (select_spec _ [0%nat; 1%nat] duel_world).
  - reflexivity.
  - intros id Hid. unfold duel_world. cbn [heap].
    apply elem_of_cons in Hid. destruct Hid as [-> | Hid].
    + rewrite lookup_insert_eq. eauto.
    + apply list_elem_of_singleton in Hid. subst id.
      rewrite lookup_insert_ne by discriminate.
      rewrite lookup_singleton_eq. eauto.
Defined.

Section Reproduction.
Context {F G : Type} `{FloatOps F} `{RngOps G F}.
Implicit Types (m : Mem F G).

Lemma forget_rng_heap m m' : forget_rng m' = forget_rng m -> heap m' = heap m.
Proof. unfold forget_rng. now intros [= -> _ _ _ _ _]. Qed.

(** The breeding loop: with enough fuel it returns, having appended
    well-formed children until the batch has [population] genomes. *)
Lemma reproduce_loop_total (self : Simulation F) (survivors : list nat)
    (L : nat) m0 :
  survivors <> [] ->
  (forall id, id ∈ survivors ->
     exists c, heap m0 !! id = Some c /\ length (genome c) = L) ->
  (forall (lo hi : Z) (g : G),
     lo < hi -> lo <= fst (rng_integers lo hi g) < hi) ->
  forall (fuel : nat) (acc : list (list Z)) m,
    forget_rng m = forget_rng m0 ->
    Forall (fun g => length g = L /\ Forall int32 g) acc ->
    exists out m',
      reproduce_loop fuel self survivors acc m = Done out m' /\
      forget_rng m' = forget_rng m0 /\
      Forall (fun g => length g = L /\ Forall int32 g) out /\
      Z.of_nat (length out)
      = Z.max (Z.of_nat (length acc))
              (Z.min (Z.of_nat (length acc) + Z.of_nat fuel)
                     (population self)).
Proof.
  intros Hne Hheap Hrng.
  assert (Hn : 0 < Z.of_nat (length survivors))
    by (destruct survivors; [contradiction | cbn; lia]).
  assert (Hpick : forall g : G,
            exists id c,
              getitem survivors
                (fst (rng_integers 0 (Z.of_nat (length survivors)) g))
              = Ok id /\
              heap m0 !! id = Some c /\ length (genome c) = L).
  { intros g.
    destruct (getitem_nonneg survivors
                (fst (rng_integers 0 (Z.of_nat (length survivors)) g)))
      as (id & Hlook & Hget); [apply Hrng; lia |].
    destruct (Hheap id) as (c & Hc & HL);
      [now apply list_elem_of_lookup_2 in Hlook |].
    now exists id, c. }
  induction fuel as [| fuel IH]; intros acc m Hm Hacc.
  - exists acc, m. cbn [reproduce_loop]. rewrite ret_eq.
    split_and!; auto. lia.
  - cbn [reproduce_loop].
    destruct (Z.ltb_spec (Z.of_nat (length acc)) (population self));
      [| exists acc, m; rewrite ret_eq; split_and!; auto; lia].
    rewrite bind_eq, draw_eq.
    destruct (Hpick (rng (world m))) as (pa & ca & -> & Hca & HLa).
    rewrite bind_eq, lift_Ok. cbv beta iota.
    rewrite bind_eq, draw_eq. cbn [world rng set_rng heap].
    destruct (Hpick (snd (rng_integers 0 (Z.of_nat (length survivors))
                                       (rng (world m)))))
      as (pb & cb & -> & Hcb & HLb).
    rewrite bind_eq, lift_Ok. cbv beta iota.
    pose proof (forget_rng_heap _ _ Hm) as Hheapm.
    rewrite <- Hheapm in Hca, Hcb.
    rewrite bind_eq. unfold deref at 1. cbn [heap]. rewrite Hca.
    rewrite bind_eq. unfold deref at 1. cbn [heap]. rewrite Hcb.
    rewrite bind_eq.
    match goal with
    | |- context [crossover (genome ca) (genome cb) ?s] =>
        destruct (crossover_eq (genome ca) (genome cb) s)
          as (m3 & Hcross & Hm3);
        set (k := fst (rng_integers 0 (Z.of_nat (length (genome ca)) + 1)
                                    (rng (world s)))) in *
    end.
    assert (Hk : 0 <= k <= Z.of_nat (length (genome ca))).
    { subst k.
      match goal with
      | |- context [rng_integers 0 ?hi ?g] =>
          pose proof (Hrng 0 hi g ltac:(lia))
      end. lia. }
    rewrite Hcross.
    destruct (slice_nonneg (genome ca) k) as [-> _]; [lia |].
    destruct (slice_nonneg (genome cb) k) as [_ ->]; [lia |].
    destruct (mutate_genome_total
                (take (Z.to_nat k) (genome ca)
                 ++ drop (Z.to_nat k) (genome cb))
                (mutation_rate self) m3)
      as (child & m4 & Hmut & Hlen & Hint & Hm4).
    rewrite bind_eq, Hmut.
    destruct (IH (acc ++ [child]) m4) as (out & m' & Hrun & Hm' & Hout & Hcount).
    + rewrite Hm4, Hm3. exact Hm.
    + apply Forall_app. split; [assumption |]. constructor; [| constructor].
      split; [| assumption].
      rewrite Hlen, length_app, length_take, length_drop. lia.
    + exists out, m'. split_and!; auto.
      rewrite Hcount, length_app. cbn [length]. lia.
Qed.

End Reproduction.

(** X21.  Bred from a non-empty list of survivors whose genomes all
    have [L] genes, with a generator whose [integers(lo, hi)] lies in
    [lo, hi): [_reproduce] returns exactly [population] genomes (none
    when the population is not positive), each with [L] signed 32-bit
    genes, and changes nothing but the generator. *)
Theorem reproduce_batch {F G} `{FloatOps F} `{RngOps G F}
    (self : Simulation F) (survivors : list nat) (L : nat) (m : Mem F G) :
  survivors <> [] ->
  (forall id, id ∈ survivors ->
     exists c, heap m !! id = Some c /\ length (genome c) = L) ->
  (forall (lo hi : Z) (g : G),
     lo < hi -> lo <= fst (rng_integers lo hi g) < hi) ->
  exists genomes m',
    _reproduce self survivors m = Done genomes m' /\
    Z.of_nat (length genomes) = Z.max 0 (population self) /\
    Forall (fun g => length g = L /\ Forall int32 g) genomes /\
    forget_rng m' = forget_rng m.
Proof.
  intros Hne Hheap Hrng.
  destruct (reproduce_loop_total self survivors L m Hne Hheap Hrng
              (Z.to_nat (population self)) [] m eq_refl (Forall_nil_2 _))
    as (out & m' & Hrun & Hm' & Hout & Hcount).
  cbn [length] in Hcount.
  assert (Hrep : _reproduce self survivors m
                 = (new_genomes ← reproduce_loop (Z.to_nat (population self))
                                    self survivors [];
                    mret (slice_to new_genomes (population self))) m)
    by (destruct survivors; [contradiction | reflexivity]).
  rewrite Hrep, bind_eq, Hrun, ret_eq.
  exists (slice_to out (population self)), m'.
  assert (Hslice : slice_to out (population self) = out).
  { unfold slice_to, slice_bound.
    destruct (Z.ltb_spec (population self) 0).
    - assert (length out = 0%nat) by lia.
      destruct out; [apply take_nil | discriminate].
    - apply take_ge. lia. }
  rewrite Hslice. split_and!; auto. lia.
Qed.

Lemma reproduce_batch_witness :
  exists genomes (m' : Mem R Z),
    _reproduce (mkSimulation 3 1 0 0 0%R "east" 2 2 (Some 42))
               [0%nat; 1%nat] duel_world = Done genomes m' /\
    Z.of_nat (length genomes) = 3 /\
    forget_rng m' = forget_rng duel_world.
Proof.
  destruct (reproduce_batch (mkSimulation 3 1 0 0 0%R "east" 2 2 (Some 42))
              [0%nat; 1%nat] 0 duel_world)
    as (genomes & m' & Hrun & Hlen & _ & Hm').
  - discriminate.
  - intros id Hid. unfold duel_world. cbn [heap].
    apply elem_of_cons in Hid. destruct Hid as [-> | Hid].
    + rewrite lookup_insert_eq. eauto.
    + apply list_elem_of_singleton in Hid. subst id.
      rewrite lookup_insert_ne by discriminate.
      rewrite lookup_singleton_eq. eauto.
  - intros lo hi g Hlt. cbn [rng_integers LcgRng fst].
    pose proof (Z.mod_pos_bound g (hi - lo)). lia.
  - exists genomes, m'. auto.
Defined.

Section Radiation.
Context {F G : Type} `{FloatOps F} `{RngOps G F}.
Implicit Types (m : Mem F G).

Lemma no_revival_refl m : no_revival m m.
Proof. split_and!; auto. intros id c Hc. exists c. auto. Qed.

Lemma no_revival_trans m1 m2 m3 :
  no_revival m1 m2 -> no_revival m2 m3 -> no_revival m1 m3.
Proof.
  intros (Hw1 & Hh1 & H1) (Hw2 & Hh2 & H2). split_and!; [congruence ..|].
  intros id c Hc.
  destruct (H1 id c Hc) as (c2 & Hc2 & Hx2 & Hy2 & Hg2 & Ha2).
  destruct (H2 id c2 Hc2) as (c3 & Hc3 & Hx3 & Hy3 & Hg3 & Ha3).
  exists c3. split_and!; auto; congruence.
Qed.

(** Replacing a creature by one with the same position and genome that
    is no more alive than before. *)
Lemma no_revival_insert m (id : nat) (c c' : Creature F) (w : World G) :
  heap m !! id = Some c ->
  x c' = x c -> y c' = y c -> genome c' = genome c ->
  (alive c' = true -> alive c = true) ->
  width w = width (world m) -> height w = height (world m) ->
  no_revival m (mkMem (<[id := c']> (heap m)) w).
Proof.
  intros Hc Hx Hy Hg Ha Hw Hh. split_and!; [assumption ..|].
  intros id0 c0 Hc0. cbn [heap].
  destruct (decide (id0 = id)) as [-> | Hne].
  - exists c'. rewrite lookup_insert_eq.
    assert (c0 = c) by congruence. subst c0. auto.
  - exists c0. rewrite lookup_insert_ne by congruence. auto.
Qed.

Lemma cell_at_in_range (g : list (list (option nat))) (w h : Z)
    (cx cy id : nat) :
  length g = Z.to_nat h ->
  Forall (fun row => length row = Z.to_nat w) g ->
  cell_at g cx cy = Some id ->
  (Z.of_nat cx < w /\ Z.of_nat cy < h).
Proof.
  intros Hlen Hrows Hcell. unfold cell_at in Hcell.
  destruct (g !! cy) as [row |] eqn:Hrow; [| discriminate].
  destruct (row !! cx) as [v |] eqn:Hv; [| discriminate].
  pose proof (lookup_lt_Some _ _ _ Hrow).
  pose proof (lookup_lt_Some _ _ _ Hv).
  rewrite Forall_forall in Hrows.
  assert (length row = Z.to_nat w)
    by (apply Hrows, list_elem_of_lookup; eauto).
  lia.
Qed.

(** The body of the radiation loop for one creature. *)
Lemma radiate_one (dose : Creature F -> F) (id : nat) m :
  grid_shape m -> grid_consistent m -> grid_alive m ->
  is_Some (heap m !! id) ->
  exists m',
    (c ← deref id;
     if negb (alive c) then mret tt
     else
       assign id (fun c0 =>
         set_radiation_dose (fadd (radiation_dose c0) (dose c)) c0) ;;
       c ← deref id;
       if fgtb (radiation_dose c) RADIO_MAX_DOSE then
         assign id (set_alive false) ;; remove_creature id
       else mret tt) m = Done tt m' /\
    grid_shape m' /\ grid_consistent m' /\ grid_alive m' /\
    no_revival m m' /\ rng (world m') = rng (world m).
Proof.
  intros Hshape HI HA [c Hc].
  rewrite bind_eq. unfold deref at 1. rewrite Hc.
  destruct (alive c) eqn:Halive; cbn [negb];
    [| exists m; rewrite ret_eq; split_and!; auto using no_revival_refl].
  rewrite bind_eq. unfold assign at 1. rewrite Hc.
  set (c1 := set_radiation_dose (fadd (radiation_dose c) (dose c)) c).
  assert (Hc1 : x c1 = x c /\ y c1 = y c /\ genome c1 = genome c /\
                alive c1 = alive c) by (subst c1; now destruct c).
  destruct Hc1 as (Ex1 & Ey1 & Eg1 & Ea1).
  set (m1 := mkMem (<[id := c1]> (heap m)) (world m)).
  assert (Hshape1 : grid_shape m1) by exact Hshape.
  assert (HI1 : grid_consistent m1).
  { intros cx cy id0 Hcell. destruct (HI cx cy id0 Hcell) as (c0 & Hc0 & Hp).
    unfold m1. cbn [heap]. destruct (decide (id0 = id)) as [-> | Hne].
    - exists c1. rewrite lookup_insert_eq.
      assert (c0 = c) by congruence. subst c0.
      split; [reflexivity | lia].
    - exists c0. now rewrite lookup_insert_ne by congruence. }
  assert (HA1 : grid_alive m1).
  { intros cx cy id0 Hcell. destruct (HA cx cy id0 Hcell) as (c0 & Hc0 & Ha0).
    unfold m1. cbn [heap]. destruct (decide (id0 = id)) as [-> | Hne].
    - exists c1. rewrite lookup_insert_eq. split; congruence.
    - exists c0. now rewrite lookup_insert_ne by congruence. }
  assert (HR1 : no_revival m m1).
  { apply (no_revival_insert m id c c1); auto; congruence. }
  assert (Hm1 : heap m1 !! id = Some c1) by apply lookup_insert_eq.
  rewrite bind_eq. unfold deref at 1. rewrite Hm1.
  destruct (fgtb (radiation_dose c1) RADIO_MAX_DOSE);
    [| exists m1; rewrite ret_eq; split_and!; auto].
  rewrite bind_eq. unfold assign at 1. rewrite Hm1.
  unfold m1 at 1 2. cbn [heap world]. rewrite insert_insert_eq.
  set (c2 := set_alive false c1).
  assert (Hc2 : x c2 = x c /\ y c2 = y c /\ genome c2 = genome c /\
                alive c2 = false) by (subst c2 c1; now destruct c).
  destruct Hc2 as (Ex2 & Ey2 & Eg2 & Ea2).
  set (m2 := mkMem (<[id := c2]> (heap m)) (world m)).
  assert (Hc2 : heap m2 !! id = Some c2) by apply lookup_insert_eq.
  assert (Hshape2 : grid_shape m2) by exact Hshape.
  rewrite (remove_creature_eq id c2 m2 Hshape2 Hc2).
  assert (HR2 : forall w, width w = width (world m) ->
                height w = height (world m) ->
                no_revival m (mkMem (<[id := c2]> (heap m)) w)).
  { intros w Hw Hh. apply (no_revival_insert m id c c2); auto; congruence. }
  assert (Hother : forall cx cy id0,
            cell_at (_grid (world m)) cx cy = Some id0 -> id0 <> id ->
            (exists c0, heap m2 !! id0 = Some c0 /\
                        x c0 = Z.of_nat cx /\ y c0 = Z.of_nat cy) /\
            (exists c0, heap m2 !! id0 = Some c0 /\ alive c0 = true)).
  { intros cx cy id0 Hcell Hne.
    destruct (HI cx cy id0 Hcell) as (c0 & Hc0 & Hp).
    destruct (HA cx cy id0 Hcell) as (c0' & Hc0' & Ha0).
    assert (c0' = c0) by congruence. subst c0'.
    split; exists c0; unfold m2; cbn [heap];
      now rewrite lookup_insert_ne by congruence. }
  destruct (_in_bounds (world m2) (x c2) (y c2)
            && bool_decide (cell_at (_grid (world m2)) (Z.to_nat (x c2))
                                    (Z.to_nat (y c2)) = Some id)) eqn:Hon.
  - (* the creature is on the grid: its cell is emptied *)
    apply andb_true_iff in Hon. destruct Hon as [Hb _].
    pose proof (in_bounds_nonneg _ _ _ Hb) as [Hx Hy].
    destruct Hshape as [Hlen Hrows].
    assert (Hcells : forall cx cy,
      cell_at (<[Z.to_nat (y c2) := <[Z.to_nat (x c2) := None]>
                   (default [] (_grid (world m) !! Z.to_nat (y c2)))]>
                 (_grid (world m))) cx cy
      = if decide (cy = Z.to_nat (y c2) /\ cx = Z.to_nat (x c2)) then None
        else cell_at (_grid (world m)) cx cy).
    { intros cx cy.
      now apply (cell_at_insert _ (width (world m)) (height (world m))). }
    eexists. split; [reflexivity |].
    assert (Hgone : forall cx cy,
              cell_at (_grid (world m)) cx cy = Some id ->
              cy = Z.to_nat (y c2) /\ cx = Z.to_nat (x c2)).
    { intros cx cy Hcell. destruct (HI cx cy id Hcell) as (c0 & Hc0 & Hp).
      assert (c0 = c) by congruence. subst c0. lia. }
    split_and!.
    + unfold grid_shape. cbn [world _grid set_grid width height m2].
      now apply shape_insert.
    + intros cx cy id0. cbn [heap world _grid set_grid m2]. rewrite Hcells.
      case_decide as Hd; [discriminate |]. intros Hcell.
      destruct (decide (id0 = id)) as [-> | Hne];
        [exfalso; apply Hd; now apply Hgone |].
      exact (proj1 (Hother cx cy id0 Hcell Hne)).
    + intros cx cy id0. cbn [heap world _grid set_grid m2]. rewrite Hcells.
      case_decide as Hd; [discriminate |]. intros Hcell.
      destruct (decide (id0 = id)) as [-> | Hne];
        [exfalso; apply Hd; now apply Hgone |].
      exact (proj2 (Hother cx cy id0 Hcell Hne)).
    + now apply HR2.
    + reflexivity.
  - (* the creature is not on the grid: nothing to empty *)
    exists m2. split; [reflexivity |].
    assert (Hnot : forall cx cy,
              cell_at (_grid (world m)) cx cy <> Some id).
    { intros cx cy Hcell.
      destruct (HI cx cy id Hcell) as (c0 & Hc0 & Hx0 & Hy0).
      assert (c0 = c) by congruence. subst c0.
      destruct Hshape as [Hlen Hrows].
      destruct (cell_at_in_range _ _ _ _ _ _ Hlen Hrows Hcell) as [Hcx Hcy].
      apply andb_false_iff in Hon. destruct Hon as [Hb | Hcell'].
      - unfold _in_bounds, m2 in Hb. cbn [world] in Hb.
        rewrite Ex2, Ey2 in Hb.
        destruct (Z.leb_spec 0 (x c)), (Z.ltb_spec (x c) (width (world m))),
                 (Z.leb_spec 0 (y c)), (Z.ltb_spec (y c) (height (world m)));
          cbn in Hb; (discriminate || lia).
      - apply bool_decide_eq_false in Hcell'. apply Hcell'.
        unfold m2. cbn [world]. rewrite Ex2, Ey2, Hx0, Hy0, !Nat2Z.id.
        exact Hcell. }
    split_and!.
    + exact Hshape2.
    + intros cx cy id0 Hcell.
      destruct (decide (id0 = id)) as [-> | Hne];
        [now destruct (Hnot cx cy) |].
      exact (proj1 (Hother cx cy id0 Hcell Hne)).
    + intros cx cy id0 Hcell.
      destruct (decide (id0 = id)) as [-> | Hne];
        [now destruct (Hnot cx cy) |].
      exact (proj2 (Hother cx cy id0 Hcell Hne)).
    + now apply HR2.
    + reflexivity.
Qed.

Lemma no_revival_heap m m' (id : nat) :
  no_revival m m' -> is_Some (heap m !! id) -> is_Some (heap m' !! id).
Proof.
  intros (_ & _ & Hall) [c Hc]. destruct (Hall id c Hc) as (c' & Hc' & _).
  eauto.
Qed.

End Radiation.

(** X22.  A radiation pass over existing creatures never raises.  It
    keeps the grid well shaped and consistent, and a grid that
    references living creatures only still does: a creature killed by
    its dose is taken off its cell.  No creature is moved, changes its
    genome or comes back to life, and the generator is not used. *)
Theorem apply_radiation_invariant {F G} `{FloatOps F} `{RngOps G F}
    (self : Simulation F) (creatures : list nat) (step : Z) (m : Mem F G) :
  grid_shape m -> grid_consistent m -> grid_alive m ->
  (forall id, id ∈ creatures -> is_Some (heap m !! id)) ->
  exists m',
    _apply_radiation self creatures step m = Done tt m' /\
    grid_shape m' /\ grid_consistent m' /\ grid_alive m' /\
    no_revival m m' /\ rng (world m') = rng (world m).
Proof.
  intros Hshape HI HA Hheap. unfold _apply_radiation.
  rewrite bind_eq. cbn [get_world].
  cbv zeta. generalize (width (world m)). intros W.
  set (west_active := step <? steps_per_gen self / 2).
  revert m Hshape HI HA Hheap.
  induction creatures as [| id rest IH]; intros m Hshape HI HA Hheap.
  - exists m. cbn [for_each]. rewrite ret_eq.
    split_and!; auto using no_revival_refl.
  - cbn [for_each]. rewrite bind_eq.
    destruct (radiate_one
                (fun c => fmul (fexp (fmul (fneg RADIO_FALLOFF)
                                (of_int (if west_active then x c
                                         else W - 1 - x c))))
                               (flit 1 100))
                id m Hshape HI HA)
      as (m1 & Hrun1 & Hshape1 & HI1 & HA1 & HR1 & Hrng1);
      [apply Hheap; set_solver |].
    rewrite Hrun1.
    destruct (IH m1 Hshape1 HI1 HA1) as (m' & Hrun & Hs & Hc & Ha & HR & Hrng).
    + intros id0 Hid0. apply (no_revival_heap m m1 id0 HR1).
      apply Hheap. set_solver.
    + exists m'. split_and!; auto.
      * now apply (no_revival_trans m m1 m').
      * congruence.
Qed.

Lemma apply_radiation_invariant_witness :
  exists m' : Mem R Z,
    _apply_radiation (mkSimulation 2 1 4 0 0%R "radioactive" 2 2 (Some 42))
                     [0%nat; 1%nat] 0 duel_world = Done tt m' /\
    grid_consistent m' /\ grid_alive m' /\ no_revival duel_world m'.
Proof.
  assert (H0 : heap duel_world !! 0%nat = Some (Creature_init 0 0 []))
    by apply lookup_insert_eq.
  assert (H1 : heap duel_world !! 1%nat = Some (Creature_init 1 0 [])).
  { unfold duel_world. cbn [heap].
    rewrite lookup_insert_ne by discriminate. apply lookup_singleton_eq. }
  destruct (apply_radiation_invariant
              (mkSimulation 2 1 4 0 0%R "radioactive" 2 2 (Some 42))
              [0%nat; 1%nat] 0 duel_world)
    as (m' & Hrun & _ & HI & HA & HR & _).
  - split; [reflexivity | repeat constructor].
  - intros cx cy id Hcell.
    destruct cx as [| [| cx]], cy as [| [| cy]]; cbn in Hcell;
      try discriminate; injection Hcell as <-; eauto.
  - intros cx cy id Hcell.
    destruct cx as [| [| cx]], cy as [| [| cy]]; cbn in Hcell;
      try discriminate; injection Hcell as <-; eauto.
  - intros id Hid. apply elem_of_cons in Hid. destruct Hid as [-> | Hid].
    + eauto.
    + apply list_elem_of_singleton in Hid. subst id. eauto.
  - exists m'. auto.
Defined.

(** ** Colours *)

Lemma fold_xor24_acc (genome : list Z) (h : Z) :
  fold_xor24 genome h = Z.lxor h (fold_xor24 genome 0).
Proof.
  revert h. induction genome as [| g rest IH]; intros h; cbn [fold_xor24].
  - now rewrite Z.lxor_0_r.
  - rewrite (IH (Z.lxor h _)), (IH (Z.lxor 0 _)), Z.lxor_0_l.
    now rewrite Z.lxor_assoc.
Qed.

Lemma fold_xor24_perm (a b : list Z) (h : Z) :
  a ≡ₚ b -> fold_xor24 a h = fold_xor24 b h.
Proof.
  intros Hp. revert h.
  induction Hp as [| g a b Hp IH | g1 g2 a | a b c Hab IHab Hbc IHbc];
    intros h; cbn [fold_xor24].
  - reflexivity.
  - apply IH.
  - f_equal. rewrite !Z.lxor_assoc. f_equal. apply Z.lxor_comm.
  - now rewrite IHab.
Qed.

(** X23.  Every channel of the colour of a genome lies in [50, 255]; the
    empty genome is mid-grey. *)
Theorem genome_to_color_range (genome : list Z) :
  let '(r, g, b) := genome_to_color genome in
  50 <= r <= 255 /\ 50 <= g <= 255 /\ 50 <= b <= 255 /\
  (genome = [] -> (r, g, b) = (128, 128, 128)).
Proof.
  destruct genome as [| g0 rest]; [cbn; split_and!; auto; lia |].
  unfold genome_to_color.
  set (h := fold_xor24 (g0 :: rest) 0).
  pose proof (land_ones_bounds (Z.shiftr h 16) 8 ltac:(lia)) as Hr.
  pose proof (land_ones_bounds (Z.shiftr h 8) 8 ltac:(lia)) as Hg.
  pose proof (land_ones_bounds h 8 ltac:(lia)) as Hb.
  change (Z.ones 8) with 0xFF in Hr, Hg, Hb.
  change (2 ^ 8) with 256 in Hr, Hg, Hb.
  split_and!; try lia. discriminate.
Qed.

(** X24.  The colour does not depend on the order of the genes: two
    genomes that are permutations of each other get the same colour. *)
Theorem genome_to_color_perm (genome_a genome_b : list Z) :
  genome_a ≡ₚ genome_b ->
  genome_to_color genome_a = genome_to_color genome_b.
Proof.
  intros Hp. unfold genome_to_color.
  destruct genome_a as [| a ra], genome_b as [| b rb].
  - reflexivity.
  - now apply Permutation_nil_cons in Hp.
  - symmetry in Hp. now apply Permutation_nil_cons in Hp.
  - now rewrite (fold_xor24_perm _ _ 0 Hp).
Qed.

Lemma genome_to_color_perm_witness :
  genome_to_color [0x123456; -7; 0xABCDEF] = genome_to_color [-7; 0xABCDEF; 0x123456].
Proof.
  apply genome_to_color_perm.
  change [0x123456; -7; 0xABCDEF] with ([0x123456] ++ [-7; 0xABCDEF]).
  change [-7; 0xABCDEF; 0x123456] with ([-7; 0xABCDEF] ++ [0x123456]).
  apply Permutation_app_comm.
Defined.

(** ** Brains *)

Section PruningTwice.
Context {F : Type} `{FloatOps F}.

Lemma useful_pruned (conns : list (Connection F)) (i : Z) :
  Useful (_prune_dead_ends conns) i <-> Useful conns i.
Proof.
  split; intros Hu.
  - induction Hu as [c Hc Es Ek | c Hc Es Ek Hu IH].
    + apply prune_dead_ends_member in Hc. destruct Hc as [Hc _].
      now apply (Useful_direct conns c).
    + apply prune_dead_ends_member in Hc. destruct Hc as [Hc _].
      now apply (Useful_via conns c).
  - induction Hu as [c Hc Es Ek | c Hc Es Ek Hu IH].
    + apply (Useful_direct _ c); try assumption.
      apply prune_dead_ends_member. auto.
    + apply (Useful_via _ c); try assumption.
      apply prune_dead_ends_member. auto.
Qed.

Lemma useful_set_pruned (conns : list (Connection F)) :
  useful_set (_prune_dead_ends conns) = useful_set conns.
Proof.
  apply set_eq. intros i.
  rewrite (proj2 (useful_loop_terminates (_prune_dead_ends conns))).
  rewrite (proj2 (useful_loop_terminates conns)).
  apply useful_pruned.
Qed.

End PruningTwice.

(** X25.  Pruning is idempotent: pruning an already pruned connection
    list removes nothing more, and the useful neurons of the pruned list
    are those of the original. *)
Theorem prune_dead_ends_idempotent {F} `{FloatOps F}
    (connections : list (Connection F)) :
  _prune_dead_ends (_prune_dead_ends connections)
  = _prune_dead_ends connections /\
  useful_set (_prune_dead_ends connections) = useful_set connections.
Proof.
  split; [| apply useful_set_pruned].
  rewrite (prune_dead_ends_filter (_prune_dead_ends connections)).
  rewrite useful_set_pruned.
  rewrite (prune_dead_ends_filter connections).
  rewrite list_filter_filter. apply list_filter_iff. tauto.
Qed.

Section IdleBrain.

Lemma no_action_connections {F} `{FloatOps F} (genome : list Z) :
  Forall (fun g => sink_type (decode_gene (F := F) g) = 0) genome ->
  _connections (NeuralNetwork_init (F := F) genome) = [].
Proof.
  intros Hall. cbn [NeuralNetwork_init _connections].
  unfold _prune_dead_ends.
  assert (Hall' : Forall (fun c : Connection F => sink_type c = 0)
                         (_parse_genome genome)).
  { unfold _parse_genome. apply Forall_forall.
    intros c Hc. apply list_elem_of_In, in_map_iff in Hc.
    destruct Hc as (g & <- & Hg).
    rewrite Forall_forall in Hall. apply Hall. now apply list_elem_of_In. }
  rewrite useful_set_no_action by assumption.
  induction Hall' as [| c l Hc Hl IH]; [reflexivity |].
  rewrite filter_cons_False; [exact IH |].
  unfold keep_connection. rewrite Hc. cbn.
  rewrite bool_decide_eq_true. set_solver.
Qed.

Lemma map_replicate {A B} (f : A -> B) (n : nat) (a : A) :
  map f (replicate n a) = replicate n (f a).
Proof. induction n as [| n IH]; [reflexivity |]. cbn. now rewrite IH. Qed.

Lemma tanh_zero : tanh 0 = 0%R.
Proof. unfold tanh. rewrite sinh_0. unfold Rdiv. apply Rmult_0_l. Qed.

Lemma choose_action_loop_zeros (n : nat) (i : Z) :
  choose_action_loop (replicate n 0%R) i None THRESHOLD = (None, THRESHOLD).
Proof.
  revert i. induction n as [| n IH]; intros i; [reflexivity |].
  cbn [replicate choose_action_loop]. unfold fgtb.
  cbn [fltb fabs RealFloat].
  destruct (Rlt_dec THRESHOLD (Rabs 0)) as [Hlt | _]; [| apply IH].
  exfalso. rewrite Rabs_R0 in Hlt. unfold THRESHOLD, flit in Hlt.
  cbn [fdiv of_int RealFloat] in Hlt. lra.
Qed.

End IdleBrain.

(** X26.  A creature whose genome has no gene sinking into an action
    neuron never acts: whatever the sensor readings, the forward pass of
    its brain returns [NUM_ACTIONS] zeros, and on these the decision of a
    step is to execute nothing. *)
Theorem idle_brain (genome : list Z) (sensor_inputs : list R) :
  Forall (fun g => sink_type (decode_gene (F := R) g) = 0) genome ->
  exists actions,
    forward (NeuralNetwork_init genome) sensor_inputs = Ok actions /\
    actions = replicate (Z.to_nat NUM_ACTIONS) 0%R /\
    decide_action actions = Ok None.
Proof.
  intros Hall. exists (replicate (Z.to_nat NUM_ACTIONS) 0%R). split_and!.
  - unfold forward. rewrite (no_action_connections genome Hall).
    cbn [NeuralNetwork_init n_internal n_actions].
    unfold forward_connections, internal_pass.
    cbn [accumulate_all mbind result_bind].
    unfold np_zeros. rewrite !map_replicate.
    cbn [ftanh of_int RealFloat]. now rewrite tanh_zero.
  - reflexivity.
  - unfold decide_action, choose_action.
    now rewrite choose_action_loop_zeros.
Qed.

Lemma idle_brain_witness :
  exists actions,
    forward (NeuralNetwork_init [0x01020304; 0x81000010]) [] = Ok actions /\
    decide_action actions = Ok None.
Proof.
  destruct (idle_brain [0x01020304; 0x81000010] [])
    as (actions & Hf & _ & Hd).
  - repeat constructor.
  - exists actions. auto.
Defined.

(** ** Statistics of a run *)

Section RunStatistics.
Context {F G : Type} `{FloatOps F} `{RngOps G F}.
Variable KILL_ENABLED : bool.
Variable clock : nat -> F.

Lemma on_mem_inv {A} (c : M (Mem F G) A) (s s' : SimState F G) (a : A) :
  on_mem c s = Done a s' ->
  c (mem s) = Done a (mem s') /\
  stats s' = stats s /\ generation s' = generation s /\ ticks s' = ticks s.
Proof.
  unfold on_mem. destruct (c (mem s)); [| discriminate].
  intros [= <- <-]. auto.
Qed.

Lemma select_loop_Done (self : Simulation F) (W Hh : Z) (m m' : Mem F G)
    (creatures : list nat) :
  forall acc survivors,
    for_fold creatures acc (fun survivors id =>
      c ← deref id;
      if negb (alive c) then mret survivors
      else if selected self W Hh c then mret (survivors ++ [id])
           else mret survivors) m
    = Done survivors m' ->
    m' = m /\
    survivors = acc ++ List.filter (survives self m W Hh) creatures.
Proof.
  induction creatures as [| id rest IH]; intros acc survivors.
  - cbn. intros [= <- <-]. now rewrite app_nil_r.
  - cbn [for_fold List.filter]. rewrite bind_eq, bind_eq.
    unfold deref at 1. unfold survives at 1.
    destruct (heap m !! id) as [c |]; [| discriminate].
    destruct (alive c); cbn [negb andb].
    + destruct (selected self W Hh c); rewrite ret_eq; intros Hrest;
        apply IH in Hrest; destruct Hrest as [-> ->];
        [now rewrite <- app_assoc | auto].
    + rewrite ret_eq. apply IH.
Qed.

Lemma select_Done (self : Simulation F) (creatures : list nat)
    (m m' : Mem F G) (survivors : list nat) :
  _select self creatures m = Done survivors m' ->
  m' = m /\
  survivors = List.filter
                (survives self m (width (world m)) (height (world m)))
                creatures.
Proof.
  unfold _select. rewrite bind_eq. cbn [get_world].
  apply select_loop_Done.
Qed.

Lemma count_alive_loop_Done (creatures : list nat) (m m' : Mem F G) :
  forall (acc n : Z),
    for_fold creatures acc (fun (n : Z) id =>
      c ← deref id;
      mret (if alive c then n + 1 else n)) m = Done n m' ->
    m' = m /\
    n = acc + Z.of_nat (length (List.filter (is_alive m) creatures)).
Proof.
  induction creatures as [| id rest IH]; intros acc n.
  - cbn. intros [= <- <-]. split; [reflexivity | lia].
  - cbn [for_fold List.filter]. rewrite bind_eq, bind_eq.
    unfold deref at 1. unfold is_alive at 1.
    destruct (heap m !! id) as [c |]; [| discriminate].
    rewrite ret_eq. intros Hrest. apply IH in Hrest.
    destruct Hrest as [-> ->]. split; [reflexivity |].
    destruct (alive c); cbn [length]; lia.
Qed.

Lemma survivors_le_alive (self : Simulation F) (W Hh : Z) (m : Mem F G)
    (creatures : list nat) :
  (length (List.filter (survives self m W Hh) creatures)
   <= length (List.filter (is_alive m) creatures)
   <= length creatures)%nat.
Proof.
  induction creatures as [| id rest IH]; [cbn; lia |].
  cbn [List.filter].
  assert (Himp : survives self m W Hh id = true -> is_alive m id = true).
  { unfold survives, is_alive. destruct (heap m !! id) as [c |]; [| auto].
    now destruct (alive c). }
  destruct (survives self m W Hh id), (is_alive m id); cbn [length];
    try lia; now specialize (Himp eq_refl).
Qed.

Lemma compute_stats_inv (creatures survivors : list nat)
    (s s' : SimState F G) (st : GenerationStats F) :
  _compute_stats creatures survivors s = Done st s' ->
  stats s' = stats s /\ ticks s' = ticks s /\
  stat_generation st = generation s /\
  stat_population st = Z.of_nat (length creatures) /\
  stat_survivors st = Z.of_nat (length survivors) /\
  stat_alive st
  = Z.of_nat (length (List.filter (is_alive (mem s)) creatures)) /\
  stat_murdered st = murder_count (world (mem s)) /\
  stat_elapsed_s st = None.
Proof.
  unfold _compute_stats. intros Hc.
  apply bind_Done in Hc. destruct Hc as (n_alive & s1 & H1 & Hc).
  apply bind_Done in Hc. destruct Hc as (w & s2 & H2 & Hc).
  apply bind_Done in Hc. destruct Hc as (d & s3 & H3 & Hc).
  apply bind_Done in Hc. destruct Hc as (g & s4 & H4 & Hc).
  apply on_mem_inv in H1, H2, H3.
  destruct H1 as (R1 & E1 & G1 & T1), H2 as (R2 & E2 & G2 & T2),
           H3 as (R3 & E3 & G3 & T3).
  cbn in H4, Hc. injection H4 as <- <-. injection Hc as <- <-.
  cbn [stat_generation stat_population stat_survivors stat_alive
       stat_murdered stat_elapsed_s].
  apply count_alive_loop_Done in R1. destruct R1 as [Em1 ->].
  cbn [get_world] in R2. injection R2 as <- Em2.
  split_and!; congruence || lia.
Qed.

Lemma run_one_generation_inv (self : Simulation F)
    (genomes : list (list Z)) (s s' : SimState F G)
    (survivors : list nat) (st : GenerationStats F) :
  _run_one_generation KILL_ENABLED self genomes s = Done (survivors, st) s' ->
  stats s' = stats s /\ ticks s' = ticks s /\
  stat_generation st = generation s /\
  stat_survivors st = Z.of_nat (length survivors) /\
  0 <= stat_survivors st <= stat_alive st /\
  stat_alive st <= stat_population st /\
  stat_elapsed_s st = None.
Proof.
  unfold _run_one_generation. intros Hc.
  apply bind_Done in Hc. destruct Hc as (creatures & s1 & H1 & Hc).
  apply bind_Done in Hc. destruct Hc as ([] & s2 & H2 & Hc).
  apply bind_Done in Hc. destruct Hc as ([] & s3 & H3 & Hc).
  apply bind_Done in Hc. destruct Hc as ([] & s4 & H4 & Hc).
  apply bind_Done in Hc. destruct Hc as ([] & s5 & H5 & Hc).
  apply bind_Done in Hc. destruct Hc as (sv & s6 & H6 & Hc).
  apply bind_Done in Hc. destruct Hc as (st0 & s7 & H7 & Hc).
  rewrite ret_eq in Hc. injection Hc as <- <- <-.
  apply on_mem_inv in H1, H3, H4, H5, H6.
  destruct H1 as (_ & E1 & G1 & T1), H3 as (_ & E3 & G3 & T3),
           H4 as (_ & E4 & G4 & T4), H5 as (_ & E5 & G5 & T5),
           H6 as (R6 & E6 & G6 & T6).
  cbn in H2. injection H2 as <-. cbn in E3, G3, T3.
  apply compute_stats_inv in H7.
  destruct H7 as (E7 & T7 & G7 & Hpop & Hsv & Hal & _ & Hel).
  apply select_Done in R6. destruct R6 as [Em6 ->].
  pose proof (survivors_le_alive self (width (world (mem s5)))
                (height (world (mem s5))) (mem s5) creatures) as Hle.
  rewrite Em6 in Hal.
  split_and!; try congruence; lia.
Qed.

(** What the generation loop records: one entry per generation run,
    numbered by the generation's index, timed by two readings of the
    clock. *)
Lemma generations_loop_records (self : Simulation F) (gen_idxs : list Z) :
  forall (genomes : list (list Z)) (s s' : SimState F G),
    generations_loop KILL_ENABLED clock self gen_idxs genomes s = Done tt s' ->
    exists new,
      stats s' = stats s ++ new /\
      (length new <= length gen_idxs)%nat /\
      ticks s' = (ticks s + 2 * length new)%nat /\
      forall (k : nat) (st : GenerationStats F),
        new !! k = Some st ->
        gen_idxs !! k = Some (stat_generation st) /\
        stat_elapsed_s st
        = Some (fround 3 (fsub (clock (ticks s + 2 * k + 1))
                               (clock (ticks s + 2 * k)))) /\
        0 <= stat_survivors st <= stat_alive st /\
        stat_alive st <= stat_population st.
Proof.
  induction gen_idxs as [| gen_idx rest IH]; intros genomes s s' Hloop.
  - cbn in Hloop. injection Hloop as <-. exists []. rewrite app_nil_r.
    split_and!; [reflexivity | reflexivity | cbn; lia |].
    intros k st Hk. inversion Hk.
  - cbn [generations_loop] in Hloop.
    apply bind_Done in Hloop. destruct Hloop as ([] & s1 & H1 & Hloop).
    apply bind_Done in Hloop. destruct Hloop as (t0 & s2 & H2 & Hloop).
    apply bind_Done in Hloop.
    destruct Hloop as ([survivors st0] & s3 & H3 & Hloop).
    apply bind_Done in Hloop. destruct Hloop as (t1 & s4 & H4 & Hloop).
    apply bind_Done in Hloop. destruct Hloop as ([] & s5 & H5 & Hloop).
    cbn in H1. injection H1 as <-.
    cbn in H2. injection H2 as <- <-.
    apply run_one_generation_inv in H3. cbn in H3.
    destruct H3 as (E3 & T3 & G3 & Hsv & Hle1 & Hle2 & _).
    cbn in H4. injection H4 as <- <-.
    cbn in H5. injection H5 as <-.
    rewrite T3 in *.
    set (st1 := set_elapsed_s
                  (fround 3 (fsub (clock (S (ticks s))) (clock (ticks s))))
                  st0) in *.
    assert (Hst1 : forall k st, [st1] !! k = Some st ->
              (gen_idx :: rest) !! k = Some (stat_generation st) /\
              stat_elapsed_s st
              = Some (fround 3 (fsub (clock (ticks s + 2 * k + 1))
                                     (clock (ticks s + 2 * k)))) /\
              0 <= stat_survivors st <= stat_alive st /\
              stat_alive st <= stat_population st).
    { intros [| k] st Hk; [| inversion Hk]. injection Hk as <-.
      cbn [lookup list_lookup]. subst st1.
      cbn [stat_generation stat_elapsed_s stat_survivors stat_alive
           stat_population set_elapsed_s].
      rewrite G3. replace (ticks s + 2 * 0 + 1)%nat with (S (ticks s)) by lia.
      replace (ticks s + 2 * 0)%nat with (ticks s) by lia.
      split_and!; auto; lia. }
    destruct survivors as [| survivor survivors].
    + rewrite ret_eq in Hloop. injection Hloop as <-. cbn [stats ticks].
      exists [st1]. rewrite E3. split_and!; [reflexivity | cbn; lia | cbn; lia |].
      exact Hst1.
    + apply bind_Done in Hloop. destruct Hloop as (genomes' & s6 & H6 & Hloop).
      apply on_mem_inv in H6. cbn in H6. destruct H6 as (_ & E6 & _ & T6).
      apply IH in Hloop. destruct Hloop as (new & Enew & Hlen & Hticks & Hall).
      exists (st1 :: new). rewrite Enew, E6, E3, <- app_assoc.
      split_and!; [reflexivity | cbn; lia | rewrite Hticks, T6; cbn; lia |].
      intros [| k] st Hk.
      * apply (Hst1 0%nat st Hk).
      * cbn in Hk. destruct (Hall k st Hk) as (Hg & He & Hles).
        split_and!; try tauto.
        rewrite He, T6.
        replace (S (S (ticks s)) + 2 * k + 1)%nat
          with (ticks s + 2 * S k + 1)%nat by lia.
        replace (S (S (ticks s)) + 2 * k)%nat
          with (ticks s + 2 * S k)%nat by lia.
        reflexivity.
Qed.

Lemma py_range_lookup (n : Z) (k : nat) (g : Z) :
  py_range 0 n !! k = Some g -> g = Z.of_nat k.
Proof.
  unfold py_range. rewrite list_lookup_fmap.
  destruct (seq 0 (Z.to_nat (n - 0)) !! k) as [j |] eqn:Hj; [| discriminate].
  apply lookup_seq in Hj. destruct Hj as [-> _]. cbn. intros [= <-]. lia.
Qed.

End RunStatistics.

(** X27.  The statistics of a completed run: there is at most one record
    per generation asked for; the [k]-th record carries generation index
    [k], an elapsed time that is the rounded difference of the two clock
    readings of that generation, and counts with
    [0 <= survivors <= alive <= population]; the clock has been read
    exactly twice per record. *)
Theorem run_stats_records {F G} `{FloatOps F} `{RngOps G F}
    (KILL_ENABLED : bool) (clock : nat -> F) (self : Simulation F)
    (os_entropy : Z) (s : SimState F G) :
  run KILL_ENABLED clock self (Simulation_init self os_entropy) = Done tt s ->
  (length (stats s) <= Z.to_nat (max_generations self))%nat /\
  ticks s = (2 * length (stats s))%nat /\
  forall (k : nat) (st : GenerationStats F),
    stats s !! k = Some st ->
    stat_generation st = Z.of_nat k /\
    stat_elapsed_s st
    = Some (fround 3 (fsub (clock (2 * k + 1)%nat) (clock (2 * k)%nat))) /\
    0 <= stat_survivors st <= stat_alive st /\
    stat_alive st <= stat_population st.
Proof.
  intros Hrun. unfold run in Hrun.
  apply bind_Done in Hrun. destruct Hrun as (genomes & s1 & H1 & Hloop).
  apply on_mem_inv in H1. cbn in H1. destruct H1 as (_ & E1 & _ & T1).
  unfold _run_all_generations in Hloop.
  apply generations_loop_records in Hloop.
  destruct Hloop as (new & Enew & Hlen & Hticks & Hall).
  rewrite E1 in Enew. cbn in Enew. rewrite T1 in Hticks, Hall.
  rewrite py_range_length in Hlen. rewrite Enew.
  split_and!; [lia | lia |].
  intros k st Hk. destruct (Hall k st Hk) as (Hg & He & Hles).
  apply py_range_lookup in Hg. split_and!; try tauto.
Qed.

Lemma run_stats_records_witness :
  exists s : SimState R Z,
    run false wall_clock extinct_scenario
        (Simulation_init extinct_scenario 0) = Done tt s /\
    (length (stats s) <= 3)%nat /\ ticks s = (2 * length (stats s))%nat.
Proof.
  assert (Hex : exists s,
            run false wall_clock extinct_scenario
                (Simulation_init (G := Z) extinct_scenario 0) = Done tt s).
  { exists (state_of (run false wall_clock extinct_scenario
                          (Simulation_init (G := Z) extinct_scenario 0))).
    vm_compute. reflexivity. }
  destruct Hex as (s & Hrun). exists s.
  destruct (run_stats_records false wall_clock extinct_scenario 0 s Hrun)
    as (Hlen & Hticks & _).
  split_and!; [exact Hrun | exact Hlen | exact Hticks].
Defined.

(** ** Populating the world *)

Section Positions.

Lemma py_range_elem (lo hi x : Z) : x ∈ py_range lo hi <-> lo <= x < hi.
Proof.
  unfold py_range. rewrite list_elem_of_In, in_map_iff. split.
  - intros (k & <- & Hk). apply in_seq in Hk. lia.
  - intros Hx. exists (Z.to_nat (x - lo)). split; [lia |].
    apply in_seq. lia.
Qed.

Lemma py_range_NoDup (lo hi : Z) : NoDup (py_range lo hi).
Proof.
  unfold py_range.
  change (map (fun k => lo + Z.of_nat k) (seq 0 (Z.to_nat (hi - lo))))
    with ((fun k => lo + Z.of_nat k) <$> seq 0 (Z.to_nat (hi - lo))).
  apply NoDup_fmap_2; [| apply NoDup_seq].
  intros a b Hab. lia.
Qed.

Lemma py_range_lookup_nat (n : Z) (k : nat) :
  (k < Z.to_nat n)%nat -> py_range 0 n !! k = Some (Z.of_nat k).
Proof.
  intros Hk. unfold py_range.
  change (map (fun k => 0 + Z.of_nat k) (seq 0 (Z.to_nat (n - 0))))
    with ((fun k => 0 + Z.of_nat k) <$> seq 0 (Z.to_nat (n - 0))).
  rewrite list_lookup_fmap, lookup_seq_lt by lia. reflexivity.
Qed.

Lemma grid_cells_elem (xs ys : list Z) (p : Z * Z) :
  p ∈ flat_map (fun py => map (fun px => (px, py)) xs) ys
  <-> fst p ∈ xs /\ snd p ∈ ys.
Proof.
  rewrite list_elem_of_In, in_flat_map. split.
  - intros (py & Hy & Hp). apply in_map_iff in Hp.
    destruct Hp as (px & <- & Hx). cbn. now rewrite !list_elem_of_In.
  - intros [Hx Hy]. rewrite list_elem_of_In in Hx, Hy.
    exists (snd p). split; [assumption |].
    apply in_map_iff. exists (fst p). split; [now destruct p | assumption].
Qed.

Lemma grid_cells_length (xs ys : list Z) :
  length (flat_map (fun py => map (fun px => (px, py)) xs) ys)
  = (length ys * length xs)%nat.
Proof.
  induction ys as [| y ys IH]; [reflexivity |].
  cbn [flat_map]. rewrite length_app, length_map, IH. cbn. lia.
Qed.

Lemma grid_cells_NoDup (xs ys : list Z) :
  NoDup xs -> NoDup ys ->
  NoDup (flat_map (fun py => map (fun px => (px, py)) xs) ys).
Proof.
  intros Hxs Hys. induction Hys as [| y ys Hy Hys IH]; [constructor |].
  cbn [flat_map]. apply NoDup_app. split_and!.
  - change (map (fun px => (px, y)) xs) with ((fun px => (px, y)) <$> xs).
    apply NoDup_fmap_2; [| assumption]. now intros a b [= ->].
  - intros p Hp Hp'. apply grid_cells_elem in Hp'. destruct Hp' as [_ Hin].
    apply list_elem_of_In, in_map_iff in Hp. destruct Hp as (px & <- & _).
    cbn in Hin. contradiction.
  - exact IH.
Qed.

(** Reading a list at a permutation of its indices gives a permutation
    of the list. *)
Lemma mapM_getitem_perm {A} (l : list A) (perm : list Z) :
  perm ≡ₚ py_range 0 (Z.of_nat (length l)) ->
  exists l', mapM (getitem l) perm = Ok l' /\ l' ≡ₚ l.
Proof.
  intros Hperm.
  assert (Hread : forall idxs : list Z,
            Forall (fun i => 0 <= i < Z.of_nat (length l)) idxs ->
            mapM (getitem l) idxs
            = Ok (omap (fun i => l !! Z.to_nat i) idxs)).
  { induction idxs as [| i idxs IH]; intros Hall; [reflexivity |].
    apply Forall_cons in Hall. destruct Hall as [Hi Hall].
    destruct (getitem_nonneg l i Hi) as (a & Ha & Hget).
    change (mapM (getitem l) (i :: idxs))
      with (y ← getitem l i; k ← mapM (getitem l) idxs; mret (y :: k)).
    change (omap (fun i => l !! Z.to_nat i) (i :: idxs))
      with (match l !! Z.to_nat i with
            | Some y => y :: omap (fun i => l !! Z.to_nat i) idxs
            | None => omap (fun i => l !! Z.to_nat i) idxs
            end).
    rewrite Hget, Ha. cbn [mbind result_bind].
    rewrite (IH Hall). reflexivity. }
  eexists. split.
  - apply Hread. apply Forall_forall. intros i Hi.
    rewrite Hperm in Hi. now apply py_range_elem in Hi.
  - rewrite Hperm. clear Hperm Hread.
    assert (Hid : omap (fun i => l !! Z.to_nat i)
                       (py_range 0 (Z.of_nat (length l))) = l);
      [| now rewrite Hid].
    unfold py_range. rewrite Z.sub_0_r, Nat2Z.id.
    assert (Hgen : forall (j : nat),
              omap (fun i => l !! Z.to_nat i)
                   (map (fun k => 0 + Z.of_nat k) (seq j (length l - j)))
              = drop j l).
    { intros j. remember (length l - j)%nat as d eqn:Hd.
      revert j Hd. induction d as [| d IH]; intros j Hd.
      - cbn. symmetry. apply drop_ge. lia.
      - cbn [seq map].
        match goal with
        | |- omap ?f (?i :: ?idxs) = _ =>
            change (omap f (i :: idxs))
              with (match f i with
                    | Some y => y :: omap f idxs
                    | None => omap f idxs
                    end)
        end. cbv beta.
        replace (Z.to_nat (0 + Z.of_nat j)) with j by lia.
        destruct (lookup_lt_is_Some_2 l j) as [a Ha]; [lia |].
        rewrite Ha. rewrite (IH (S j)) by lia.
        symmetry. now apply drop_S. }
    specialize (Hgen 0%nat). now rewrite Nat.sub_0_r, drop_0 in Hgen.
Qed.

End Positions.

Section Populate.
Context {F G : Type} `{FloatOps F} `{RngOps G F}.
Implicit Types (m : Mem F G).

Lemma populate_loop_spec m0 (positions : list (Z * Z)) :
  NoDup positions ->
  (forall p, p ∈ positions ->
     0 <= fst p < width (world m0) /\ 0 <= snd p < height (world m0)) ->
  forall (rest done : list nat) m,
    populated m0 m done (take (length done) positions) ->
    NoDup (done ++ rest) ->
    (forall id, id ∈ rest -> is_Some (heap m0 !! id)) ->
    (length done <= length positions)%nat ->
    exists m' (n : nat),
      populate_loop rest positions (Z.of_nat (length done)) m
      = Done (Z.of_nat n) m' /\
      n = Nat.min (length done + length rest) (length positions) /\
      populated m0 m' (take n (done ++ rest)) (take n positions) /\
      rng (world m') = rng (world m) /\
      creatures (world m') = creatures (world m) /\
      murder_count (world m') = murder_count (world m).
Proof.
  intros Hnodup Hbounds.
  induction rest as [| id rest IH]; intros done m Hpop Hnd Hheap Hlen.
  - exists m, (length done). cbn [populate_loop]. rewrite ret_eq.
    rewrite app_nil_r, firstn_all. cbn [length].
    split_and!; auto. lia.
  - cbn [populate_loop].
    destruct (Z.leb_spec (Z.of_nat (length positions))
                         (Z.of_nat (length done))) as [Hfull | Hroom].
    + (* every cell has been handed out *)
      assert (Elen : length done = length positions) by lia.
      exists m, (length done). rewrite ret_eq.
      rewrite take_app_length. cbn [length].
      split_and!; auto. lia.
    + set (k := length done) in *.
      destruct (lookup_lt_is_Some_2 positions k) as [pos Hpos]; [lia |].
      rewrite bind_eq.
      rewrite (getitem_lookup positions (Z.of_nat k) pos)
        by (lia || now rewrite Nat2Z.id).
      rewrite lift_Ok.
      destruct Hpop as (Hshape & Hw & Hh & HI & Hcells & Hplaced & Hsame).
      assert (Hid : id ∉ done).
      { apply NoDup_app in Hnd. destruct Hnd as (_ & Hdis & _).
        intros Hin. apply (Hdis id Hin). left. }
      destruct (Hheap id) as [c Hc0]; [left |].
      assert (Hc : heap m !! id = Some c) by (now rewrite Hsame).
      rewrite bind_eq. unfold assign at 1. rewrite Hc.
      rewrite bind_eq. unfold deref at 1. cbn [heap]. rewrite lookup_insert_eq.
      destruct pos as [px py]. cbn [fst snd set_pos x y].
      destruct (Hbounds (px, py)) as [Hpx Hpy];
        [now apply list_elem_of_lookup_2 in Hpos |].
      cbn [fst snd] in Hpx, Hpy. rewrite <- Hw in Hpx. rewrite <- Hh in Hpy.
      destruct Hshape as [Hlen' Hrows].
      destruct (grid_write_in_range (_grid (world m)) _ _ px py (Some id)
                  Hlen' Hrows Hpx Hpy) as (g' & Hwrite & Hlen1 & Hrows1 & Hg').
      rewrite bind_eq, grid_set_eq. cbn [heap world]. rewrite Hwrite.
      set (c' := mkCreature px py (genome c) (brain c) (alive c) (age c)
                            (last_dir c) (color c) (radiation_dose c)
                            (_osc_phase c)).
      set (m1 := mkMem (<[id := c']> (heap m)) (set_grid g' (world m))).
      assert (Hfresh : (px, py) ∉ take k positions).
      { intros Hin. apply list_elem_of_lookup in Hin. destruct Hin as [j Hj].
        apply lookup_take_Some in Hj. destruct Hj as [Hj Hjk].
        pose proof (NoDup_lookup _ _ _ _ Hnodup Hj Hpos). lia. }
      assert (Hfree : cell_at (_grid (world m)) (Z.to_nat px) (Z.to_nat py)
                      = None).
      { destruct (cell_at _ _ _) as [other |] eqn:Hcell; [| reflexivity].
        destruct (Hcells _ _ _ Hcell) as [_ Hused].
        rewrite !Z2Nat.id in Hused by lia. contradiction. }
      assert (Hpop1 : populated m0 m1 (done ++ [id])
                                (take (length (done ++ [id])) positions)).
      { rewrite length_app. cbn [length]. fold k.
        replace (k + 1)%nat with (S k) by lia.
        rewrite (take_S_r positions k (px, py) Hpos).
        unfold populated, m1. cbn [heap world _grid set_grid width height].
        split_and!.
        - now split.
        - exact Hw.
        - exact Hh.
        - intros cx cy id0. cbn [heap world _grid set_grid]. rewrite Hg'.
          case_decide as Hd.
          + intros [= <-]. exists c'. rewrite lookup_insert_eq.
            split; [reflexivity |]. cbn [x y c']. lia.
          + intros Hcell. destruct (Hcells _ _ _ Hcell) as [Hin _].
            destruct (HI _ _ _ Hcell) as (c0 & Hc0' & Hp).
            exists c0. rewrite lookup_insert_ne by congruence. auto.
        - intros cx cy id0. rewrite Hg'. case_decide as Hd.
          + intros [= <-]. destruct Hd as [-> ->].
            rewrite !Z2Nat.id by lia. set_solver.
          + intros Hcell. destruct (Hcells _ _ _ Hcell) as [Hin Hused].
            set_solver.
        - intros id0 Hin. apply elem_of_app in Hin.
          destruct Hin as [Hin | Hin].
          + destruct (Hplaced id0 Hin) as (c0 & Hc0' & Hx0 & Hy0 & Hcell0).
            exists c0. cbn [heap world _grid set_grid].
            rewrite lookup_insert_ne by congruence.
            split_and!; auto. rewrite Hg'.
            case_decide as Hd; [| exact Hcell0].
            destruct Hd as [Ey Ex]. rewrite Ey, Ex, Hfree in Hcell0.
            discriminate.
          + apply list_elem_of_singleton in Hin. subst id0.
            exists c'. cbn [heap world _grid set_grid x y c'].
            rewrite lookup_insert_eq. split_and!; auto; try lia.
            rewrite Hg'. now rewrite decide_True.
        - intros id0 Hnot. cbn [heap].
          rewrite lookup_insert_ne by set_solver. apply Hsame. set_solver. }
      destruct (IH (done ++ [id]) m1 Hpop1) as (m' & n & Hrun & Hn & Hpop' & Hr).
      * now rewrite <- app_assoc.
      * intros id0 Hin. apply Hheap. now right.
      * rewrite length_app. cbn [length]. fold k. lia.
      * exists m', n.
        rewrite length_app in Hrun, Hn. cbn [length] in Hrun, Hn.
        fold k in Hrun, Hn.
        replace (Z.of_nat (k + 1)) with (Z.of_nat k + 1) in Hrun by lia.
        rewrite <- app_assoc in Hpop'. cbn [app] in Hpop'.
        split_and!; [exact Hrun | cbn [length]; lia | exact Hpop' | apply Hr ..].
Qed.

End Populate.

(** X28.  [populate] with distinct existing creatures and a generator
    whose [permutation(n)] is a permutation of [0 .. n-1]: it never
    raises; it places the first [min(len(creatures), width * height)]
    creatures, each on a cell of its own inside the grid, and records
    exactly those as the world's creatures; the grid is well shaped and
    consistent and references no other object; the murder counter is 0;
    creatures beyond the number of cells, and all other objects, are left
    as they were. *)
Theorem populate_spec {F G} `{FloatOps F} `{RngOps G F}
    (cs : list nat) (m : Mem F G) :
  NoDup cs ->
  (forall id, id ∈ cs -> is_Some (heap m !! id)) ->
  (forall (n : Z) (g : G), fst (rng_permutation n g) ≡ₚ py_range 0 n) ->
  let n := Nat.min (length cs)
                   (Z.to_nat (width (world m))
                    * Z.to_nat (height (world m))) in
  exists m',
    populate cs m = Done tt m' /\
    grid_shape m' /\ grid_consistent m' /\
    width (world m') = width (world m) /\
    height (world m') = height (world m) /\
    creatures (world m') = take n cs /\
    murder_count (world m') = 0 /\
    (forall id, id ∈ take n cs -> placed m' id) /\
    (forall (cx cy id : nat),
       cell_at (_grid (world m')) cx cy = Some id -> id ∈ take n cs) /\
    (forall id, id ∉ take n cs -> heap m' !! id = heap m !! id).
Proof.
  intros Hnd Hheap Hperm n. unfold populate.
  rewrite bind_eq. unfold clear at 1, modify_world at 1.
  rewrite bind_eq. cbn [get_world world width height].
  set (W := width (world m)) in *. set (Hh := height (world m)) in *.
  set (positions0 := flat_map (fun py => map (fun px => (px, py))
                                             (py_range 0 W))
                              (py_range 0 Hh)).
  rewrite bind_eq, draw_eq. cbn [heap world rng].
  set (perm := fst (rng_permutation (Z.of_nat (length positions0))
                                    (rng (world m)))).
  destruct (mapM_getitem_perm positions0 perm) as (positions & -> & Hpos);
    [apply Hperm |].
  rewrite bind_eq, lift_Ok.
  set (m0 := mkMem (heap m) _).
  assert (Hlen0 : length positions0 = (Z.to_nat W * Z.to_nat Hh)%nat).
  { unfold positions0. rewrite grid_cells_length, !py_range_length. lia. }
  assert (Hnodup : NoDup positions).
  { rewrite Hpos. apply grid_cells_NoDup; apply py_range_NoDup. }
  assert (Hbounds : forall p, p ∈ positions ->
            0 <= fst p < width (world m0) /\ 0 <= snd p < height (world m0)).
  { intros p Hp. rewrite Hpos in Hp. apply grid_cells_elem in Hp.
    rewrite !py_range_elem in Hp. exact Hp. }
  assert (Hstart : populated m0 m0 [] (take (length (@nil nat)) positions)).
  { unfold populated, m0.
    cbn [heap world _grid set_rng width height].
    split_and!; try reflexivity.
    - split; cbn [world _grid set_rng width height].
      + unfold empty_grid. now rewrite length_replicate.
      + unfold empty_grid. apply Forall_replicate.
        now rewrite length_replicate.
    - intros cx cy id. cbn [world _grid set_rng].
      now rewrite cell_at_empty_grid.
    - intros cx cy id. now rewrite cell_at_empty_grid.
    - intros id Hid. now apply elem_of_nil in Hid. }
  destruct (populate_loop_spec m0 positions Hnodup Hbounds cs [] m0 Hstart)
    as (m1 & n1 & Hrun & Hn1 & Hpop & _ & _ & Hmc);
    [exact Hnd | exact Hheap | cbn; lia |].
  change (Z.of_nat (length (@nil nat))) with 0 in Hrun.
  rewrite bind_eq, Hrun.
  cbn [app length] in Hn1, Hpop.
  assert (En : n1 = n).
  { subst n1 n. rewrite (Permutation_length Hpos), Hlen0. lia. }
  rewrite Nat2Z.id, En in *.
  destruct Hpop as (Hshape & Hw & Hh1 & HI & Hcells & Hplaced & Hsame).
  eexists. split; [reflexivity |].
  cbn [heap world _grid set_creatures width height creatures murder_count].
  split_and!.
  - exact Hshape.
  - exact HI.
  - exact Hw.
  - exact Hh1.
  - reflexivity.
  - exact Hmc.
  - exact Hplaced.
  - intros cx cy id Hcell. now destruct (Hcells cx cy id Hcell).
  - exact Hsame.
Qed.

Lemma lcg_permutation_perm (n : nat) (g : Z) :
  fst (lcg_permutation n g) ≡ₚ py_range 0 (Z.of_nat n).
Proof.
  revert g. induction n as [| n IH]; intros g; [reflexivity |].
  cbn [lcg_permutation]. specialize (IH (lcg_next g)).
  destruct (lcg_permutation n (lcg_next g)) as [l g']. cbn [fst] in *.
  unfold insert_at.
  rewrite <- Permutation_middle, take_drop, IH.
  unfold py_range. rewrite !Z.sub_0_r, !Nat2Z.id.
  rewrite seq_S, map_app. cbn [map Nat.add].
  now rewrite <- Permutation_cons_append.
Qed.

Lemma populate_spec_witness :
  exists m' : Mem R Z,
    populate [0%nat; 1%nat] duel_world = Done tt m' /\
    grid_consistent m' /\ placed m' 0 /\ placed m' 1 /\
    creatures (world m') = [0%nat; 1%nat].
Proof.
  destruct (populate_spec [0%nat; 1%nat] duel_world)
    as (m' & Hrun & _ & HI & _ & _ & Hcs & _ & Hplaced & _).
  - repeat constructor; set_solver.
  - intros id Hid. unfold duel_world. cbn [heap].
    apply elem_of_cons in Hid. destruct Hid as [-> | Hid].
    + rewrite lookup_insert_eq. eauto.
    + apply list_elem_of_singleton in Hid. subst id.
      rewrite lookup_insert_ne by discriminate.
      rewrite lookup_singleton_eq. eauto.
  - intros n g. cbn [rng_permutation LcgRng].
    rewrite lcg_permutation_perm.
    destruct (Z.le_gt_cases 0 n).
    + now rewrite Z2Nat.id.
    + unfold py_range.
      replace (Z.to_nat (Z.of_nat (Z.to_nat n) - 0)) with 0%nat by lia.
      now replace (Z.to_nat (n - 0)) with 0%nat by lia.
  - change (take _ [0%nat; 1%nat]) with [0%nat; 1%nat] in Hcs, Hplaced.
    exists m'. split; [exact Hrun |]. split; [exact HI |].
    split; [apply Hplaced; apply elem_of_cons; now left |].
    split; [| exact Hcs].
    apply Hplaced. apply elem_of_cons. right. apply elem_of_cons. now left.
Defined.

(** ** A step keeps the world in order *)

Section StepInvariant.
Context {F G : Type} `{FloatOps F} `{RngOps G F}.
Implicit Types (m : Mem F G).

Lemma step_rel_refl (kill : bool) m : step_rel kill m m.
Proof. split_and!; auto. intros id c Hc. exists c. auto. Qed.

Lemma step_rel_trans (kill : bool) m1 m2 m3 :
  step_rel kill m1 m2 -> step_rel kill m2 m3 -> step_rel kill m1 m3.
Proof.
  intros (Hw1 & Hh1 & Hm1 & H1) (Hw2 & Hh2 & Hm2 & H2).
  split_and!; [congruence | congruence | intros Hk; rewrite Hm2, Hm1; auto |].
  intros id c Hc.
  destruct (H1 id c Hc) as (c2 & Hc2 & Hg2 & Ha2 & Hk2).
  destruct (H2 id c2 Hc2) as (c3 & Hc3 & Hg3 & Ha3 & Hk3).
  exists c3. split_and!; auto; try congruence.
  intros Hk. rewrite Hk3, Hk2; auto.
Qed.

Lemma step_rel_quiet (kill : bool) m m' :
  step_rel false m m' -> step_rel kill m m'.
Proof.
  intros (Hw & Hh & Hm & Hall). split_and!; auto.
  intros id c Hc. destruct (Hall id c Hc) as (c' & Hc' & Hg & Ha & Hk).
  exists c'. split_and!; auto.
Qed.

(** Replacing one creature by a version of itself that keeps position,
    genome, brain and life, on the same grid. *)
Lemma world_ok_update m (id : nat) (c c' : Creature F) (w' : World G) :
  world_ok m -> heap m !! id = Some c ->
  x c' = x c -> y c' = y c -> genome c' = genome c -> brain c' = brain c ->
  alive c' = alive c -> 0 <= last_dir c' < 8 ->
  _grid w' = _grid (world m) ->
  width w' = width (world m) -> height w' = height (world m) ->
  murder_count w' = murder_count (world m) ->
  world_ok (mkMem (<[id := c']> (heap m)) w') /\
  step_rel false m (mkMem (<[id := c']> (heap m)) w').
Proof.
  intros (Hshape & HI & Hall) Hc Ex Ey Eg Eb Ea Hd Egrid Ew Eh Em.
  split.
  - split_and!.
    + unfold grid_shape. cbn [world]. rewrite Egrid, Ew, Eh. exact Hshape.
    + intros cx cy id0. cbn [heap world]. rewrite Egrid. intros Hcell.
      destruct (HI _ _ _ Hcell) as (c0 & Hc0 & Hp).
      destruct (decide (id0 = id)) as [-> | Hne].
      * exists c'. rewrite lookup_insert_eq.
        assert (c0 = c) by congruence. subst c0.
        split; [reflexivity | lia].
      * exists c0. now rewrite lookup_insert_ne by congruence.
    + intros id0 c0. cbn [heap].
      destruct (decide (id0 = id)) as [-> | Hne].
      * rewrite lookup_insert_eq. intros [= <-].
        destruct (Hall id c Hc) as (Hd0 & Hb0 & Hp0).
        split_and!; [lia | lia | congruence |].
        intros Hal. rewrite Ea in Hal.
        destruct (Hp0 Hal) as (c1 & Hc1 & Hx1 & Hy1 & Hcell1).
        assert (c1 = c) by congruence. subst c1.
        exists c'. cbn [heap world]. rewrite lookup_insert_eq, Egrid, Ex, Ey.
        split_and!; auto.
      * rewrite lookup_insert_ne by congruence. intros Hc0.
        destruct (Hall id0 c0 Hc0) as (Hd0 & Hb0 & Hp0).
        split; [exact Hd0 | split; [exact Hb0 |]]. intros Hal.
        destruct (Hp0 Hal) as (c1 & Hc1 & Hx1 & Hy1 & Hcell1).
        exists c1. cbn [heap world].
        rewrite lookup_insert_ne by congruence. rewrite Egrid.
        split_and!; auto.
  - split_and!; auto. intros id0 c0 Hc0. cbn [heap].
    destruct (decide (id0 = id)) as [-> | Hne].
    + exists c'. rewrite lookup_insert_eq.
      assert (c0 = c) by congruence. subst c0.
      split_and!; auto; congruence.
    + exists c0. rewrite lookup_insert_ne by congruence. auto.
Qed.

(** Changing only the generator. *)
Lemma world_ok_rng m (g : G) :
  world_ok m ->
  world_ok (mkMem (heap m) (set_rng g (world m))) /\
  step_rel false m (mkMem (heap m) (set_rng g (world m))).
Proof.
  intros Hok. split.
  - exact Hok.
  - apply (step_rel_refl false m).
Qed.

Lemma placed_bounds m (id : nat) (c : Creature F) :
  world_ok m -> heap m !! id = Some c -> alive c = true ->
  0 <= x c < width (world m) /\ 0 <= y c < height (world m).
Proof.
  intros (Hshape & _ & Hall) Hc Hal.
  destruct (Hall id c Hc) as (_ & _ & Hp).
  destruct (placed_in_range m id c Hshape Hc (Hp Hal)) as (Hx & Hy & _).
  auto.
Qed.

(** A move of a living creature. *)
Lemma move_creature_ok (id : nat) (dx dy : Z) m (c : Creature F) :
  world_ok m -> heap m !! id = Some c -> alive c = true ->
  exists (moved : bool) m' c',
    move_creature id dx dy m = Done moved m' /\
    world_ok m' /\ step_rel false m m' /\
    rng (world m') = rng (world m) /\
    heap m' !! id = Some c' /\ alive c' = true.
Proof.
  intros Hok Hc Hal.
  destruct (placed_bounds m id c Hok Hc Hal) as [Hx Hy].
  destruct Hok as (Hshape & HI & Hall).
  destruct (Hall id c Hc) as (Hd & Hb & Hp).
  destruct (placed_in_range m id c Hshape Hc (Hp Hal)) as (_ & _ & Hown).
  destruct (move_creature_cases id dx dy m c Hshape Hc Hx Hy)
    as [-> | (Hne & g2 & -> & Hlen2 & Hrows2 & Hfree & Hcells)].
  { exists false, m, c. split_and!; auto.
    - now split_and!.
    - apply step_rel_refl. }
  set (nx := Z.max 0 (Z.min (width (world m) - 1) (x c + dx))) in *.
  set (ny := Z.max 0 (Z.min (height (world m) - 1) (y c + dy))) in *.
  assert (Hnx : 0 <= nx < width (world m)) by (subst nx; lia).
  assert (Hny : 0 <= ny < height (world m)) by (subst ny; lia).
  set (c' := moved_creature nx ny dx dy c).
  destruct (moved_creature_pos nx ny dx dy c) as [Ex Ey]. fold c' in Ex, Ey.
  assert (Hkeep : genome c' = genome c /\ brain c' = brain c /\
                  alive c' = alive c /\ 0 <= last_dir c' < 8).
  { unfold c', moved_creature.
    destruct (negb (dx =? 0) || negb (dy =? 0)) eqn:Enz.
    - assert (Hnz : dx <> 0 \/ dy <> 0).
      { destruct (Z.eqb_spec dx 0), (Z.eqb_spec dy 0); cbn in Enz;
          auto; discriminate. }
      destruct (find_dir_sign dx dy Hnz) as (i & -> & Hi & _).
      destruct c; cbn in *; auto.
    - destruct c; cbn in *; auto. }
  destruct Hkeep as (Eg & Eb & Ea & Hd').
  exists true, (mkMem (<[id := c']> (heap m)) (set_grid g2 (world m))), c'.
  split_and!; auto.
  - split_and!.
    + now split.
    + intros cx cy id0. cbn [heap world _grid set_grid]. rewrite Hcells.
      case_decide as Hd1.
      * intros [= <-]. exists c'. rewrite lookup_insert_eq.
        split; [reflexivity | lia].
      * case_decide as Hd2; [discriminate |]. intros Hcell.
        destruct (HI _ _ _ Hcell) as (c0 & Hc0 & Hp0).
        destruct (decide (id0 = id)) as [-> | Hne0].
        -- exfalso. apply Hd2. assert (c0 = c) by congruence. subst c0. lia.
        -- exists c0. now rewrite lookup_insert_ne by congruence.
    + intros id0 c0. cbn [heap].
      destruct (decide (id0 = id)) as [-> | Hne0].
      * rewrite lookup_insert_eq. intros [= <-].
        split_and!; [lia | lia | congruence |]. intros _.
        exists c'. cbn [heap world _grid set_grid].
        rewrite lookup_insert_eq, Hcells, Ex, Ey.
        split_and!; auto; try lia. now rewrite decide_True.
      * rewrite lookup_insert_ne by congruence. intros Hc0.
        destruct (Hall id0 c0 Hc0) as (Hd0 & Hb0 & Hp0).
        split; [exact Hd0 | split; [exact Hb0 |]]. intros Hal0.
        destruct (Hp0 Hal0) as (c1 & Hc1 & Hx1 & Hy1 & Hcell1).
        exists c1. cbn [heap world _grid set_grid].
        rewrite lookup_insert_ne by congruence.
        split_and!; auto. rewrite Hcells.
        case_decide as Hd1.
        -- destruct Hd1 as [E1 E2]. rewrite E1, E2, Hfree in Hcell1.
           discriminate.
        -- case_decide as Hd2; [| exact Hcell1].
           destruct Hd2 as [E1 E2]. rewrite E1, E2, Hown in Hcell1.
           congruence.
  - split_and!; auto. intros id0 c0 Hc0. cbn [heap].
    destruct (decide (id0 = id)) as [-> | Hne0].
    + exists c'. rewrite lookup_insert_eq.
      assert (c0 = c) by congruence. subst c0.
      split_and!; auto; congruence.
    + exists c0. rewrite lookup_insert_ne by congruence. auto.
  - cbn [heap]. apply lookup_insert_eq.
  - congruence.
Qed.

(** A kill. *)
Lemma kill_creature_at_ok (px py : Z) m :
  world_ok m ->
  exists m',
    kill_creature_at px py m = Done tt m' /\
    world_ok m' /\ step_rel true m m' /\ rng (world m') = rng (world m).
Proof.
  intros (Hshape & HI & Hall).
  rewrite (kill_creature_at_eq px py m Hshape).
  assert (Hsame : exists m', Done (A := unit) tt m = Done tt m' /\
            world_ok m' /\ step_rel true m m' /\
            rng (world m') = rng (world m)).
  { exists m. split_and!; auto; [now split_and! | apply step_rel_refl]. }
  destruct (_in_bounds (world m) px py) eqn:Hb; [| exact Hsame].
  pose proof (in_bounds_nonneg _ _ _ Hb) as [Hx Hy].
  destruct (cell_at (_grid (world m)) (Z.to_nat px) (Z.to_nat py))
    as [v |] eqn:Hcell; [| exact Hsame].
  destruct (HI _ _ _ Hcell) as (c & Hv & Hcx & Hcy). rewrite Hv.
  destruct (alive c) eqn:Halive; [| exact Hsame].
  clear Hsame. destruct Hshape as [Hlen Hrows].
  assert (Hcells : forall cx cy,
    cell_at (<[Z.to_nat py := <[Z.to_nat px := None]>
                 (default [] (_grid (world m) !! Z.to_nat py))]>
               (_grid (world m))) cx cy
    = if decide (cy = Z.to_nat py /\ cx = Z.to_nat px) then None
      else cell_at (_grid (world m)) cx cy).
  { intros cx cy.
    now apply (cell_at_insert _ (width (world m)) (height (world m))). }
  set (c' := set_alive false c).
  assert (Hkeep : x c' = x c /\ y c' = y c /\ genome c' = genome c /\
                  brain c' = brain c /\ last_dir c' = last_dir c /\
                  alive c' = false) by (subst c'; now destruct c).
  destruct Hkeep as (Ex & Ey & Eg & Eb & Ed & Ea).
  eexists. split; [reflexivity |]. split_and!.
  - split_and!.
    + unfold grid_shape.
      cbn [world _grid set_grid set_murder_count width height].
      now apply shape_insert.
    + intros cx cy id.
      cbn [heap world _grid set_grid set_murder_count]. rewrite Hcells.
      case_decide as Hd; [discriminate |]. intros Hid.
      destruct (HI _ _ _ Hid) as (c0 & Hc0 & Hx0 & Hy0).
      destruct (decide (id = v)) as [-> | Hne].
      * exists c'. rewrite lookup_insert_eq.
        assert (c0 = c) by congruence. subst c0.
        split; [reflexivity | lia].
      * exists c0. now rewrite lookup_insert_ne by congruence.
    + intros id c0. cbn [heap].
      destruct (decide (id = v)) as [-> | Hne].
      * rewrite lookup_insert_eq. intros [= <-].
        destruct (Hall v c Hv) as (Hd0 & Hb0 & _).
        split_and!; [lia | lia | congruence | congruence].
      * rewrite lookup_insert_ne by congruence. intros Hc0.
        destruct (Hall id c0 Hc0) as (Hd0 & Hb0 & Hp0).
        split; [exact Hd0 | split; [exact Hb0 |]]. intros Hal0.
        destruct (Hp0 Hal0) as (c1 & Hc1 & Hx1 & Hy1 & Hcell1).
        exists c1. cbn [heap world _grid set_grid set_murder_count].
        rewrite lookup_insert_ne by congruence.
        split_and!; auto. rewrite Hcells.
        case_decide as Hd; [| exact Hcell1].
        destruct Hd as [E1 E2]. rewrite E1, E2, Hcell in Hcell1. congruence.
  - split_and!; auto; [discriminate |]. intros id c0 Hc0. cbn [heap].
    destruct (decide (id = v)) as [-> | Hne].
    + exists c'. rewrite lookup_insert_eq.
      assert (c0 = c) by congruence. subst c0.
      split_and!; auto; congruence || discriminate.
    + exists c0. rewrite lookup_insert_ne by congruence. auto.
  - reflexivity.
Qed.

End StepInvariant.

Section ActionInvariant.
Context {F G : Type} `{FloatOps F} `{RngOps G F}.
Implicit Types (m : Mem F G).

Lemma DIRS_total (i : Z) :
  0 <= i < 8 -> exists d, getitem DIRS i = Ok d.
Proof.
  intros Hi. destruct (getitem_nonneg DIRS i) as (d & _ & Hd); [cbn; lia |].
  eauto.
Qed.

Lemma move_along_heading_ok (id : nat) m (c : Creature F) :
  world_ok m -> heap m !! id = Some c -> alive c = true ->
  exists (moved : bool) m',
    move_along_heading id m = Done moved m' /\
    world_ok m' /\ step_rel false m m'.
Proof.
  intros Hok Hc Hal. unfold move_along_heading.
  rewrite bind_eq. unfold deref at 1. rewrite Hc.
  destruct Hok as (Hshape & HI & Hall).
  destruct (Hall id c Hc) as (Hd & _).
  destruct (DIRS_total (last_dir c) Hd) as (d & Hget).
  rewrite bind_eq, Hget, lift_Ok.
  destruct (move_creature_ok id (fst d) (snd d) m c) as
    (moved & m' & c' & Hrun & Hok' & Hrel & _); auto; [now split_and! |].
  exists moved, m'. auto.
Qed.

Lemma turn_then_move_ok (id : nat) (k : Z) m (c : Creature F) :
  world_ok m -> heap m !! id = Some c -> alive c = true ->
  exists m',
    (assign id (fun c => set_last_dir ((last_dir c + k) mod 8) c) ;;
     move_along_heading id ;; mret tt) m = Done tt m' /\
    world_ok m' /\ step_rel false m m'.
Proof.
  intros Hok Hc Hal. rewrite bind_eq. unfold assign at 1. rewrite Hc.
  set (c1 := set_last_dir ((last_dir c + k) mod 8) c).
  assert (Hkeep : x c1 = x c /\ y c1 = y c /\ genome c1 = genome c /\
                  brain c1 = brain c /\ alive c1 = alive c /\
                  last_dir c1 = (last_dir c + k) mod 8)
    by (subst c1; now destruct c).
  destruct Hkeep as (Ex & Ey & Eg & Eb & Ea & Ed).
  destruct (world_ok_update m id c c1 (world m) Hok Hc) as [Hok1 Hrel1];
    auto.
  { rewrite Ed. apply Z.mod_pos_bound. lia. }
  destruct (move_along_heading_ok id _ c1 Hok1) as (moved & m' & Hrun & Hok' & Hrel');
    [apply lookup_insert_eq | congruence |].
  exists m'. rewrite bind_eq, Hrun, ret_eq.
  split_and!; auto. exact (step_rel_trans false m _ m' Hrel1 Hrel').
Qed.

Lemma execute_action_ok (KILL_ENABLED : bool) (id : nat) (action_id : Z)
    (strength : F) m (c : Creature F) :
  world_ok m -> heap m !! id = Some c -> alive c = true ->
  (forall (lo hi : Z) (g : G),
     lo < hi -> lo <= fst (rng_integers lo hi g) < hi) ->
  exists m',
    _execute_action KILL_ENABLED id action_id strength m = Done tt m' /\
    world_ok m' /\ step_rel KILL_ENABLED m m'.
Proof.
  intros Hok Hc Hal Hrng. unfold _execute_action.
  assert (Hmove : forall dx dy,
    exists m',
      (move_creature id dx dy ;; mret tt) m = Done tt m' /\
      world_ok m' /\ step_rel KILL_ENABLED m m').
  { intros dx dy.
    destruct (move_creature_ok id dx dy m c Hok Hc Hal)
      as (moved & m' & c' & Hrun & Hok' & Hrel & _).
    exists m'. rewrite bind_eq, Hrun, ret_eq.
    split_and!; auto. now apply step_rel_quiet. }
  assert (Hturn : forall k,
    exists m',
      (assign id (fun c => set_last_dir ((last_dir c + k) mod 8) c) ;;
       move_along_heading id ;; mret tt) m = Done tt m' /\
      world_ok m' /\ step_rel KILL_ENABLED m m').
  { intros k. destruct (turn_then_move_ok id k m c Hok Hc Hal)
      as (m' & Hrun & Hok' & Hrel).
    exists m'. split_and!; auto. now apply step_rel_quiet. }
  destruct (Z.eqb_spec action_id 0); [apply Hmove |].
  destruct (Z.eqb_spec action_id 1); [apply Hmove |].
  destruct (Z.eqb_spec action_id 2).
  { rewrite bind_eq, draw_eq.
    set (d := fst (rng_integers 0 8 (rng (world m)))).
    assert (Hd : 0 <= d < 8) by (apply Hrng; lia).
    destruct (DIRS_total d Hd) as (dir & Hget).
    rewrite bind_eq, Hget, lift_Ok.
    destruct (world_ok_rng m (snd (rng_integers 0 8 (rng (world m)))) Hok)
      as [Hok1 Hrel1].
    destruct (move_creature_ok id (fst dir) (snd dir) _ c Hok1 Hc Hal)
      as (moved & m2 & c2 & Hrun & Hok2 & Hrel2 & _ & Hc2 & Hal2).
    rewrite bind_eq, Hrun.
    destruct moved.
    - unfold assign. rewrite Hc2.
      set (c3 := set_last_dir d c2).
      assert (Hkeep : x c3 = x c2 /\ y c3 = y c2 /\ genome c3 = genome c2 /\
                      brain c3 = brain c2 /\ alive c3 = alive c2 /\
                      last_dir c3 = d) by (subst c3; now destruct c2).
      destruct Hkeep as (Ex & Ey & Eg & Eb & Ea & Ed).
      destruct (world_ok_update m2 id c2 c3 (world m2) Hok2 Hc2)
        as [Hok3 Hrel3]; auto; try lia.
      eexists. split; [reflexivity |]. split; [exact Hok3 |].
      apply step_rel_quiet.
      exact (step_rel_trans false m _ _ Hrel1
               (step_rel_trans false _ m2 _ Hrel2 Hrel3)).
    - exists m2. rewrite ret_eq. split_and!; auto.
      apply step_rel_quiet. exact (step_rel_trans false m _ m2 Hrel1 Hrel2). }
  destruct (Z.eqb_spec action_id 3).
  { destruct (move_along_heading_ok id m c Hok Hc Hal)
      as (moved & m' & Hrun & Hok' & Hrel).
    exists m'. rewrite bind_eq, Hrun, ret_eq.
    split_and!; auto. now apply step_rel_quiet. }
  destruct (Z.eqb_spec action_id 4); [apply (Hturn (-1)) |].
  destruct (Z.eqb_spec action_id 5); [apply (Hturn 1) |].
  destruct (Z.eqb_spec action_id 6); [apply (Hturn 4) |].
  assert (Hnoop : exists m',
            (mret tt : M (Mem F G) unit) m = Done tt m' /\
            world_ok m' /\ step_rel KILL_ENABLED m m').
  { exists m. rewrite ret_eq. split_and!; auto. apply step_rel_refl. }
  destruct (Z.eqb_spec action_id 7); [| exact Hnoop].
  destruct KILL_ENABLED; [| exact Hnoop].
  rewrite bind_eq. unfold deref at 1. rewrite Hc.
  destruct Hok as (Hshape & HI & Hall).
  destruct (Hall id c Hc) as (Hd & _).
  destruct (DIRS_total (last_dir c) Hd) as (dir & Hget).
  rewrite bind_eq, Hget, lift_Ok.
  destruct (kill_creature_at_ok (x c + fst dir) (y c + snd dir) m)
    as (m' & Hrun & Hok' & Hrel' & _); [now split_and! |].
  exists m'. auto.
Qed.

(** Reading the grid. *)

Lemma occupied_total (px py : Z) m :
  grid_shape m -> exists b : bool, occupied px py m = Done b m.
Proof.
  intros [Hlen Hrows]. unfold occupied. rewrite bind_eq. cbn [get_world].
  destruct (_in_bounds (world m) px py) eqn:Hb; [| eexists; apply ret_eq].
  apply in_bounds_nonneg in Hb. destruct Hb as [Hx Hy].
  rewrite bind_eq, grid_get_eq.
  rewrite (grid_read_in_range _ _ _ px py Hlen Hrows Hx Hy).
  eexists. apply ret_eq.
Qed.

Lemma count_loop_total {A} (l : list A) (test : A -> option (Z * Z)) m :
  grid_shape m ->
  forall count : Z,
    exists n : Z,
      for_fold l count (fun (count : Z) a =>
        match test a with
        | None => mret count
        | Some (px, py) =>
            b ← occupied px py;
            mret (if (b : bool) then count + 1 else count)
        end) m = Done n m.
Proof.
  intros Hshape. induction l as [| a l IH]; intros count.
  - exists count. apply ret_eq.
  - cbn [for_fold]. rewrite bind_eq.
    destruct (test a) as [[px py] |].
    + rewrite bind_eq.
      destruct (occupied_total px py m Hshape) as [b ->].
      rewrite ret_eq. apply IH.
    + rewrite ret_eq. apply IH.
Qed.

Lemma local_density_total (cx cy radius : Z) m :
  grid_shape m -> exists n : Z, local_density cx cy radius m = Done n m.
Proof.
  intros Hshape. unfold local_density.
  generalize (py_range (- radius) (radius + 1)) at 1. intros dys.
  generalize 0 at 1. induction dys as [| dy dys IH]; intros count.
  - exists count. apply ret_eq.
  - cbn [for_fold]. rewrite bind_eq.
    destruct (count_loop_total (py_range (- radius) (radius + 1))
                (fun dx => if (dx =? 0) && (dy =? 0) then None
                           else Some (cx + dx, cy + dy))
                m Hshape count) as [n Hn].
    match goal with
    | |- context [for_fold ?l ?acc ?body m] =>
        replace (for_fold l acc body m) with (Done (S := Mem F G) n m)
    end; [apply IH |].
    rewrite <- Hn. clear IH Hn.
    generalize count. induction (py_range (- radius) (radius + 1)) as [| dx l IHl];
      intros acc; [reflexivity |].
    cbn [for_fold]. rewrite !bind_eq.
    destruct ((dx =? 0) && (dy =? 0)).
    + rewrite !ret_eq. apply IHl.
    + rewrite !bind_eq.
      destruct (occupied_total (cx + dx) (cy + dy) m Hshape) as [b ->].
      rewrite !ret_eq. apply IHl.
Qed.

End ActionInvariant.

Section SensingTotal.
Context {F G : Type} `{FloatOps F} `{RngOps G F}.
Implicit Types (m : Mem F G).

Lemma forward_density_gradient_total (cx cy dir_idx : Z) m :
  grid_shape m -> 0 <= dir_idx < 8 ->
  exists v : F, forward_density_gradient cx cy dir_idx m = Done v m.
Proof.
  intros Hshape Hd. unfold forward_density_gradient.
  destruct (DIRS_total dir_idx Hd) as ([dx dy] & Hget).
  rewrite bind_eq, Hget, lift_Ok.
  destruct (count_loop_total (py_range 1 6)
              (fun step => Some (cx + dx * step, cy + dy * step))
              m Hshape 0) as [fwd Hfwd].
  destruct (count_loop_total (py_range 1 6)
              (fun step => Some (cx - dx * step, cy - dy * step))
              m Hshape 0) as [bwd Hbwd].
  rewrite bind_eq. cbv beta iota in Hfwd, Hbwd. rewrite Hfwd.
  rewrite bind_eq, Hbwd. eexists. apply ret_eq.
Qed.

Lemma get_creature_total (px py : Z) m :
  grid_shape m -> grid_consistent m ->
  exists ahead : option nat,
    get_creature px py m = Done ahead m /\
    forall o, ahead = Some o -> is_Some (heap m !! o).
Proof.
  intros [Hlen Hrows] HI. unfold get_creature.
  rewrite bind_eq. cbn [get_world].
  destruct (_in_bounds (world m) px py) eqn:Hb.
  - apply in_bounds_nonneg in Hb. destruct Hb as [Hx Hy].
    rewrite grid_get_eq.
    rewrite (grid_read_in_range _ _ _ px py Hlen Hrows Hx Hy).
    eexists. split; [reflexivity |]. intros o Ho.
    destruct (HI _ _ _ Ho) as (c & Hc & _). eauto.
  - exists None. split; [apply ret_eq | discriminate].
Qed.

Lemma genetic_sim_to_total (self : nat) (ahead : option nat) m
    (c : Creature F) :
  heap m !! self = Some c ->
  (forall o, ahead = Some o -> is_Some (heap m !! o)) ->
  exists v : F, genetic_sim_to self ahead m = Done v m.
Proof.
  intros Hc Hahead. unfold genetic_sim_to.
  destruct ahead as [o |]; [| eexists; apply ret_eq].
  destruct (Hahead o eq_refl) as [oc Hoc].
  rewrite bind_eq. unfold deref at 1. rewrite Hc.
  rewrite bind_eq. unfold deref at 1. rewrite Hoc.
  eexists. apply ret_eq.
Qed.

End SensingTotal.

Section StepSafe.
Context {G : Type} `{RngOps G R}.
Implicit Types (m : Mem R G).

Lemma int_truediv_Ok (a b : Z) :
  b <> 0 -> int_truediv (F := R) a b = Ok (IZR a / IZR b)%R.
Proof.
  intros Hb. unfold int_truediv.
  destruct (Z.eqb_spec b 0); [contradiction | reflexivity].
Qed.

Lemma float_truediv_Ok (a b : R) :
  b <> 0%R -> float_truediv a b = Ok (a / b)%R.
Proof.
  intros Hb. unfold float_truediv. cbn [fzerob fdiv RealFloat].
  destruct (Req_dec_T b 0); [contradiction | reflexivity].
Qed.

Lemma half_nonzero (n : Z) : 2 <= n -> (IZR n / IZR 2 <> 0)%R.
Proof.
  intros Hn. apply IZR_le in Hn. intros E.
  assert (IZR n = 0)%R; [| lra].
  apply (Rmult_eq_reg_r (/ IZR 2)); [| apply Rinv_neq_0_compat; lra].
  unfold Rdiv in E. lra.
Qed.

(** Sensing in a world at least two cells wide and high. *)
Lemma sense_ok (self : nat) (sim_step : Z) m (c : Creature R) :
  world_ok m -> heap m !! self = Some c ->
  2 <= width (world m) -> 2 <= height (world m) ->
  exists (inputs : list R) m' c',
    _sense self sim_step m = Done inputs m' /\
    length inputs = Z.to_nat NUM_SENSORS /\
    world_ok m' /\ step_rel false m m' /\
    heap m' !! self = Some c' /\
    alive c' = alive c /\ brain c' = brain c /\ genome c' = genome c.
Proof.
  intros Hok Hc HW HH. unfold _sense.
  rewrite bind_eq. cbn [get_world]. cbv zeta.
  rewrite bind_eq. unfold deref at 1. rewrite Hc.
  rewrite bind_eq, int_truediv_Ok, lift_Ok by lia.
  rewrite bind_eq, int_truediv_Ok, lift_Ok by lia.
  rewrite bind_eq, int_truediv_Ok, lift_Ok by (unfold STEPS_PER_GEN; lia).
  rewrite bind_eq, draw_eq.
  destruct (world_ok_rng m (snd (rng_random (rng (world m)))) Hok)
    as [Hok1 Hrel1].
  set (m1 := mkMem (heap m) (set_rng _ (world m))) in *.
  rewrite bind_eq. unfold assign at 1.
  assert (Hc1 : heap m1 !! self = Some c) by exact Hc.
  rewrite Hc1.
  set (c2 := set_osc_phase _ c).
  assert (Hkeep : x c2 = x c /\ y c2 = y c /\ genome c2 = genome c /\
                  brain c2 = brain c /\ alive c2 = alive c /\
                  last_dir c2 = last_dir c) by (subst c2; now destruct c).
  destruct Hkeep as (Ex & Ey & Eg & Eb & Ea & Ed).
  assert (Hd : 0 <= last_dir c < 8).
  { destruct Hok as (_ & _ & Hall). now destruct (Hall self c Hc). }
  destruct (world_ok_update m1 self c c2 (world m1) Hok1 Hc1)
    as [Hok2 Hrel2]; auto; try lia.
  set (m2 := mkMem (<[self := c2]> (heap m1)) (world m1)) in *.
  assert (Hc2 : heap m2 !! self = Some c2) by apply lookup_insert_eq.
  rewrite bind_eq. unfold deref at 1. rewrite Hc2.
  assert (EW : width (world m2) = width (world m)) by reflexivity.
  assert (EH : height (world m2) = height (world m)) by reflexivity.
  rewrite bind_eq, int_truediv_Ok, lift_Ok by lia.
  rewrite bind_eq, float_truediv_Ok, lift_Ok
    by (cbn [of_int RealFloat]; now apply half_nonzero).
  rewrite bind_eq, int_truediv_Ok, lift_Ok by lia.
  rewrite bind_eq, float_truediv_Ok, lift_Ok
    by (cbn [of_int RealFloat]; now apply half_nonzero).
  destruct Hok2 as (Hshape2 & HI2 & Hall2).
  destruct (local_density_total (x c2) (y c2) 2 m2 Hshape2) as [n Hn].
  rewrite bind_eq, Hn.
  destruct (forward_density_gradient_total (x c2) (y c2) (last_dir c2) m2
              Hshape2) as [grad Hgrad]; [lia |].
  rewrite bind_eq, Hgrad.
  destruct (DIRS_total (last_dir c2)) as ([dx dy] & Hget); [lia |].
  rewrite bind_eq, Hget, lift_Ok.
  destruct (get_creature_total (x c2 + dx) (y c2 + dy) m2 Hshape2 HI2)
    as (ahead & Hahead & Hheap).
  rewrite bind_eq, Hahead.
  destruct (genetic_sim_to_total self ahead m2 c2 Hc2 Hheap) as [sim Hsim].
  rewrite bind_eq, Hsim, ret_eq.
  eexists _, m2, c2. split; [reflexivity |].
  split; [reflexivity |].
  split; [now split_and! |].
  split; [exact (step_rel_trans false m m1 m2 Hrel1 Hrel2) |].
  split_and!; auto.
Qed.

End StepSafe.

(** ** Action selection *)

(** The loop of [step] over the activations, for any floats whose [<]
    is a strict order.  [step] compares float32 values: the magnitudes
    are float32, and under NumPy 2 the Python literal [0.1] is compared
    as the float32 nearest to 0.1, which is what [THRESHOLD] is at a
    float type.  The loop keeps the running best value, which only
    grows; the index it returns is the first at which the final best
    value was installed. *)
Lemma choose_action_loop_spec {F} `{FloatOps F} (rest : list F) :
  flt_strict ->
  forall (i : Z) (best_act : option Z) (best_val : F),
    let '(act, val) := choose_action_loop rest i best_act best_val in
    (val = best_val \/ fgtb val best_val = true) /\
    (forall w, w ∈ rest -> fgtb (fabs w) val = false) /\
    ((act = best_act /\ val = best_val) \/
     (exists (k : nat) (v : F),
        rest !! k = Some v /\ act = Some (i + Z.of_nat k) /\ val = fabs v /\
        fgtb (fabs v) best_val = true /\
        forall (j : nat) (w : F),
          (j < k)%nat -> rest !! j = Some w -> ordinary (fabs w) ->
          fgtb (fabs v) (fabs w) = true)).
Proof.
  intros [Hirr Htr]. unfold fgtb.
  induction rest as [| v rest IH]; intros i best_act best_val.
  - cbn. split_and!; [now left | intros w Hw; inversion Hw | now left].
  - cbn [choose_action_loop]. unfold fgtb.
    destruct (fltb best_val (fabs v)) eqn:E.
    + specialize (IH (i + 1) (Some i) (fabs v)).
      destruct (choose_action_loop rest (i + 1) (Some i) (fabs v))
        as [act val].
      destruct IH as (Hval & Hmax & Hcase).
      assert (Hbv : fltb best_val val = true).
      { destruct Hval as [-> | Hlt]; [exact E | exact (Htr _ _ _ E Hlt)]. }
      split_and!.
      * now right.
      * intros w Hw. apply elem_of_cons in Hw.
        destruct Hw as [-> | Hw]; [| now apply Hmax].
        destruct Hval as [-> | Hlt]; [apply Hirr |].
        destruct (fltb val (fabs v)) eqn:E2; [| reflexivity].
        pose proof (Htr _ _ _ Hlt E2) as Hc. now rewrite Hirr in Hc.
      * right.
        destruct Hcase as [[-> ->] | (k & v' & Hk & -> & -> & Hgt & Hearlier)].
        -- exists 0%nat, v.
           split_and!; [reflexivity | f_equal; lia | reflexivity | exact E |].
           intros j w Hj. lia.
        -- exists (S k), v'.
           split_and!; [exact Hk | f_equal; lia | reflexivity
                       | exact (Htr _ _ _ E Hgt) |].
           intros [| j] w Hj Hw Hord.
           ++ cbn in Hw. injection Hw as <-. exact Hgt.
           ++ apply (Hearlier j w); [lia | exact Hw | exact Hord].
    + specialize (IH (i + 1) best_act best_val).
      destruct (choose_action_loop rest (i + 1) best_act best_val)
        as [act val].
      destruct IH as (Hval & Hmax & Hcase).
      split_and!.
      * exact Hval.
      * intros w Hw. apply elem_of_cons in Hw.
        destruct Hw as [-> | Hw]; [| now apply Hmax].
        destruct Hval as [-> | Hlt]; [exact E |].
        destruct (fltb val (fabs v)) eqn:E2; [| reflexivity].
        pose proof (Htr _ _ _ Hlt E2) as Hc. rewrite E in Hc. discriminate.
      * destruct Hcase as [[-> ->] | (k & v' & Hk & -> & -> & Hgt & Hearlier)];
          [now left |].
        right. exists (S k), v'.
        split_and!; [exact Hk | f_equal; lia | reflexivity | exact Hgt |].
        intros [| j] w Hj Hw Hord.
        -- cbn in Hw. injection Hw as <-. exact (Hord _ _ E Hgt).
        -- apply (Hearlier j w); [lia | exact Hw | exact Hord].
Qed.


Section RealOrder.

Lemma real_flt_strict : flt_strict (F := R).
Proof.
  split.
  - intros a. cbn [fltb RealFloat]. destruct (Rlt_dec a a); [lra | reflexivity].
  - intros a b c. cbn [fltb RealFloat].
    destruct (Rlt_dec a b), (Rlt_dec b c), (Rlt_dec a c);
      try discriminate; try reflexivity. lra.
Qed.

Lemma world_ok_corner : world_ok corner_world.
Proof.
  split_and!.
  - split; [reflexivity | repeat constructor].
  - intros cx cy id Hcell.
    destruct cx as [| [| cx]], cy as [| [| cy]]; cbn in Hcell;
      try discriminate.
    injection Hcell as <-. exists (Creature_init 0 0 []).
    split; [apply lookup_singleton_eq | auto].
  - intros id c Hc. unfold corner_world in Hc. cbn [heap] in Hc.
    apply lookup_singleton_Some in Hc. destruct Hc as [<- <-].
    split_and!; [cbn; lia | cbn; lia | reflexivity |].
    intros _. exists (Creature_init 0 0 []).
    split; [apply lookup_singleton_eq |]. cbn. split_and!; auto; lia.
Qed.

End RealOrder.


(** ** A step is safe *)

Section StepTotal.
Context {G : Type} `{RngOps G R}.
Implicit Types (m : Mem R G).

Lemma decide_action_total (actions : list R) :
  length actions = Z.to_nat NUM_ACTIONS ->
  decide_action actions = Ok None \/
  exists (i : Z) (v : R),
    decide_action actions = Ok (Some (i, v)) /\ 0 <= i < NUM_ACTIONS.
Proof.
  intros Hlen.
  pose proof (choose_action_loop_spec actions real_flt_strict 0 None THRESHOLD)
    as Hloop.
  unfold decide_action, choose_action.
  destruct (choose_action_loop actions 0 None THRESHOLD) as [act val].
  cbn [fst].
  destruct Hloop as (_ & _ & [[-> ->] | (k & v & Hk & -> & _)]);
    [now left |].
  right. exists (0 + Z.of_nat k), v.
  pose proof (lookup_lt_Some _ _ _ Hk) as Hlt.
  rewrite (getitem_lookup actions (0 + Z.of_nat k) v);
    [| lia | now rewrite Z.add_0_l, Nat2Z.id].
  split; [reflexivity | lia].
Qed.

End StepTotal.

(** X29.  In a world at least two cells wide and high that is in order
    (well-shaped consistent grid; every creature with a heading in
    [0, 8), the brain of its genome and, while alive, its place on the
    grid), with a generator whose [integers(lo, hi)] lies in [lo, hi):
    a step of any creature never raises and leaves the world in order.
    No creature is lost or changes genome, none comes back to life, and
    with killing disabled none dies and the murder counter stays. *)
Theorem step_safe {G} `{RngOps G R} (KILL_ENABLED : bool) (self : nat)
    (sim_step : Z) (m : Mem R G) :
  world_ok m -> is_Some (heap m !! self) ->
  2 <= width (world m) -> 2 <= height (world m) ->
  (forall (lo hi : Z) (g : G),
     lo < hi -> lo <= fst (rng_integers lo hi g) < hi) ->
  exists m',
    step KILL_ENABLED self sim_step m = Done tt m' /\
    world_ok m' /\ step_rel KILL_ENABLED m m'.
Proof.
  intros Hok [c Hc] HW HH Hrng. unfold step.
  rewrite bind_eq. unfold deref at 1. rewrite Hc.
  destruct (alive c) eqn:Halive; cbn [negb].
  2: { exists m. rewrite ret_eq. split_and!; auto. apply step_rel_refl. }
  rewrite bind_eq. unfold assign at 1. rewrite Hc.
  set (c0 := set_age (age c + 1) c).
  assert (Hkeep : x c0 = x c /\ y c0 = y c /\ genome c0 = genome c /\
                  brain c0 = brain c /\ alive c0 = alive c /\
                  last_dir c0 = last_dir c) by (subst c0; now destruct c).
  destruct Hkeep as (Ex & Ey & Eg & Eb & Ea & Ed).
  assert (Hd : 0 <= last_dir c < 8 /\ brain c = NeuralNetwork_init (genome c)).
  { destruct Hok as (_ & _ & Hall). destruct (Hall self c Hc) as (? & ? & _).
    auto. }
  destruct (world_ok_update m self c c0 (world m) Hok Hc)
    as [Hok0 Hrel0]; auto; try lia.
  destruct (sense_ok self sim_step _ c0 Hok0)
    as (inputs & m1 & c1 & Hsense & Hlen & Hok1 & Hrel1 & Hc1 & Ea1 & Eb1 & Eg1);
    [apply lookup_insert_eq | exact HW | exact HH |].
  rewrite bind_eq, Hsense. rewrite bind_eq. unfold deref at 1. rewrite Hc1.
  destruct (forward_connections_pruned (_parse_genome (genome c)) inputs
              MAX_INTERNAL_NEURONS NUM_ACTIONS)
    as (actions & _ & Hf & Hlena);
    [rewrite Hlen; apply parse_genome_wf |].
  assert (Hforward : forward (brain c1) inputs = Ok actions).
  { rewrite Eb1, Eb, (proj2 Hd). exact Hf. }
  rewrite bind_eq, Hforward, lift_Ok. rewrite bind_eq.
  assert (Hrel01 : step_rel KILL_ENABLED m m1).
  { apply step_rel_quiet. exact (step_rel_trans false m _ m1 Hrel0 Hrel1). }
  destruct (decide_action_total actions Hlena) as [-> | (i & v & -> & Hi)].
  - rewrite lift_Ok. exists m1. rewrite ret_eq. auto.
  - rewrite lift_Ok.
    destruct (execute_action_ok KILL_ENABLED self i v m1 c1 Hok1 Hc1)
      as (m' & Hrun & Hok' & Hrel'); [congruence | exact Hrng |].
    exists m'. split_and!; auto.
    exact (step_rel_trans KILL_ENABLED m m1 m' Hrel01 Hrel').
Qed.

Lemma step_safe_witness :
  exists m' : Mem R Z,
    step true 0 0 corner_world = Done tt m' /\
    world_ok m' /\ step_rel true corner_world m'.
Proof.
  apply (step_safe true 0 0 corner_world).
  - exact world_ok_corner.
  - exists (Creature_init 0 0 []). apply lookup_singleton_eq.
  - cbn. lia.
  - cbn. lia.
  - intros lo hi g Hlt. cbn [rng_integers LcgRng fst].
    pose proof (Z.mod_pos_bound g (hi - lo)). lia.
Defined.
